(** * Synthetic logged bandit data with action embeddings

    A shallow embedding of [obp/dataset/synthetic_embed.py]
    (class [SyntheticBanditDatasetWithActionEmbeds]).

    Floating-point numbers are idealised as real numbers ([R]); numpy arrays
    are nested lists indexed in the order of the numpy axes; the instance
    [self] is a record threaded through a state-and-exception monad; the
    pseudo-random generator [numpy.random.RandomState] is an interface whose
    laws are the ones numpy documents. *)

From Stdlib Require Import String.
From Stdlib Require Import Reals Lra Lia List ZArith Bool Permutation Sorted.
Import ListNotations.
Open Scope R_scope.

(** ** numpy arrays as nested lists *)

Module Np.

Definition vector := list R.
Definition matrix := list (list R).
Definition tensor3 := list (list (list R)).

(** [tab n f] is the array [[f 0; ...; f (n-1)]]. *)
Definition tab {A : Type} (n : nat) (f : nat -> A) : list A := map f (seq 0 n).

Definition get1 (v : vector) (i : nat) : R := nth i v 0.
Definition get2 (m : matrix) (i j : nat) : R := nth j (nth i m []) 0.
Definition get3 (t : tensor3) (i j k : nat) : R := nth k (nth j (nth i t []) []) 0.

(** [np.zeros] for one, two and three axes. *)
Definition zeros1 (n : nat) : vector := repeat 0 n.
Definition zeros2 (n m : nat) : matrix := repeat (zeros1 m) n.
Definition zeros3 (n m k : nat) : tensor3 := repeat (zeros2 m k) n.

(** [np.zeros_like] of a matrix. *)
Definition zeros_like (m : matrix) : matrix :=
  map (fun row => zeros1 (length row)) m.

(** [x.sum()] along a row. *)
Definition Rsum (l : list R) : R := fold_right Rplus 0 l.

(** [x.max()] along a non-empty row (0 for the empty row, which numpy
    refuses). *)
Definition Rmaxl (l : list R) : R :=
  match l with
  | [] => 0
  | x :: l' => fold_left Rmax l' x
  end.

Definition dot (u v : vector) : R :=
  Rsum (map (fun p => fst p * snd p) (combine u v)).

(** [a @ b.T] *)
Definition matmul_T (a b : matrix) : matrix :=
  map (fun ra => map (fun rb => dot ra rb) b) a.

(** [k * x] for a scalar [k] and a matrix [x]. *)
Definition scale2 (k : R) (m : matrix) : matrix := map (map (Rmult k)) m.

(** [v[i] = x] on one axis; numpy raises out of range, the list is left as
    it is. *)
Fixpoint upd {A : Type} (l : list A) (i : nat) (x : A) : list A :=
  match l, i with
  | [], _ => []
  | _ :: l', O => x :: l'
  | y :: l', S i' => y :: upd l' i' x
  end.

(** [t[:, :, d]] *)
Definition slice_axis2 (t : tensor3) (d : nat) : matrix :=
  map (map (fun cell => nth d cell 0)) t.

(** [t[:, :, d] = m] *)
Definition assign_axis2 (t : tensor3) (d : nat) (m : matrix) : tensor3 :=
  tab (length t) (fun i =>
    let ti := nth i t [] in
    tab (length ti) (fun j => upd (nth j ti []) d (get2 m i j))).

(** [m[:, d] = col] for an integer matrix. *)
Definition assign_col (m : list (list nat)) (d : nat) (col : list nat)
  : list (list nat) :=
  tab (length m) (fun i => upd (nth i m []) d (nth i col O)).

(** [x.reshape((n, m))] and [x.reshape((n, m, k))] of a flat buffer, in
    row-major order. *)
Fixpoint chunks {A : Type} (n m : nat) (l : list A) : list (list A) :=
  match n with
  | O => []
  | S n' => firstn m l :: chunks n' m (skipn m l)
  end.

Definition reshape2 (n m : nat) (l : list R) : matrix := chunks n m l.
Definition reshape3 (n m k : nat) (l : list R) : tensor3 :=
  map (chunks m k) (chunks n (m * k) l).

(** [t[:, :, s:]], [m[:, s:]] *)
Definition drop_axis2 (s : nat) (t : tensor3) : tensor3 :=
  map (map (skipn s)) t.
Definition drop_axis1 {A : Type} (s : nat) (m : list (list A)) : list (list A) :=
  map (skipn s) m.

(** [m[:, :, np.newaxis]] *)
Definition newaxis2 (m : matrix) : tensor3 := map (map (fun x => [x])) m.

(** [np.argsort] of a row: the indices in increasing order of their
    values.  numpy leaves the order of equal values open; here they stay in
    index order. *)
Fixpoint insert_by (key : nat -> R) (i : nat) (l : list nat) : list nat :=
  match l with
  | [] => [i]
  | j :: l' =>
      if Rle_dec (key i) (key j) then i :: j :: l' else j :: insert_by key i l'
  end.

Definition argsort (row : vector) : list nat :=
  fold_right (insert_by (get1 row)) [] (seq 0 (length row)).

(** [x.cumsum()] along a row. *)
Fixpoint cumsum_from (acc : R) (l : list R) : list R :=
  match l with
  | [] => []
  | x :: l' => (acc + x) :: cumsum_from (acc + x) l'
  end.
Definition cumsum (l : list R) : list R := cumsum_from 0 l.

(** [flg.argmax()] of a row of booleans: the first [True], 0 when there is
    none. *)
Fixpoint first_true (l : list bool) : option nat :=
  match l with
  | [] => None
  | b :: l' => if b then Some O else option_map S (first_true l')
  end.
Definition argmax_bool (l : list bool) : nat :=
  match first_true l with Some i => i | None => O end.

(** [t[idx, :, d]] for an index array [idx] on axis 0. *)
Definition gather_axis2 (t : tensor3) (idx : list nat) (d : nat) : matrix :=
  map (fun a => map (fun cell => nth d cell 0) (nth a t [])) idx.

(** [np.tile(np.arange(n), (k, 1)).T]: row [r] holds [k] copies of [r]. *)
Definition tile_T (n k : nat) : list (list nat) := tab n (fun r => repeat r k).

(** [m[(rows, cols)]] for two index arrays of one shape. *)
Definition index2 (m : matrix) (idx : list (list nat) * list (list nat))
  : matrix :=
  map (fun p => map (fun q => get2 m (fst q) (snd q)) (combine (fst p) (snd p)))
      (combine (fst idx) (snd idx)).

(** [m[i, j] = v] *)
Definition upd2 (m : matrix) (i j : nat) (v : R) : matrix :=
  upd m i (upd (nth i m []) j v).

(** [m[(rows, cols)] = vals]: the entries are written one after the other
    in row-major order. *)
Definition assign_index2 (m : matrix) (idx : list (list nat) * list (list nat))
  (vals : matrix) : matrix :=
  fold_left
    (fun acc p => upd2 acc (fst (fst p)) (snd (fst p)) (snd p))
    (concat (map (fun p => combine (combine (fst (fst p)) (snd (fst p))) (snd p))
                 (combine (combine (fst idx) (snd idx)) vals)))
    m.

(** [m[rows, cols]] and [t[rows, cols, d]] for two index vectors. *)
Definition index_pairs (m : matrix) (rows cols : list nat) : vector :=
  map (fun p => get2 m (fst p) (snd p)) (combine rows cols).
Definition index_pairs3 (t : tensor3) (rows cols : list nat) (d : nat) : vector :=
  map (fun p => get3 t (fst p) (snd p) d) (combine rows cols).

(** [m[:, d]] of an integer matrix. *)
Definition column (m : list (list nat)) (d : nat) : list nat :=
  map (fun row => nth d row O) m.

(** [u + v] and [k * v] on vectors. *)
Definition add_vec (u v : vector) : vector :=
  map (fun p => fst p + snd p) (combine u v).
Definition scale1 (k : R) (v : vector) : vector := map (Rmult k) v.

(** [(t * w.reshape((1, 1, d))).sum(2)] *)
Definition mul_axis2 (t : tensor3) (w : vector) : tensor3 :=
  map (map (fun cell => map (fun p => fst p * snd p) (combine cell w))) t.
Definition sum_axis2 (t : tensor3) : matrix := map (map Rsum) t.

(** [v[start:] = w] *)
Definition assign_from (v : vector) (start : nat) (w : vector) : vector :=
  firstn start v ++ w.

(** Shapes. *)
Definition shape2 {A : Type} (m : list (list A)) (n k : nat) : Prop :=
  length m = n /\ Forall (fun row => length row = k) m.
Definition shape3 {A : Type} (t : list (list (list A))) (n k d : nat) : Prop :=
  length t = n /\ Forall (fun m => shape2 m k d) t.

End Np.

Import Np.

(** ** Python values, exceptions and [sklearn.utils.check_scalar] *)

Inductive pyobj : Type :=
| PyInt (z : Z)
| PyFloat (x : R)
| PyStr (s : string)
| PyNone.

Inductive exn : Type :=
| TypeError (name : string)
| ValueError (name : string).

Definition result (A : Type) : Type := (exn + A)%type.

(** [check_scalar(x, name, int, min_val=lo, max_val=hi)]: a [TypeError]
    unless [x] is an [int], a [ValueError] outside the bounds. *)
Definition check_scalar (x : pyobj) (name : string) (min_val max_val : option Z)
  : result Z :=
  match x with
  | PyInt z =>
      if match min_val with Some lo => (z <? lo)%Z | None => false end
      then inl (ValueError name)
      else if match max_val with Some hi => (hi <? z)%Z | None => false end
      then inl (ValueError name)
      else inr z
  | _ => inl (TypeError name)
  end.

(** [check_scalar(x, name, (int, float), min_val=lo)] on a number. *)
Definition check_scalar_real (x : R) (name : string) (min_val : R) : result R :=
  if Rlt_dec x min_val then inl (ValueError name) else inr x.

(** ** The generator [numpy.random.RandomState]

    The draws are those the class makes.  [normal loc scale] draws one value
    per entry of [loc]; [dirichlet alpha] is the single row of
    [dirichlet(alpha, size=1)].  A draw that numpy refuses with a
    [ValueError] is [None]. *)

Class RandomState : Type := {
  rng : Type;
  seed : Z -> option rng;
  normal : vector -> R -> rng -> option (vector * rng);
  uniform : nat -> rng -> vector * rng;
  dirichlet : vector -> rng -> option (vector * rng);
  gumbel : nat -> rng -> vector * rng;
  binomial : Z -> vector -> rng -> option (list Z * rng);

  seed_defined : forall z, (0 <= z < 2 ^ 32)%Z <-> seed z <> None;
  normal_defined : forall loc scale g,
      0 <= scale <-> normal loc scale g <> None;
  normal_length : forall loc scale g v g',
      normal loc scale g = Some (v, g') -> length v = length loc;
  uniform_length : forall n g, length (fst (uniform n g)) = n;
  uniform_range : forall n g,
      Forall (fun u => 0 <= u < 1) (fst (uniform n g));
  dirichlet_defined : forall alpha g,
      Forall (fun a => 0 < a) alpha <-> dirichlet alpha g <> None;
  dirichlet_length : forall alpha g w g',
      dirichlet alpha g = Some (w, g') -> length w = length alpha;
  dirichlet_nonneg : forall alpha g w g',
      dirichlet alpha g = Some (w, g') -> Forall (fun x => 0 <= x) w;
  dirichlet_sum : forall alpha g w g',
      dirichlet alpha g = Some (w, g') -> alpha <> [] -> Rsum w = 1;
  gumbel_length : forall n g, length (fst (gumbel n g)) = n;
  binomial_defined : forall n p g,
      ((0 <= n)%Z /\ Forall (fun x => 0 <= x <= 1) p) <-> binomial n p g <> None;
  binomial_length : forall n p g v g',
      binomial n p g = Some (v, g') -> length v = length p;
  binomial_range : forall n p g v g',
      binomial n p g = Some (v, g') -> Forall (fun x => (0 <= x <= n)%Z) v
}.

(** ** [obp.utils] *)

Module Utils.

(** Modelled from the spec: [obp.utils.softmax] is not under src/.  The
    softmax along axis 1, each row shifted by its maximum for numerical
    stability: [exp(x - max) / sum(exp(x - max))]. *)
Definition softmax_row (x : vector) : vector :=
  let b := Rmaxl x in
  let numerator := map (fun v => exp (v - b)) x in
  let denominator := Rsum numerator in
  map (fun v => v / denominator) numerator.

(** Modelled from the spec: [obp.utils.softmax] (not under src/) on a
    two-axis array, row by row. *)
Definition softmax (x : matrix) : matrix := map softmax_row x.

(** Modelled from the spec: [obp.utils.softmax] (not under src/) on a
    three-axis array: axis 1 is normalised for every index of axes 0
    and 2. *)
Definition softmax3 (x : tensor3) : tensor3 :=
  map (fun xa =>
         let k := length xa in
         let d := length (nth O xa []) in
         tab k (fun j => tab d (fun c =>
           nth j (softmax_row (tab k (fun j' => get2 xa j' c))) 0))) x.

(** Modelled from the spec: one row of [obp.utils.sample_action_fast] (not
    under src/), the first action whose cumulative probability exceeds the
    uniform draw [u]. *)
Definition sample_row (dist : vector) (u : R) : nat :=
  argmax_bool (map (fun c => if Rlt_dec u c then true else false) (cumsum dist)).

(** Modelled from the spec: [obp.utils.sample_action_fast] is not under
    src/.  A categorical sampler seeded by [random_state]: one uniform draw
    in [0, 1) per row of [action_dist], in a single batch from a generator
    seeded afresh, and for each row the action [sample_row] gives. *)
Definition sample_action_fast `{RandomState} (action_dist : matrix)
  (random_state : Z) : result (list nat) :=
  match seed random_state with
  | None => inl (ValueError "seed")
  | Some random_ =>
      let uniform_rvs := fst (uniform (length action_dist) random_) in
      inr (map (fun p => sample_row (fst p) (snd p))
               (combine action_dist uniform_rvs))
  end.

End Utils.
Import Utils.

(** ** The dataset class *)

Inductive RewardType : Type := BINARY | CONTINUOUS.

(** The pluggable reward and behavior-policy functions:
    [f(context=..., action_context=..., random_state=...)]. *)
Definition callable : Type := matrix -> matrix -> Z -> matrix.

(** The dataclass fields, as the caller gives them and as [self] holds
    them; [action_context] is the field of the base class that the
    behavior-policy function receives. *)
Record config : Type := mkConfig {
  n_actions : Z;
  dim_context : Z;
  reward_type : RewardType;
  reward_function : option callable;
  reward_std : R;
  behavior_policy_function : option callable;
  beta : R;
  n_cat_per_dim : Z;
  latent_param_mat_dim : Z;
  n_cat_dim : Z;
  p_e_a_param_std : R;
  n_unobserved_cat_dim : Z;
  n_irrelevant_cat_dim : Z;
  n_deficient_actions : Z;
  random_state : Z;
  dataset_name : string;
  action_context : matrix
}.

Definition set_n_cat_dim (c : config) (v : Z) : config :=
  mkConfig (n_actions c) (dim_context c) (reward_type c) (reward_function c)
    (reward_std c) (behavior_policy_function c) (beta c) (n_cat_per_dim c)
    (latent_param_mat_dim c) v (p_e_a_param_std c) (n_unobserved_cat_dim c)
    (n_irrelevant_cat_dim c) (n_deficient_actions c) (random_state c)
    (dataset_name c) (action_context c).

Definition set_n_unobserved_cat_dim (c : config) (v : Z) : config :=
  mkConfig (n_actions c) (dim_context c) (reward_type c) (reward_function c)
    (reward_std c) (behavior_policy_function c) (beta c) (n_cat_per_dim c)
    (latent_param_mat_dim c) (n_cat_dim c) (p_e_a_param_std c) v
    (n_irrelevant_cat_dim c) (n_deficient_actions c) (random_state c)
    (dataset_name c) (action_context c).

Definition set_n_irrelevant_cat_dim (c : config) (v : Z) : config :=
  mkConfig (n_actions c) (dim_context c) (reward_type c) (reward_function c)
    (reward_std c) (behavior_policy_function c) (beta c) (n_cat_per_dim c)
    (latent_param_mat_dim c) (n_cat_dim c) (p_e_a_param_std c)
    (n_unobserved_cat_dim c) v (n_deficient_actions c) (random_state c)
    (dataset_name c) (action_context c).

Definition set_reward_function (c : config) (v : option callable) : config :=
  mkConfig (n_actions c) (dim_context c) (reward_type c) v
    (reward_std c) (behavior_policy_function c) (beta c) (n_cat_per_dim c)
    (latent_param_mat_dim c) (n_cat_dim c) (p_e_a_param_std c)
    (n_unobserved_cat_dim c) (n_irrelevant_cat_dim c) (n_deficient_actions c)
    (random_state c) (dataset_name c) (action_context c).

(** The realized rewards: an integer array when drawn from the binomial, a
    float array when drawn from the normal. *)
Inductive reward_array : Type :=
| IntRewards (r : list Z)
| FloatRewards (r : vector).

(** The returned dictionary. *)
Module Feedback.
Record t : Type := mk {
  n_rounds : Z;
  n_actions : Z;
  action_context : list (list nat);
  action_embed : list (list nat);
  context : matrix;
  action : list nat;
  position : option unit;
  reward : reward_array;
  expected_reward : matrix;
  q_x_e : tensor3;
  p_e_a : tensor3;
  pi_b : tensor3;
  pscore : vector
}.
End Feedback.

(** The local variables of [obtain_batch_bandit_feedback] at its [return]. *)
Module Frame.
Record t : Type := mk {
  n_rounds : Z;
  contexts : matrix;
  cat_dim_importance : vector;
  q_x_e : tensor3;
  q_x_a : matrix;
  pi_b_logits : matrix;
  supported_actions : option (list (list nat));
  pi_b : matrix;
  actions : list nat;
  action_embed : list (list nat);
  expected_rewards_factual : vector;
  rewards : reward_array
}.
End Frame.

Section Instance.

Context {RS : RandomState}.

(** The instance: the dataclass fields, the generator [random_] and the
    arrays that [_define_action_embed] stores. *)
Record self_t : Type := mkSelf {
  cfg : config;
  random_ : rng;
  latent_cat_param : tensor3;
  p_e_a : tensor3;
  action_context_reg : list (list nat)
}.

Definition set_cfg (s : self_t) (c : config) : self_t :=
  mkSelf c (random_ s) (latent_cat_param s) (p_e_a s) (action_context_reg s).
Definition set_random_ (s : self_t) (g : rng) : self_t :=
  mkSelf (cfg s) g (latent_cat_param s) (p_e_a s) (action_context_reg s).
Definition set_latent_cat_param (s : self_t) (v : tensor3) : self_t :=
  mkSelf (cfg s) (random_ s) v (p_e_a s) (action_context_reg s).
Definition set_p_e_a (s : self_t) (v : tensor3) : self_t :=
  mkSelf (cfg s) (random_ s) (latent_cat_param s) v (action_context_reg s).
Definition set_action_context_reg (s : self_t) (v : list (list nat)) : self_t :=
  mkSelf (cfg s) (random_ s) (latent_cat_param s) (p_e_a s) v.

(** *** Methods run in a monad over [self]: an exception leaves [self] as it
    was when raised. *)
Definition M (A : Type) : Type := self_t -> result A * self_t.

Definition ret {A : Type} (a : A) : M A := fun s => (inr a, s).
Definition bind {A B : Type} (m : M A) (k : A -> M B) : M B :=
  fun s => match m s with
           | (inl e, s') => (inl e, s')
           | (inr a, s') => k a s'
           end.
Definition raise {A : Type} (e : exn) : M A := fun s => (inl e, s).
Definition get : M self_t := fun s => (inr s, s).
Definition modify (f : self_t -> self_t) : M unit := fun s => (inr tt, f s).
Definition lift {A : Type} (r : result A) : M A := fun s => (r, s).

(** A draw from [self.random_]. *)
Definition draw {A : Type} (f : rng -> A * rng) : M A :=
  fun s => let (a, g) := f (random_ s) in (inr a, set_random_ s g).
Definition draw_opt {A : Type} (f : rng -> option (A * rng)) (msg : string)
  : M A :=
  fun s => match f (random_ s) with
           | Some (a, g) => (inr a, set_random_ s g)
           | None => (inl (ValueError msg), s)
           end.

(** [for d in np.arange(n)] with a local accumulator. *)
Fixpoint for_each {B : Type} (l : list nat) (body : B -> nat -> M B) (b : B)
  : M B :=
  match l with
  | [] => ret b
  | d :: l' => bind (body b d) (fun b' => for_each l' body b')
  end.

End Instance.

Notation "x <- m ;; k" := (bind m (fun x => k))
  (at level 61, m at next level, right associativity).
Notation "m ;;; k" := (bind m (fun _ => k))
  (at level 61, right associativity).

Section Dataset.

Context {RS : RandomState}.

(** [obp.dataset.logistic_reward_function] and
    [obp.dataset.linear_reward_function], the defaults of
    [reward_function]. *)
Variable logistic_reward_function : callable.
Variable linear_reward_function : callable.

(** Modelled from the spec: [SyntheticBanditDataset.__post_init__], the
    base class's part of the construction, is not under src/.  It checks
    the base configuration (at least 2 actions, context dimension at least
    1, a positive reward standard deviation for continuous rewards, between
    0 and [n_actions - 1] deficient actions) and seeds the generator the
    instance owns. *)
Definition base_post_init (c : config) : result self_t :=
  match check_scalar (PyInt (n_actions c)) "n_actions" (Some 2%Z) None with
  | inl e => inl e
  | inr _ =>
  match check_scalar (PyInt (dim_context c)) "dim_context" (Some 1%Z) None with
  | inl e => inl e
  | inr _ =>
  match check_scalar (PyInt (n_deficient_actions c)) "n_deficient_actions"
          (Some 0%Z) (Some (n_actions c - 1)%Z) with
  | inl e => inl e
  | inr _ =>
  if match reward_type c with
     | CONTINUOUS => if Rlt_dec 0 (reward_std c) then false else true
     | BINARY => false
     end
  then inl (ValueError "reward_std")
  else
    match seed (random_state c) with
    | None => inl (ValueError "seed")
    | Some g => inr (mkSelf c g [] [] [])
    end
  end end end.

(** [_define_action_embed] *)
Definition _define_action_embed : M unit :=
  self <- get ;;
  let D := Z.to_nat (n_cat_dim (cfg self)) in
  let K := Z.to_nat (n_cat_per_dim (cfg self)) in
  let L := Z.to_nat (latent_param_mat_dim (cfg self)) in
  let A := Z.to_nat (n_actions (cfg self)) in
  z <- draw_opt (normal (zeros1 (D * K * L)) 1) "scale < 0" ;;
  modify (fun s => set_latent_cat_param s (reshape3 D K L z)) ;;;
  x <- draw_opt (normal (zeros1 (A * K * D)) (p_e_a_param_std (cfg self)))
         "scale < 0" ;;
  modify (fun s => set_p_e_a s (softmax3 (reshape3 A K D x))) ;;;
  modify (fun s => set_action_context_reg s (repeat (repeat O D) A)) ;;;
  for_each (seq 0 D)
    (fun _ d =>
       self <- get ;;
       col <- lift (sample_action_fast
                      (gather_axis2 (p_e_a self) (seq 0 A) d)
                      (random_state (cfg self) + Z.of_nat d)%Z) ;;
       modify (fun s =>
                 set_action_context_reg s
                   (assign_col (action_context_reg s) d col)))
    tt.

(** The body of [__post_init__] after [super().__post_init__()]. *)
Definition post_init_body : M unit :=
  self <- get ;;
  _ <- lift (check_scalar (PyInt (n_cat_per_dim (cfg self))) "n_cat_per_dim"
               (Some 1%Z) None) ;;
  _ <- lift (check_scalar (PyInt (latent_param_mat_dim (cfg self)))
               "latent_param_mat_dim" (Some 1%Z) None) ;;
  _ <- lift (check_scalar (PyInt (n_cat_dim (cfg self))) "n_cat_dim"
               (Some 1%Z) None) ;;
  _ <- lift (check_scalar_real (p_e_a_param_std (cfg self)) "p_e_a_param_std" 0) ;;
  _ <- lift (check_scalar (PyInt (n_unobserved_cat_dim (cfg self)))
               "n_unobserved_cat_dim" (Some 0%Z) (Some (n_cat_dim (cfg self)))) ;;
  _ <- lift (check_scalar (PyInt (n_irrelevant_cat_dim (cfg self)))
               "n_irrelevant_cat_dim" (Some 0%Z) (Some (n_cat_dim (cfg self)))) ;;
  modify (fun s => set_cfg s (set_n_cat_dim (cfg s) (n_cat_dim (cfg s) + 1)%Z)) ;;;
  modify (fun s => set_cfg s (set_n_unobserved_cat_dim (cfg s)
                                (n_unobserved_cat_dim (cfg s) + 1)%Z)) ;;;
  modify (fun s => set_cfg s (set_n_irrelevant_cat_dim (cfg s)
                                (n_irrelevant_cat_dim (cfg s) + 1)%Z)) ;;;
  _define_action_embed ;;;
  self <- get ;;
  match reward_function (cfg self) with
  | None =>
      match reward_type (cfg self) with
      | BINARY =>
          modify (fun s => set_cfg s (set_reward_function (cfg s)
                                        (Some logistic_reward_function)))
      | CONTINUOUS =>
          modify (fun s => set_cfg s (set_reward_function (cfg s)
                                        (Some linear_reward_function)))
      end
  | Some _ => ret tt
  end.

(** [__post_init__]: what constructing an instance from the dataclass
    fields runs. *)
Definition __post_init__ (c : config) : result self_t :=
  match base_post_init c with
  | inl e => inl e
  | inr s =>
      match post_init_body s with
      | (inl e, _) => inl e
      | (inr _, s') => inr s'
      end
  end.

(** [obtain_batch_bandit_feedback], up to its [return]. *)
Definition obtain_batch_body (n_rounds : pyobj) : M Frame.t :=
  n <- lift (check_scalar n_rounds "n_rounds" (Some 1%Z) None) ;;
  self <- get ;;
  let c := cfg self in
  let N := Z.to_nat n in
  let A := Z.to_nat (n_actions c) in
  let K := Z.to_nat (n_cat_per_dim c) in
  let D := Z.to_nat (n_cat_dim c) in
  z <- draw_opt (normal (zeros1 (N * Z.to_nat (dim_context c))) 1) "scale < 0" ;;
  let contexts := reshape2 N (Z.to_nat (dim_context c)) z in
  alpha <- draw (uniform (Z.to_nat (n_cat_dim c - n_irrelevant_cat_dim c))) ;;
  w <- draw_opt (dirichlet alpha) "alpha <= 0" ;;
  let cat_dim_importance :=
    assign_from (zeros1 D) (Z.to_nat (n_irrelevant_cat_dim c)) w in
  (* calc expected rewards given context and action *)
  q <- for_each (seq 0 D)
         (fun (q : tensor3 * tensor3) d =>
            match reward_function c with
            | None => raise (TypeError "reward_function")
            | Some reward_function =>
                let q_x_e :=
                  assign_axis2 (fst q) d
                    (reward_function contexts (nth d (latent_cat_param self) [])
                       (random_state c + Z.of_nat d)%Z) in
                let q_x_a :=
                  assign_axis2 (snd q) d
                    (matmul_T (slice_axis2 q_x_e d) (slice_axis2 (p_e_a self) d)) in
                ret (q_x_e, q_x_a)
            end)
         (zeros3 N K D, zeros3 N A D) ;;
  let q_x_e := fst q in
  let q_x_a := sum_axis2 (mul_axis2 (snd q) cat_dim_importance) in
  (* sample actions for each round based on the behavior policy *)
  let pi_b_logits :=
    match behavior_policy_function c with
    | None => q_x_a
    | Some behavior_policy_function =>
        behavior_policy_function contexts (action_context c) (random_state c)
    end in
  p <- (if (0 <? n_deficient_actions c)%Z then
          let pi_b := zeros_like q_x_a in
          let n_supported_actions :=
            Z.to_nat (n_actions c - n_deficient_actions c) in
          g <- draw (gumbel (N * A)) ;;
          let supported_actions :=
            map (fun row => firstn n_supported_actions (rev (argsort row)))
                (reshape2 N A g) in
          let supported_actions_idx :=
            (tile_T N n_supported_actions, supported_actions) in
          ret (Some supported_actions,
               assign_index2 pi_b supported_actions_idx
                 (softmax (scale2 (beta c)
                             (index2 pi_b_logits supported_actions_idx))))
        else
          ret (None, softmax (scale2 (beta c) pi_b_logits))) ;;
  let pi_b := snd p in
  actions <- lift (sample_action_fast pi_b (random_state c)) ;;
  (* sample action embeddings based on sampled actions *)
  action_embed <-
    for_each (seq 0 D)
      (fun action_embed d =>
         col <- lift (sample_action_fast
                        (gather_axis2 (p_e_a self) actions d) (Z.of_nat d)) ;;
         ret (assign_col action_embed d col))
      (repeat (repeat O D) N) ;;
  (* sample rewards given the context and action embeddings *)
  let expected_rewards_factual :=
    fold_left
      (fun erf d =>
         add_vec erf
           (scale1 (get1 cat_dim_importance d)
              (index_pairs3 q_x_e (seq 0 N) (column action_embed d) d)))
      (seq 0 D) (zeros1 N) in
  rewards <-
    match reward_type c with
    | BINARY =>
        r <- draw_opt (binomial 1 expected_rewards_factual)
               "p < 0, p > 1 or p is NaN" ;;
        ret (IntRewards r)
    | CONTINUOUS =>
        r <- draw_opt (normal expected_rewards_factual (reward_std c))
               "scale < 0" ;;
        ret (FloatRewards r)
    end ;;
  ret (Frame.mk n contexts cat_dim_importance q_x_e q_x_a pi_b_logits (fst p)
         pi_b actions action_embed expected_rewards_factual rewards).

(** The returned [dict(...)]. *)
Definition bandit_feedback (self : self_t) (f : Frame.t) : Feedback.t :=
  let c := cfg self in
  Feedback.mk
    (Frame.n_rounds f)
    (n_actions c)
    (drop_axis1 1 (action_context_reg self))
    (drop_axis1 (Z.to_nat (n_unobserved_cat_dim c)) (Frame.action_embed f))
    (Frame.contexts f)
    (Frame.actions f)
    None
    (Frame.rewards f)
    (Frame.q_x_a f)
    (drop_axis2 (Z.to_nat (n_unobserved_cat_dim c)) (Frame.q_x_e f))
    (drop_axis2 (Z.to_nat (n_unobserved_cat_dim c)) (p_e_a self))
    (newaxis2 (Frame.pi_b f))
    (index_pairs (Frame.pi_b f) (seq 0 (Z.to_nat (Frame.n_rounds f)))
       (Frame.actions f)).

(** [obtain_batch_bandit_feedback] *)
Definition obtain_batch_bandit_feedback (n_rounds : pyobj) : M Feedback.t :=
  f <- obtain_batch_body n_rounds ;;
  self <- get ;;
  ret (bandit_feedback self f).

End Dataset.

(** * Definitions used by the statements *)

Section Views.

Context {RS : RandomState}.

(** [advances s s']: nothing but the generator differs between [s] and
    [s']. *)
Definition advances (s s' : self_t) : Prop := s' = set_random_ s (random_ s').

(** A computation that only draws. *)
Definition frames {A : Type} (m : M A) : Prop :=
  forall s, advances s (snd (m s)).

(** A computation that leaves [self] alone. *)
Definition stateless {A : Type} (m : M A) : Prop :=
  forall s, snd (m s) = s.

(** One turn of the loop that fills [q_x_e] and [q_x_a]. *)
Definition q_step (self : self_t) (reward_function : callable)
  (contexts : matrix) (q : tensor3 * tensor3) (d : nat) : tensor3 * tensor3 :=
  let q_x_e :=
    assign_axis2 (fst q) d
      (reward_function contexts (nth d (latent_cat_param self) [])
         (random_state (cfg self) + Z.of_nat d)%Z) in
  (q_x_e,
   assign_axis2 (snd q) d
     (matmul_T (slice_axis2 q_x_e d) (slice_axis2 (p_e_a self) d))).

(** The loop that accumulates [expected_rewards_factual]. *)
Definition factual_loop (n d : nat) (cat_dim_importance : vector)
  (q_x_e : tensor3) (action_embed : list (list nat)) : vector :=
  fold_left
    (fun erf d =>
       add_vec erf
         (scale1 (get1 cat_dim_importance d)
            (index_pairs3 q_x_e (seq 0 n) (column action_embed d) d)))
    (seq 0 d) (zeros1 n).

(** The supported actions of each round, from the Gumbel draws. *)
Definition top_k (k : nat) (g : matrix) : list (list nat) :=
  map (fun row => firstn k (rev (argsort row))) g.

(** One write of [m[(rows, cols)] = vals]. *)
Definition write (acc : matrix) (p : nat * nat * R) : matrix :=
  upd2 acc (fst (fst p)) (snd (fst p)) (snd p).

(** The class invariant: what [__post_init__] establishes and every call of
    [obtain_batch_bandit_feedback] keeps.  The three dimension counters hold
    the user's values plus one. *)
Record Invariant (s : self_t) : Prop := {
  inv_n_actions : (2 <= n_actions (cfg s))%Z;
  inv_dim_context : (1 <= dim_context (cfg s))%Z;
  inv_n_deficient :
    (0 <= n_deficient_actions (cfg s) <= n_actions (cfg s) - 1)%Z;
  inv_reward_std : reward_type (cfg s) = CONTINUOUS -> 0 < reward_std (cfg s);
  inv_n_cat_per_dim : (1 <= n_cat_per_dim (cfg s))%Z;
  inv_latent_param_mat_dim : (1 <= latent_param_mat_dim (cfg s))%Z;
  inv_n_cat_dim : (2 <= n_cat_dim (cfg s))%Z;
  inv_n_unobserved :
    (1 <= n_unobserved_cat_dim (cfg s) <= n_cat_dim (cfg s))%Z;
  inv_n_irrelevant :
    (1 <= n_irrelevant_cat_dim (cfg s) <= n_cat_dim (cfg s))%Z;
  inv_seed :
    (0 <= random_state (cfg s))%Z /\
    (random_state (cfg s) + n_cat_dim (cfg s) - 1 < 2 ^ 32)%Z;
  inv_reward_function : reward_function (cfg s) <> None;
  inv_latent_cat_param :
    shape3 (latent_cat_param s) (Z.to_nat (n_cat_dim (cfg s)))
      (Z.to_nat (n_cat_per_dim (cfg s)))
      (Z.to_nat (latent_param_mat_dim (cfg s)));
  inv_p_e_a :
    shape3 (p_e_a s) (Z.to_nat (n_actions (cfg s)))
      (Z.to_nat (n_cat_per_dim (cfg s))) (Z.to_nat (n_cat_dim (cfg s)));
  inv_action_context_reg :
    shape2 (action_context_reg s) (Z.to_nat (n_actions (cfg s)))
      (Z.to_nat (n_cat_dim (cfg s)))
}.

(** The contract of the behavior-policy function: one row of [n_actions]
    logits per round. *)
Definition policy_contract (s : self_t) : Prop :=
  forall f, behavior_policy_function (cfg s) = Some f ->
  forall contexts random_state,
    shape2 (f contexts (action_context (cfg s)) random_state)
      (length contexts) (Z.to_nat (n_actions (cfg s))).

(** The contract of the reward function where the rewards are binary:
    expected rewards in [0, 1]. *)
Definition reward_range (s : self_t) : Prop :=
  forall f, reward_function (cfg s) = Some f ->
  forall contexts action_context random_state,
    Forall (Forall (fun q => 0 <= q <= 1))
      (f contexts action_context random_state).

(** The uniform draws that become the Dirichlet parameters of a call on
    [n] rounds are nonzero (numpy draws them from [0, 1) and refuses a
    Dirichlet parameter that is not positive). *)
Definition alpha_positive (s : self_t) (n : Z) : Prop :=
  forall z g,
    normal (zeros1 (Z.to_nat n * Z.to_nat (dim_context (cfg s)))) 1 (random_ s)
    = Some (z, g) ->
    Forall (fun u => 0 < u)
      (fst (uniform (Z.to_nat (n_cat_dim (cfg s) - n_irrelevant_cat_dim (cfg s))) g)).

(** The checks of the construction, on the fields as the caller gives
    them. *)
Record valid_config (c : config) : Prop := {
  valid_n_actions : (2 <= n_actions c)%Z;
  valid_dim_context : (1 <= dim_context c)%Z;
  valid_n_deficient : (0 <= n_deficient_actions c <= n_actions c - 1)%Z;
  valid_reward_std : reward_type c = CONTINUOUS -> 0 < reward_std c;
  valid_seed :
    (0 <= random_state c)%Z /\ (random_state c + n_cat_dim c < 2 ^ 32)%Z;
  valid_n_cat_per_dim : (1 <= n_cat_per_dim c)%Z;
  valid_latent_param_mat_dim : (1 <= latent_param_mat_dim c)%Z;
  valid_n_cat_dim : (1 <= n_cat_dim c)%Z;
  valid_p_e_a_param_std : 0 <= p_e_a_param_std c;
  valid_n_unobserved : (0 <= n_unobserved_cat_dim c <= n_cat_dim c)%Z;
  valid_n_irrelevant : (0 <= n_irrelevant_cat_dim c <= n_cat_dim c)%Z
}.

(** The fields of [self] after the construction: the three dimension
    counters incremented, the reward function defaulted. *)
Definition internal_config (logistic linear : callable) (c : config) : config :=
  let c1 := set_n_cat_dim c (n_cat_dim c + 1)%Z in
  let c2 := set_n_unobserved_cat_dim c1 (n_unobserved_cat_dim c1 + 1)%Z in
  let c3 := set_n_irrelevant_cat_dim c2 (n_irrelevant_cat_dim c2 + 1)%Z in
  match reward_function c3 with
  | Some _ => c3
  | None =>
      set_reward_function c3
        (Some match reward_type c3 with
              | BINARY => logistic
              | CONTINUOUS => linear
              end)
  end.

(** Every state of an instance: after its construction, and after each
    call. *)
Inductive Reachable (logistic linear : callable) (c : config)
  : self_t -> Prop :=
| Reachable_init : forall s,
    __post_init__ logistic linear c = inr s -> Reachable logistic linear c s
| Reachable_call : forall s x r s',
    Reachable logistic linear c s ->
    obtain_batch_bandit_feedback x s = (r, s') ->
    Reachable logistic linear c s'.

End Views.

(** * A small generator and two configurations, to run the class on

    Every draw of [Fixed] is the centre of its distribution: the mean for
    the normal, 1/2 for the uniform, equal weights for the Dirichlet, 0 for
    the binomial; the Gumbel draws increase with the index.  Its state
    counts the draws since the seed. *)

Module Fixed.

Definition rng : Type := (Z * nat)%type.

Definition seed (z : Z) : option rng :=
  if ((0 <=? z) && (z <? 2 ^ 32))%Z then Some (z, O) else None.

Definition tick (g : rng) : rng := (fst g, S (snd g)).

Definition normal (loc : vector) (scale : R) (g : rng) : option (vector * rng) :=
  if Rle_dec 0 scale then Some (loc, tick g) else None.

Definition uniform (n : nat) (g : rng) : vector * rng :=
  (repeat (1 / 2) n, tick g).

Definition dirichlet (alpha : vector) (g : rng) : option (vector * rng) :=
  if Forall_dec (fun a => 0 < a) (Rlt_dec 0) alpha
  then Some (map (fun _ => / INR (length alpha)) alpha, tick g)
  else None.

Definition gumbel (n : nat) (g : rng) : vector * rng :=
  (map INR (seq 0 n), tick g).

Definition unit_interval_dec (x : R) : {0 <= x <= 1} + {~ 0 <= x <= 1}.
Proof.
  destruct (Rle_dec 0 x) as [H0 | H0]; [| right; tauto].
  destruct (Rle_dec x 1) as [H1 | H1]; [left | right]; tauto.
Defined.

Definition binomial (n : Z) (p : vector) (g : rng) : option (list Z * rng) :=
  if (0 <=? n)%Z
  then if Forall_dec (fun x => 0 <= x <= 1) unit_interval_dec p
       then Some (map (fun _ => 0%Z) p, tick g)
       else None
  else None.

End Fixed.

Definition fixed_generator : RandomState.
Proof.
  refine {| rng := Fixed.rng;
            seed := Fixed.seed;
            normal := Fixed.normal;
            uniform := Fixed.uniform;
            dirichlet := Fixed.dirichlet;
            gumbel := Fixed.gumbel;
            binomial := Fixed.binomial |}.
  - intros z. unfold Fixed.seed.
    destruct (Z.leb_spec 0 z); destruct (Z.ltb_spec z (2 ^ 32)); simpl;
      split; intros Hz; try lia; try congruence; discriminate.
  - intros loc scale g. unfold Fixed.normal.
    destruct (Rle_dec 0 scale); split; intros H; auto; try discriminate;
      congruence.
  - intros loc scale g v g'. unfold Fixed.normal.
    destruct (Rle_dec 0 scale); intros H; inversion H; subst; reflexivity.
  - intros n g. simpl. apply repeat_length.
  - intros n g. simpl. apply Forall_forall. intros u Hu.
    apply repeat_spec in Hu. subst. lra.
  - intros alpha g. unfold Fixed.dirichlet.
    destruct (Forall_dec _ _ alpha); split; intros H; auto; try discriminate;
      congruence.
  - intros alpha g w g'. unfold Fixed.dirichlet.
    destruct (Forall_dec _ _ alpha); intros H; inversion H; subst.
    apply length_map.
  - intros alpha g w g'. unfold Fixed.dirichlet.
    destruct (Forall_dec _ _ alpha); intros H; inversion H; subst.
    apply Forall_map. apply Forall_forall. intros a _.
    destruct alpha as [| a0 alpha']; simpl length.
    + simpl. rewrite Rinv_0. lra.
    + left. apply Rinv_0_lt_compat. apply lt_0_INR. lia.
  - intros alpha g w g'. unfold Fixed.dirichlet.
    destruct (Forall_dec _ _ alpha); intros H Hne; inversion H; subst.
    assert (Hc : forall (c : R) (l : list R),
               Rsum (map (fun _ => c) l) = INR (length l) * c).
    { intros c l. induction l as [| x l IH].
      - simpl. lra.
      - change (Rsum (map (fun _ => c) (x :: l)))
          with (c + Rsum (map (fun _ => c) l)).
        rewrite IH. change (length (x :: l)) with (S (length l)).
        rewrite S_INR. lra. }
    rewrite Hc. apply Rinv_r.
    apply not_0_INR. destruct alpha; [congruence | discriminate].
  - intros n g. simpl. now rewrite length_map, length_seq.
  - intros n p g. unfold Fixed.binomial.
    destruct (Z.leb_spec 0 n).
    + destruct (Forall_dec _ _ p); split; intros Hp;
        try discriminate; try tauto; congruence.
    + split; intros Hp; [lia | congruence].
  - intros n p g v g'. unfold Fixed.binomial.
    destruct (0 <=? n)%Z; [| discriminate].
    destruct (Forall_dec _ _ p); intros H; inversion H; subst.
    apply length_map.
  - intros n p g v g'. unfold Fixed.binomial.
    destruct (Z.leb_spec 0 n); [| discriminate].
    destruct (Forall_dec _ _ p); intros H'; inversion H'; subst.
    apply Forall_map. apply Forall_forall. intros x _. lia.
Defined.

(** A reward function with every expected reward 1/2, one row per round
    and one column per category. *)
Definition half_reward : callable :=
  fun contexts action_context _ =>
    map (fun _ => map (fun _ => 1 / 2) action_context) contexts.

(** The scenario of the documentation: 4 actions, 2 embedding dimensions
    of 3 categories, binary rewards, [beta = 0], seed 42. *)
Definition example_config : config :=
  mkConfig 4 1 BINARY (Some half_reward) 1 None 0 3 5 2 1 0 0 0 42
    "synthetic_bandit_dataset_with_action_embed" [].

(** The same with all but one action deficient. *)
Definition deficient_config : config :=
  mkConfig 4 1 BINARY (Some half_reward) 1 None 1 3 5 2 1 0 0 3 42
    "synthetic_bandit_dataset_with_action_embed" [].



(** * Further definitions used by the statements *)

Section Contracts.

Context {RS : RandomState}.

(** The contract of the reward function on shapes: one row per round and
    one column per row of [action_context]. *)
Definition reward_shape (s : self_t) : Prop :=
  forall f, reward_function (cfg s) = Some f ->
  forall contexts action_context random_state,
    shape2 (f contexts action_context random_state)
      (length contexts) (length action_context).

(** [p_e_a[a, :, d]] is a distribution over the categories, for every
    action [a] and every dimension [d]. *)
Definition stochastic_embedding (s : self_t) : Prop :=
  forall a d,
    (a < Z.to_nat (n_actions (cfg s)))%nat ->
    (d < Z.to_nat (n_cat_dim (cfg s)))%nat ->
    (forall k, 0 <= get3 (p_e_a s) a k d) /\
    Rsum (map (fun k => get3 (p_e_a s) a k d)
              (seq 0 (Z.to_nat (n_cat_per_dim (cfg s))))) = 1.

(** Two instances that differ at most in their behavior policy: in
    [behavior_policy_function], [beta], [n_deficient_actions] and the
    [action_context] handed to the policy function. *)
Definition same_rewards (s1 s2 : self_t) : Prop :=
  random_ s1 = random_ s2 /\
  latent_cat_param s1 = latent_cat_param s2 /\
  p_e_a s1 = p_e_a s2 /\
  n_actions (cfg s1) = n_actions (cfg s2) /\
  dim_context (cfg s1) = dim_context (cfg s2) /\
  reward_function (cfg s1) = reward_function (cfg s2) /\
  n_cat_per_dim (cfg s1) = n_cat_per_dim (cfg s2) /\
  n_cat_dim (cfg s1) = n_cat_dim (cfg s2) /\
  n_irrelevant_cat_dim (cfg s1) = n_irrelevant_cat_dim (cfg s2) /\
  n_unobserved_cat_dim (cfg s1) = n_unobserved_cat_dim (cfg s2) /\
  random_state (cfg s1) = random_state (cfg s2).

(** Two instances that differ at most in their rewards: in
    [reward_function], [reward_type], [reward_std], [latent_cat_param] and
    the sizes only the expected rewards depend on.  Both hold a
    behavior-policy function, the same one. *)
Definition same_policy (s1 s2 : self_t) : Prop :=
  random_ s1 = random_ s2 /\
  p_e_a s1 = p_e_a s2 /\
  n_actions (cfg s1) = n_actions (cfg s2) /\
  dim_context (cfg s1) = dim_context (cfg s2) /\
  behavior_policy_function (cfg s1) = behavior_policy_function (cfg s2) /\
  (behavior_policy_function (cfg s1) <> None) /\
  beta (cfg s1) = beta (cfg s2) /\
  n_cat_dim (cfg s1) = n_cat_dim (cfg s2) /\
  n_irrelevant_cat_dim (cfg s1) = n_irrelevant_cat_dim (cfg s2) /\
  n_unobserved_cat_dim (cfg s1) = n_unobserved_cat_dim (cfg s2) /\
  n_deficient_actions (cfg s1) = n_deficient_actions (cfg s2) /\
  random_state (cfg s1) = random_state (cfg s2) /\
  action_context (cfg s1) = action_context (cfg s2).

End Contracts.

(** A generator like [fixed_generator] whose uniform draws are all 0.0,
    the least value numpy's [uniform] can return. *)
Definition zero_uniform_generator : RandomState.
Proof.
  refine {| rng := Fixed.rng;
            seed := Fixed.seed;
            normal := Fixed.normal;
            uniform := fun n g => (repeat 0 n, Fixed.tick g);
            dirichlet := Fixed.dirichlet;
            gumbel := Fixed.gumbel;
            binomial := Fixed.binomial;
            seed_defined := @seed_defined fixed_generator;
            normal_defined := @normal_defined fixed_generator;
            normal_length := @normal_length fixed_generator;
            dirichlet_defined := @dirichlet_defined fixed_generator;
            dirichlet_length := @dirichlet_length fixed_generator;
            dirichlet_nonneg := @dirichlet_nonneg fixed_generator;
            dirichlet_sum := @dirichlet_sum fixed_generator;
            gumbel_length := @gumbel_length fixed_generator;
            binomial_defined := @binomial_defined fixed_generator;
            binomial_length := @binomial_length fixed_generator;
            binomial_range := @binomial_range fixed_generator |}.
  - intros n g. simpl. apply repeat_length.
  - intros n g. simpl. apply Forall_forall. intros u Hu.
    apply repeat_spec in Hu. subst. lra.
Defined.

(** The instance as the base class's part of the construction leaves it
    under [fixed_generator] with the seed 42: the fields as given, the
    generator seeded, no array stored yet. *)
Definition raw_instance (c : config) : @self_t fixed_generator :=
  @mkSelf fixed_generator c (42%Z, O) [] [] [].

(** The configuration [example_config] with other embedding parameters. *)
Definition embedding_config (n_cat_per_dim latent_param_mat_dim n_cat_dim : Z)
  (p_e_a_param_std : R) (n_unobserved_cat_dim n_irrelevant_cat_dim : Z)
  : config :=
  mkConfig 4 1 BINARY (Some half_reward) 1 None 0 n_cat_per_dim
    latent_param_mat_dim n_cat_dim p_e_a_param_std n_unobserved_cat_dim
    n_irrelevant_cat_dim 0 42 "synthetic_bandit_dataset_with_action_embed" [].

(** A reward function with every expected reward 1/4, and a
    behavior-policy function with the same logit for each of 4 actions. *)
Definition quarter_reward : callable :=
  fun contexts action_context _ =>
    map (fun _ => map (fun _ => 1 / 4) action_context) contexts.

Definition flat_policy : callable :=
  fun contexts _ _ => map (fun _ => [0; 0; 0; 0]) contexts.

(** [deficient_config] with a behavior-policy function, one deficient
    action and a reward function to choose. *)
Definition policy_config (reward_function : callable) : config :=
  mkConfig 4 1 BINARY (Some reward_function) 1 (Some flat_policy) 1 3 5 2 1
    0 0 1 42 "synthetic_bandit_dataset_with_action_embed" [].

(** * Facts about the arrays *)

Section ArrayFacts.

Lemma length_tab {A : Type} (n : nat) (f : nat -> A) : length (tab n f) = n.
Proof. unfold tab. now rewrite length_map, length_seq. Qed.

Lemma nth_tab {A : Type} (n : nat) (f : nat -> A) (i : nat) (d : A) :
  (i < n)%nat -> nth i (tab n f) d = f i.
Proof.
  intros Hi. unfold tab.
  rewrite (nth_indep _ d (f O)) by now rewrite length_map, length_seq.
  rewrite (map_nth f (seq 0 n) O i), seq_nth; auto.
Qed.

Lemma In_tab {A : Type} (n : nat) (f : nat -> A) (x : A) :
  In x (tab n f) <-> exists i, (i < n)%nat /\ x = f i.
Proof.
  unfold tab. rewrite in_map_iff. split.
  - intros [i [<- Hi]]. apply in_seq in Hi. exists i. split; [lia | reflexivity].
  - intros [i [Hi ->]]. exists i. split; [reflexivity | apply in_seq; lia].
Qed.

Lemma length_upd {A : Type} (l : list A) (i : nat) (x : A) :
  length (upd l i x) = length l.
Proof.
  revert i. induction l as [| y l IH]; intros [| i]; simpl; auto.
Qed.

Lemma nth_upd_eq {A : Type} (l : list A) (i : nat) (x d : A) :
  (i < length l)%nat -> nth i (upd l i x) d = x.
Proof.
  revert i. induction l as [| y l IH]; intros [| i]; simpl; intros H;
    try lia; auto. apply IH. lia.
Qed.

Lemma nth_upd_neq {A : Type} (l : list A) (i j : nat) (x d : A) :
  i <> j -> nth j (upd l i x) d = nth j l d.
Proof.
  revert i j. induction l as [| y l IH]; intros [| i] [| j]; simpl; intros H;
    auto; try congruence.
Qed.

Lemma length_chunks {A : Type} (n m : nat) (l : list A) :
  length (chunks n m l) = n.
Proof.
  revert l. induction n as [| n IH]; intros l; simpl; auto.
Qed.

Lemma chunks_rows {A : Type} (n m : nat) (l : list A) :
  (n * m <= length l)%nat ->
  Forall (fun row => length row = m) (chunks n m l).
Proof.
  revert l. induction n as [| n IH]; intros l Hl; simpl; constructor.
  - rewrite length_firstn. simpl in Hl. lia.
  - apply IH. rewrite length_skipn. simpl in Hl. lia.
Qed.

Lemma reshape2_shape (n m : nat) (l : list R) :
  length l = (n * m)%nat -> shape2 (reshape2 n m l) n m.
Proof.
  intros Hl. split.
  - apply length_chunks.
  - apply chunks_rows. lia.
Qed.

Lemma reshape3_shape (n m k : nat) (l : list R) :
  length l = (n * m * k)%nat -> shape3 (reshape3 n m k l) n m k.
Proof.
  intros Hl. unfold reshape3. split.
  - now rewrite length_map, length_chunks.
  - apply Forall_map.
    assert (H : Forall (fun row : list R => length row = (m * k)%nat)
                  (chunks n (m * k) l)) by (apply chunks_rows; lia).
    eapply Forall_impl; [| exact H].
    intros row Hrow. simpl in Hrow. split.
    + apply length_chunks.
    + apply chunks_rows. lia.
Qed.

Lemma shape2_nth {A : Type} (m : list (list A)) (n k i : nat) :
  shape2 m n k -> (i < n)%nat -> length (nth i m []) = k.
Proof.
  intros [Hn Hrows] Hi. rewrite Forall_forall in Hrows.
  apply Hrows, nth_In. lia.
Qed.

Lemma shape3_nth {A : Type} (t : list (list (list A))) (n k d i : nat) :
  shape3 t n k d -> (i < n)%nat -> shape2 (nth i t []) k d.
Proof.
  intros [Hn Hrows] Hi. rewrite Forall_forall in Hrows.
  apply Hrows, nth_In. lia.
Qed.

Lemma zeros2_shape (n m : nat) : shape2 (zeros2 n m) n m.
Proof.
  split; unfold zeros2.
  - apply repeat_length.
  - apply Forall_forall. intros row Hrow. apply repeat_spec in Hrow.
    subst. apply repeat_length.
Qed.

(** Sums. *)

Lemma Rsum_app (u v : list R) : Rsum (u ++ v) = Rsum u + Rsum v.
Proof. induction u as [| x u IH]; simpl; [lra | rewrite IH; lra]. Qed.

Lemma Rsum_repeat_0 (n : nat) : Rsum (repeat 0 n) = 0.
Proof. induction n as [| n IH]; simpl; [reflexivity | rewrite IH; lra]. Qed.

Lemma Rsum_map_div (l : list R) (d : R) :
  Rsum (map (fun v => v / d) l) = Rsum l / d.
Proof.
  induction l as [| x l IH]; simpl.
  - unfold Rdiv. lra.
  - rewrite IH. unfold Rdiv. lra.
Qed.

Lemma Rsum_nonneg (l : list R) : Forall (fun x => 0 <= x) l -> 0 <= Rsum l.
Proof.
  induction 1 as [| x l Hx _ IH]; simpl; lra.
Qed.

Lemma Rsum_pos (l : list R) :
  l <> [] -> Forall (fun x => 0 < x) l -> 0 < Rsum l.
Proof.
  intros Hne H. destruct H as [| x l Hx Hl]; [congruence |].
  simpl. assert (0 <= Rsum l).
  { apply Rsum_nonneg. eapply Forall_impl; [| exact Hl]. intros; simpl in *; lra. }
  lra.
Qed.

End ArrayFacts.

(** * Facts about softmax *)

Section SoftmaxFacts.

Lemma softmax_row_length (x : vector) : length (softmax_row x) = length x.
Proof. unfold softmax_row. now rewrite !length_map. Qed.

Lemma softmax_numerator_pos (b : R) (x : vector) :
  Forall (fun v => 0 < v) (map (fun v => exp (v - b)) x).
Proof.
  apply Forall_map, Forall_forall. intros v _. apply exp_pos.
Qed.

Lemma softmax_denominator_pos (b : R) (x : vector) :
  x <> [] -> 0 < Rsum (map (fun v => exp (v - b)) x).
Proof.
  intros Hne. apply Rsum_pos.
  - destruct x; [congruence | discriminate].
  - apply softmax_numerator_pos.
Qed.

Lemma softmax_row_sum (x : vector) : x <> [] -> Rsum (softmax_row x) = 1.
Proof.
  intros Hne. unfold softmax_row. rewrite Rsum_map_div.
  pose proof (softmax_denominator_pos (Rmaxl x) x Hne) as Hpos.
  field. lra.
Qed.

Lemma softmax_row_pos (x : vector) : Forall (fun p => 0 < p) (softmax_row x).
Proof.
  destruct x as [| v x].
  - constructor.
  - unfold softmax_row.
    set (num := map (fun v0 => exp (v0 - Rmaxl (v :: x))) (v :: x)).
    assert (Hden : 0 < Rsum num)
      by (apply softmax_denominator_pos; discriminate).
    apply Forall_map. apply Forall_forall. intros p Hp.
    assert (0 < p).
    { pose proof (softmax_numerator_pos (Rmaxl (v :: x)) (v :: x)) as H.
      rewrite Forall_forall in H. now apply H. }
    now apply Rdiv_lt_0_compat.
Qed.


End SoftmaxFacts.

(** * Facts about the monad *)

Section MonadFacts.

Context {RS : RandomState}.

Lemma bind_inr_inv {A B : Type} (m : M A) (k : A -> M B) s b s' :
  bind m k s = (inr b, s') ->
  exists a s1, m s = (inr a, s1) /\ k a s1 = (inr b, s').
Proof.
  unfold bind. destruct (m s) as [[e | a] s1]; intros H.
  - discriminate.
  - now exists a, s1.
Qed.

Lemma bind_inr {A B : Type} (m : M A) (k : A -> M B) s a s1 :
  m s = (inr a, s1) -> bind m k s = k a s1.
Proof. unfold bind. now intros ->. Qed.

Lemma lift_inr_inv {A : Type} (r : result A) s a s' :
  lift r s = (inr a, s') -> r = inr a /\ s' = s.
Proof. unfold lift. intros H. inversion H. auto. Qed.

Lemma draw_inv {A : Type} (f : rng -> A * rng) s a s' :
  draw f s = (inr a, s') ->
  exists g, f (random_ s) = (a, g) /\ s' = set_random_ s g.
Proof.
  unfold draw. destruct (f (random_ s)) as [a1 g]. intros H.
  inversion H; subst. now exists g.
Qed.

Lemma draw_opt_inv {A : Type} (f : rng -> option (A * rng)) msg s a s' :
  draw_opt f msg s = (inr a, s') ->
  exists g, f (random_ s) = Some (a, g) /\ s' = set_random_ s g.
Proof.
  unfold draw_opt. destruct (f (random_ s)) as [[a1 g] |]; intros H.
  - inversion H; subst. now exists g.
  - discriminate.
Qed.

Lemma advances_refl s : advances s s.
Proof. unfold advances. now destruct s. Qed.

Lemma advances_trans s1 s2 s3 :
  advances s1 s2 -> advances s2 s3 -> advances s1 s3.
Proof.
  unfold advances. intros H12 H23. rewrite H23 at 1. rewrite H12 at 1.
  reflexivity.
Qed.

Lemma advances_set_random_ s g : advances s (set_random_ s g).
Proof. reflexivity. Qed.

Lemma advances_fields s s' :
  advances s s' <->
  cfg s' = cfg s /\ latent_cat_param s' = latent_cat_param s /\
  p_e_a s' = p_e_a s /\ action_context_reg s' = action_context_reg s.
Proof.
  unfold advances. split.
  - intros ->. simpl. auto.
  - destruct s, s'. simpl. intros (-> & -> & -> & ->). reflexivity.
Qed.

Lemma frames_ret {A : Type} (a : A) : frames (ret a).
Proof. intros s. apply advances_refl. Qed.

Lemma frames_raise {A : Type} (e : exn) : frames (@raise RS A e).
Proof. intros s. apply advances_refl. Qed.

Lemma frames_get : frames get.
Proof. intros s. apply advances_refl. Qed.

Lemma frames_lift {A : Type} (r : result A) : frames (lift r).
Proof. intros s. apply advances_refl. Qed.

Lemma frames_draw {A : Type} (f : rng -> A * rng) : frames (draw f).
Proof.
  intros s. unfold draw. destruct (f (random_ s)). apply advances_set_random_.
Qed.

Lemma frames_draw_opt {A : Type} (f : rng -> option (A * rng)) msg :
  frames (draw_opt f msg).
Proof.
  intros s. unfold draw_opt. destruct (f (random_ s)) as [[a g] |].
  - apply advances_set_random_.
  - apply advances_refl.
Qed.

Lemma frames_bind {A B : Type} (m : M A) (k : A -> M B) :
  frames m -> (forall a, frames (k a)) -> frames (bind m k).
Proof.
  intros Hm Hk s. unfold bind. specialize (Hm s).
  destruct (m s) as [[e | a] s1]; simpl in *; auto.
  eapply advances_trans; [exact Hm | apply Hk].
Qed.

Lemma frames_for_each {B : Type} (l : list nat) (body : B -> nat -> M B) b :
  (forall b d, frames (body b d)) -> frames (for_each l body b).
Proof.
  intros Hbody. revert b. induction l as [| d l IH]; intros b; simpl.
  - apply frames_ret.
  - apply frames_bind; auto.
Qed.

Lemma stateless_ret {A : Type} (a : A) : stateless (ret a).
Proof. intros s. reflexivity. Qed.

Lemma stateless_lift {A : Type} (r : result A) : stateless (lift r).
Proof. intros s. reflexivity. Qed.

Lemma stateless_bind {A B : Type} (m : M A) (k : A -> M B) :
  stateless m -> (forall a, stateless (k a)) -> stateless (bind m k).
Proof.
  intros Hm Hk s. unfold bind. specialize (Hm s).
  destruct (m s) as [[e | a] s1]; simpl in *; subst; auto.
  apply Hk.
Qed.

Lemma stateless_for_each {B : Type} (l : list nat) (body : B -> nat -> M B) b :
  (forall b d, stateless (body b d)) -> stateless (for_each l body b).
Proof.
  intros Hbody. revert b. induction l as [| d l IH]; intros b; simpl.
  - apply stateless_ret.
  - apply stateless_bind; auto.
Qed.

(** A loop whose body neither raises nor touches [self] is a fold. *)
Lemma for_each_pure {B : Type} (l : list nat) (body : B -> nat -> M B)
  (f : B -> nat -> B) b s :
  (forall b d, In d l -> body b d s = (inr (f b d), s)) ->
  for_each l body b s = (inr (fold_left f l b), s).
Proof.
  revert b. induction l as [| d l IH]; intros b H; simpl.
  - reflexivity.
  - rewrite (bind_inr _ _ _ _ _ (H b d (or_introl eq_refl))).
    apply IH. intros; apply H; now right.
Qed.

End MonadFacts.

Ltac frames_step :=
  first
    [ apply frames_ret | apply frames_raise | apply frames_get
    | apply frames_lift | apply frames_draw | apply frames_draw_opt
    | apply frames_for_each; intros
    | apply frames_bind; [| intros]
    | match goal with
      | |- frames (match ?x with _ => _ end) => destruct x
      end ].

Ltac splits := repeat match goal with |- _ /\ _ => split end.

Ltac monad_inv H :=
  lazymatch type of H with
  | bind _ _ _ = (inr _, _) =>
      let a := fresh "a" in
      let s1 := fresh "s" in
      let H1 := fresh "Hstep" in
      let H2 := fresh "Hrest" in
      apply bind_inr_inv in H; destruct H as (a & s1 & H1 & H2);
      cbv beta zeta in H2;
      monad_inv H2
  | _ => idtac
  end.

Section Frame.

Context {RS : RandomState}.

Lemma obtain_batch_body_frames (n_rounds : pyobj) :
  frames (obtain_batch_body n_rounds).
Proof.
  unfold obtain_batch_body. repeat (cbv zeta; frames_step).
Qed.

Lemma obtain_batch_bandit_feedback_frames (n_rounds : pyobj) :
  frames (obtain_batch_bandit_feedback n_rounds).
Proof.
  unfold obtain_batch_bandit_feedback.
  apply frames_bind; [apply obtain_batch_body_frames |].
  intros f. repeat frames_step.
Qed.

End Frame.

Section BodyInversion.

Context {RS : RandomState}.

Lemma q_loop_inv (self : self_t) (contexts : matrix) (l : list nat) init s q s' :
  for_each l
    (fun (q : tensor3 * tensor3) d =>
       match reward_function (cfg self) with
       | None => raise (TypeError "reward_function")
       | Some reward_function =>
           let q_x_e :=
             assign_axis2 (fst q) d
               (reward_function contexts (nth d (latent_cat_param self) [])
                  (random_state (cfg self) + Z.of_nat d)%Z) in
           let q_x_a :=
             assign_axis2 (snd q) d
               (matmul_T (slice_axis2 q_x_e d) (slice_axis2 (p_e_a self) d)) in
           ret (q_x_e, q_x_a)
       end) init s = (inr q, s') ->
  s' = s /\
  ((exists rf, reward_function (cfg self) = Some rf /\
               q = fold_left (q_step self rf contexts) l init) \/
   (reward_function (cfg self) = None /\ l = [] /\ q = init)).
Proof.
  destruct (reward_function (cfg self)) as [rf |] eqn:E.
  - rewrite (for_each_pure _ _ (q_step self rf contexts)) by reflexivity.
    intros H. inversion H; subst. split; [reflexivity | left].
    exists rf. auto.
  - destruct l as [| d l]; simpl.
    + intros H. inversion H; subst. auto.
    + unfold bind, raise. discriminate.
Qed.

Lemma check_scalar_inv x name lo z :
  check_scalar x name (Some lo) None = inr z -> x = PyInt z /\ (lo <= z)%Z.
Proof.
  destruct x as [z0 | | |]; simpl; try discriminate.
  destruct (Z.ltb_spec z0 lo) as [Hlt | Hge]; [discriminate |].
  intros H. inversion H; subst. auto.
Qed.

Lemma obtain_batch_body_inv x s f s' :
  obtain_batch_body x s = (inr f, s') ->
  let c := cfg s in
  let N := Z.to_nat (Frame.n_rounds f) in
  let A := Z.to_nat (n_actions c) in
  let K := Z.to_nat (n_cat_per_dim c) in
  let D := Z.to_nat (n_cat_dim c) in
  x = PyInt (Frame.n_rounds f) /\ (1 <= Frame.n_rounds f)%Z /\
  (exists z g, normal (zeros1 (N * Z.to_nat (dim_context c))) 1 (random_ s)
               = Some (z, g) /\
               Frame.contexts f = reshape2 N (Z.to_nat (dim_context c)) z) /\
  (exists g w g',
      dirichlet
        (fst (uniform (Z.to_nat (n_cat_dim c - n_irrelevant_cat_dim c)) g))
        (snd (uniform (Z.to_nat (n_cat_dim c - n_irrelevant_cat_dim c)) g))
      = Some (w, g') /\
      Frame.cat_dim_importance f =
        assign_from (zeros1 D) (Z.to_nat (n_irrelevant_cat_dim c)) w) /\
  (exists q,
      ((exists rf, reward_function c = Some rf /\
                   q = fold_left (q_step s rf (Frame.contexts f)) (seq 0 D)
                         (zeros3 N K D, zeros3 N A D)) \/
       (reward_function c = None /\ seq 0 D = [] /\
        q = (zeros3 N K D, zeros3 N A D))) /\
      Frame.q_x_e f = fst q /\
      Frame.q_x_a f = sum_axis2 (mul_axis2 (snd q) (Frame.cat_dim_importance f))) /\
  Frame.pi_b_logits f =
    match behavior_policy_function c with
    | None => Frame.q_x_a f
    | Some b => b (Frame.contexts f) (action_context c) (random_state c)
    end /\
  (if (0 <? n_deficient_actions c)%Z
   then exists g,
       let S := top_k (Z.to_nat (n_actions c - n_deficient_actions c))
                  (reshape2 N A (fst (gumbel (N * A) g))) in
       let idx := (tile_T N (Z.to_nat (n_actions c - n_deficient_actions c)), S) in
       Frame.supported_actions f = Some S /\
       Frame.pi_b f =
         assign_index2 (zeros_like (Frame.q_x_a f)) idx
           (softmax (scale2 (beta c) (index2 (Frame.pi_b_logits f) idx)))
   else Frame.supported_actions f = None /\
        Frame.pi_b f = softmax (scale2 (beta c) (Frame.pi_b_logits f))) /\
  sample_action_fast (Frame.pi_b f) (random_state c) = inr (Frame.actions f) /\
  (exists s1,
      for_each (seq 0 D)
        (fun action_embed d =>
           col <- lift (sample_action_fast
                          (gather_axis2 (p_e_a s) (Frame.actions f) d)
                          (Z.of_nat d)) ;;
           ret (assign_col action_embed d col))
        (repeat (repeat O D) N) s1 = (inr (Frame.action_embed f), s1)) /\
  Frame.expected_rewards_factual f =
    factual_loop N D (Frame.cat_dim_importance f) (Frame.q_x_e f)
      (Frame.action_embed f) /\
  match reward_type c with
  | BINARY =>
      exists g r,
        binomial 1 (Frame.expected_rewards_factual f) g = Some (r, random_ s') /\
        Frame.rewards f = IntRewards r
  | CONTINUOUS =>
      exists g r,
        normal (Frame.expected_rewards_factual f) (reward_std c) g
        = Some (r, random_ s') /\
        Frame.rewards f = FloatRewards r
  end.
Proof.
  intros H. unfold obtain_batch_body in H.
  monad_inv H.
  apply lift_inr_inv in Hstep. destruct Hstep as [Hn ->].
  apply check_scalar_inv in Hn. destruct Hn as [-> Hn].
  unfold get in Hstep0. inversion Hstep0; subst a0 s1. clear Hstep0.
  apply draw_opt_inv in Hstep1. destruct Hstep1 as (g1 & Hz & ->).
  apply draw_inv in Hstep2. destruct Hstep2 as (g2 & Hu & ->).
  apply draw_opt_inv in Hstep3. destruct Hstep3 as (g3 & Hw & ->).
  simpl in Hu, Hw.
  apply q_loop_inv in Hstep4. destruct Hstep4 as [-> Hq].
  apply lift_inr_inv in Hstep6. destruct Hstep6 as [Hact ->].
  assert (Hs8 : s8 = s6).
  { change s8 with (snd (@inr exn _ a7, s8)). rewrite <- Hstep7.
    apply stateless_for_each. intros b d.
    apply stateless_bind; [apply stateless_lift | intros; apply stateless_ret]. }
  subst s8.
  unfold ret in Hrest0. inversion Hrest0; subst f s9. clear Hrest0.
  cbn [Frame.n_rounds Frame.contexts Frame.cat_dim_importance Frame.q_x_e
       Frame.q_x_a Frame.pi_b_logits Frame.supported_actions Frame.pi_b
       Frame.actions Frame.action_embed Frame.expected_rewards_factual
       Frame.rewards].
  split; [reflexivity |]. split; [exact Hn |].
  split; [now exists a1, g1 |].
  split.
  { exists g1, a3, g3. rewrite Hu. simpl. auto. }
  split.
  { exists a4. auto. }
  split; [reflexivity |].
  split.
  { destruct (0 <? n_deficient_actions (cfg s))%Z.
    - monad_inv Hstep5. apply draw_inv in Hstep. destruct Hstep as (g4 & Hg & ->).
      unfold ret in Hrest. inversion Hrest; subst a5 s6.
      exists (set_random_ (set_random_ (set_random_ s g1) g2) g3).(random_).
      rewrite Hg. simpl. auto.
    - unfold ret in Hstep5. inversion Hstep5; subst a5 s6. auto. }
  split; [exact Hact |].
  split; [now exists s6 |].
  split; [reflexivity |].
  destruct (reward_type (cfg s)); monad_inv Hstep8;
    apply draw_opt_inv in Hstep; destruct Hstep as (g5 & Hr & ->);
    unfold ret in Hrest; inversion Hrest; subst;
    do 2 eexists; (split; [exact Hr | reflexivity]).
Qed.
End BodyInversion.

(** * Construction *)

Section ConstructionFacts.

Context {RS : RandomState}.
Variable logistic_reward_function : callable.
Variable linear_reward_function : callable.

Lemma repeat_shape2 {A : Type} (x : A) (n k : nat) :
  shape2 (repeat (repeat x k) n) n k.
Proof.
  split.
  - apply repeat_length.
  - apply Forall_forall. intros row Hrow. apply repeat_spec in Hrow.
    subst. apply repeat_length.
Qed.

Lemma assign_col_shape (m : list (list nat)) (d : nat) (col : list nat) n k :
  shape2 m n k -> shape2 (assign_col m d col) n k.
Proof.
  intros [Hn Hrows]. unfold assign_col. split.
  - now rewrite length_tab.
  - apply Forall_forall. intros row Hrow. apply In_tab in Hrow.
    destruct Hrow as (i & Hi & ->). rewrite length_upd.
    rewrite Forall_forall in Hrows. apply Hrows, nth_In. exact Hi.
Qed.

Lemma softmax3_shape (x : tensor3) (a k d : nat) :
  shape3 x a k d -> (1 <= k)%nat -> shape3 (softmax3 x) a k d.
Proof.
  intros [Ha Hx] Hk. unfold softmax3. split.
  - now rewrite length_map.
  - apply Forall_map. eapply Forall_impl; [| exact Hx].
    intros xa [Hlen Hrows]. simpl.
    assert (Hd : length (nth O xa []) = d).
    { rewrite Forall_forall in Hrows. apply Hrows, nth_In. lia. }
    rewrite Hlen, Hd. split.
    + apply length_tab.
    + apply Forall_forall. intros row Hrow. apply In_tab in Hrow.
      destruct Hrow as (j & _ & ->). apply length_tab.
Qed.

(** Along axis 1, [softmax3 x] is the softmax of the slice of [x]. *)
Lemma softmax3_axis1 (x : tensor3) (n k d a c : nat) :
  shape3 x n k d -> (a < n)%nat -> (c < d)%nat ->
  map (fun j => get3 (softmax3 x) a j c) (seq 0 k)
  = softmax_row (map (fun j => get3 x a j c) (seq 0 k)).
Proof.
  intros Hx Ha Hc.
  pose proof (shape3_nth _ _ _ _ _ Hx Ha) as [Hlen Hrows].
  destruct Hx as [Hn _].
  apply (nth_ext _ _ 0 0).
  - now rewrite softmax_row_length, !length_map.
  - intros j Hj. rewrite length_map, length_seq in Hj.
    rewrite (nth_indep _ 0 (get3 (softmax3 x) a O c))
      by now rewrite length_map, length_seq.
    rewrite (map_nth (fun j0 => get3 (softmax3 x) a j0 c)), seq_nth by exact Hj.
    simpl. unfold get3, softmax3.
    set (F := fun xa : list (list R) => _).
    change (@nil (list R)) with (F []) at 1.
    rewrite (map_nth F x [] a). unfold F.
    assert (Hd : length (nth O (nth a x []) []) = d).
    { rewrite Forall_forall in Hrows. apply Hrows, nth_In. lia. }
    rewrite Hlen, Hd.
    rewrite nth_tab by exact Hj. rewrite nth_tab by exact Hc.
    reflexivity.
Qed.

Lemma softmax3_axis1_sum (x : tensor3) (n k d a c : nat) :
  shape3 x n k d -> (1 <= k)%nat -> (a < n)%nat -> (c < d)%nat ->
  Rsum (map (fun j => get3 (softmax3 x) a j c) (seq 0 k)) = 1.
Proof.
  intros Hx Hk Ha Hc. rewrite (softmax3_axis1 x n k d) by assumption.
  apply softmax_row_sum. destruct k; [lia | discriminate].
Qed.

Lemma sample_action_fast_inv (m : matrix) (z : Z) (col : list nat) :
  sample_action_fast m z = inr col ->
  seed z <> None /\ length col = length m.
Proof.
  unfold sample_action_fast. destruct (seed z) as [g |]; [| discriminate].
  intros H. inversion H; subst. split; [discriminate |].
  rewrite length_map, length_combine, uniform_length. lia.
Qed.

Lemma action_context_loop_inv (l idx : list nat) s s' :
  for_each l
    (fun (_ : unit) d =>
       self <- get ;;
       col <- lift (sample_action_fast (gather_axis2 (p_e_a self) idx d)
                      (random_state (cfg self) + Z.of_nat d)%Z) ;;
       modify (fun s => set_action_context_reg s
                          (assign_col (action_context_reg s) d col)))
    tt s = (inr tt, s') ->
  cfg s' = cfg s /\ random_ s' = random_ s /\
  latent_cat_param s' = latent_cat_param s /\ p_e_a s' = p_e_a s /\
  (forall n k, shape2 (action_context_reg s) n k ->
               shape2 (action_context_reg s') n k) /\
  (forall d, In d l -> seed (random_state (cfg s) + Z.of_nat d)%Z <> None).
Proof.
  revert s. induction l as [| d l IH]; intros s H; simpl in H.
  - unfold ret in H. inversion H; subst. splits; auto.
  - monad_inv H. destruct a. monad_inv Hstep.
    unfold get in Hstep0. inversion Hstep0; subst a s1. clear Hstep0.
    apply lift_inr_inv in Hstep. destruct Hstep as [Hcol ->].
    unfold modify in Hrest1. inversion Hrest1; subst s0. clear Hrest1.
    apply IH in Hrest. simpl in Hrest.
    destruct Hrest as (Hc & Hr & Hl & Hp & Hsh & Hseed).
    splits; auto.
    + intros n k Hnk. apply Hsh. now apply assign_col_shape.
    + intros d' [<- | Hd'].
      * now apply sample_action_fast_inv in Hcol.
      * now apply Hseed.
Qed.

Lemma _define_action_embed_inv s s' :
  _define_action_embed s = (inr tt, s') ->
  let c := cfg s in
  let D := Z.to_nat (n_cat_dim c) in
  let K := Z.to_nat (n_cat_per_dim c) in
  let L := Z.to_nat (latent_param_mat_dim c) in
  let A := Z.to_nat (n_actions c) in
  cfg s' = c /\
  (exists z g x,
      normal (zeros1 (D * K * L)) 1 (random_ s) = Some (z, g) /\
      normal (zeros1 (A * K * D)) (p_e_a_param_std c) g = Some (x, random_ s') /\
      latent_cat_param s' = reshape3 D K L z /\
      p_e_a s' = softmax3 (reshape3 A K D x)) /\
  shape2 (action_context_reg s') A D /\
  (forall d, (d < D)%nat -> seed (random_state c + Z.of_nat d)%Z <> None).
Proof.
  intros H. unfold _define_action_embed in H. monad_inv H.
  unfold get in Hstep. inversion Hstep; subst a s0. clear Hstep.
  apply draw_opt_inv in Hstep0. destruct Hstep0 as (g1 & Hz & ->).
  unfold modify in Hstep1. inversion Hstep1; subst a1 s2. clear Hstep1.
  apply draw_opt_inv in Hstep2. destruct Hstep2 as (g2 & Hx & ->).
  unfold modify in Hstep3. inversion Hstep3; subst a3 s4. clear Hstep3.
  unfold modify in Hstep4. inversion Hstep4; subst a4 s5. clear Hstep4.
  destruct s' as [c' g' l' p' r']. 
  match goal with
  | H : for_each _ _ ?u _ = (inr ?v, _) |- _ => destruct v
  end.
  match goal with
  | H : for_each _ _ _ _ = _ |- _ => rename H into Hloop
  end.
  apply action_context_loop_inv in Hloop. simpl in Hloop, Hx.
  destruct Hloop as (Hc & Hr & Hl & Hp & Hsh & Hseed). subst.
  simpl. split; [reflexivity |]. split.
  - exists a0, g1, a2. auto.
  - split.
    + apply Hsh. apply repeat_shape2.
    + intros d Hd. apply Hseed. apply in_seq. lia.
Qed.

Lemma check_scalar_bounds z name lo hi v :
  check_scalar (PyInt z) name (Some lo) (Some hi) = inr v ->
  v = z /\ (lo <= z <= hi)%Z.
Proof.
  simpl. destruct (Z.ltb_spec z lo) as [Hlt | Hge]; [discriminate |].
  destruct (Z.ltb_spec hi z) as [Hlt | Hle]; [discriminate |].
  intros H. inversion H; subst. split; [reflexivity | lia].
Qed.

Lemma check_scalar_ok z name lo hi :
  (lo <= z <= hi)%Z ->
  check_scalar (PyInt z) name (Some lo) (Some hi) = inr z.
Proof.
  intros H. simpl.
  destruct (Z.ltb_spec z lo) as [Hlt | Hge]; [lia |].
  destruct (Z.ltb_spec hi z) as [Hlt | Hle]; [lia | reflexivity].
Qed.

Lemma check_scalar_min_ok z name lo :
  (lo <= z)%Z -> check_scalar (PyInt z) name (Some lo) None = inr z.
Proof.
  intros H. simpl.
  destruct (Z.ltb_spec z lo) as [Hlt | Hge]; [lia | reflexivity].
Qed.

Lemma base_post_init_inv c s :
  base_post_init c = inr s ->
  (2 <= n_actions c)%Z /\ (1 <= dim_context c)%Z /\
  (0 <= n_deficient_actions c <= n_actions c - 1)%Z /\
  (reward_type c = CONTINUOUS -> 0 < reward_std c) /\
  exists g, seed (random_state c) = Some g /\ s = mkSelf c g [] [] [].
Proof.
  unfold base_post_init.
  destruct (check_scalar (PyInt (n_actions c)) _ _ _) as [e | v1] eqn:E1;
    [discriminate |].
  destruct (check_scalar (PyInt (dim_context c)) _ _ _) as [e | v2] eqn:E2;
    [discriminate |].
  destruct (check_scalar (PyInt (n_deficient_actions c)) _ _ _) as [e | v3] eqn:E3;
    [discriminate |].
  apply check_scalar_inv in E1, E2. apply check_scalar_bounds in E3.
  destruct E1 as [E1' E1]. destruct E2 as [E2' E2]. destruct E3 as [_ [E3 E4]].
  inversion E1'; subst v1. inversion E2'; subst v2.
  intros H. splits; auto.
  - intros Hty. rewrite Hty in H. destruct (Rlt_dec 0 (reward_std c)); auto.
    discriminate.
  - destruct (match reward_type c with BINARY => _ | CONTINUOUS => _ end);
      [discriminate |].
    destruct (seed (random_state c)) as [g |]; [| discriminate].
    inversion H. now exists g.
Qed.

Local Abbreviation post_init :=
  (__post_init__ logistic_reward_function linear_reward_function).
Local Abbreviation internal :=
  (internal_config logistic_reward_function linear_reward_function).

Lemma check_scalar_real_inv x name lo v :
  check_scalar_real x name lo = inr v -> v = x /\ lo <= x.
Proof.
  unfold check_scalar_real. destruct (Rlt_dec x lo) as [Hlt | Hge];
    [discriminate |].
  intros H. inversion H; subst. split; [reflexivity | lra].
Qed.

Lemma post_init_inv c s :
  post_init c = inr s ->
  let D := Z.to_nat (n_cat_dim c + 1) in
  let K := Z.to_nat (n_cat_per_dim c) in
  let L := Z.to_nat (latent_param_mat_dim c) in
  let A := Z.to_nat (n_actions c) in
  valid_config c /\ cfg s = internal c /\
  (exists g0 z g x,
      seed (random_state c) = Some g0 /\
      normal (zeros1 (D * K * L)) 1 g0 = Some (z, g) /\
      normal (zeros1 (A * K * D)) (p_e_a_param_std c) g = Some (x, random_ s) /\
      latent_cat_param s = reshape3 D K L z /\
      p_e_a s = softmax3 (reshape3 A K D x)) /\
  shape2 (action_context_reg s) A D.
Proof.
  unfold __post_init__.
  destruct (base_post_init c) as [e | s0] eqn:Hbase; [discriminate |].
  destruct (post_init_body _ _ s0) as [[e | []] s1] eqn:Hbody; [discriminate |].
  intros H. inversion H; subst s1. clear H.
  apply base_post_init_inv in Hbase.
  destruct Hbase as (Hna & Hdc & Hnd & Hstd & g0 & Hseed & ->).
  unfold post_init_body in Hbody. monad_inv Hbody.
  unfold get in Hstep. inversion Hstep; subst a s0. clear Hstep.
  apply lift_inr_inv in Hstep0, Hstep1, Hstep2, Hstep3, Hstep4, Hstep5.
  destruct Hstep0 as [H0 ->]. destruct Hstep1 as [H1 ->].
  destruct Hstep2 as [H2 ->]. destruct Hstep3 as [H3 ->].
  destruct Hstep4 as [H4 ->]. destruct Hstep5 as [H5 ->].
  simpl cfg in *.
  apply check_scalar_inv in H0, H1, H2.
  apply check_scalar_real_inv in H3. apply check_scalar_bounds in H4, H5.
  destruct H0 as [E0 H0]. inversion E0; subst a0.
  destruct H1 as [E1 H1]. inversion E1; subst a1.
  destruct H2 as [E2 H2]. inversion E2; subst a2.
  destruct H3 as [_ H3]. destruct H4 as [_ H4]. destruct H5 as [_ H5].
  unfold modify in Hstep6, Hstep7, Hstep8.
  inversion Hstep6; subst a6 s7. inversion Hstep7; subst a7 s8.
  inversion Hstep8; subst a8 s9. clear Hstep6 Hstep7 Hstep8.
  destruct a9. apply _define_action_embed_inv in Hstep9.
  simpl in Hstep9.
  destruct Hstep9 as (Hcfg & (z & g & x & Hz & Hx & Hlat & Hp) & Hacr & Hseeds).
  unfold get in Hstep10. inversion Hstep10; subst a10 s11. clear Hstep10.
  rewrite Hcfg in Hrest0. simpl in Hrest0.
  assert (Hfinal : cfg s = internal c /\ random_ s = random_ s10 /\
                   latent_cat_param s = latent_cat_param s10 /\
                   p_e_a s = p_e_a s10 /\
                   action_context_reg s = action_context_reg s10).
  { unfold internal_config. simpl.
    destruct (reward_function c) as [rf |].
    - unfold ret in Hrest0. inversion Hrest0; subst s. splits; auto.
    - destruct (reward_type c); unfold modify in Hrest0;
        inversion Hrest0; subst s; simpl; rewrite Hcfg; splits; auto. }
  destruct Hfinal as (Hc & Hr & Hl & Hpe & Ha).
  split.
  { assert (Hlast : seed (random_state c + Z.of_nat (Z.to_nat (n_cat_dim c + 1) - 1))%Z
                    <> None) by (apply Hseeds; lia).
    apply seed_defined in Hlast.
    assert (Hfirst : seed (random_state c) <> None) by congruence.
    apply seed_defined in Hfirst.
    constructor; auto; try lia. }
  split; [exact Hc |].
  split.
  { exists g0, z, g, x. rewrite Hr, Hl, Hpe. auto. }
  rewrite Ha. exact Hacr.
Qed.

Lemma internal_config_fields c :
  n_actions (internal c) = n_actions c /\
  dim_context (internal c) = dim_context c /\
  reward_type (internal c) = reward_type c /\
  reward_std (internal c) = reward_std c /\
  behavior_policy_function (internal c) = behavior_policy_function c /\
  beta (internal c) = beta c /\
  n_cat_per_dim (internal c) = n_cat_per_dim c /\
  latent_param_mat_dim (internal c) = latent_param_mat_dim c /\
  n_cat_dim (internal c) = (n_cat_dim c + 1)%Z /\
  n_unobserved_cat_dim (internal c) = (n_unobserved_cat_dim c + 1)%Z /\
  n_irrelevant_cat_dim (internal c) = (n_irrelevant_cat_dim c + 1)%Z /\
  n_deficient_actions (internal c) = n_deficient_actions c /\
  random_state (internal c) = random_state c /\
  reward_function (internal c) <> None.
Proof.
  unfold internal_config. simpl.
  destruct (reward_function c) eqn:E; simpl; splits; auto;
    try (rewrite E); discriminate.
Qed.

Lemma post_init_invariant c s : post_init c = inr s -> Invariant s.
Proof.
  intros H. apply post_init_inv in H.
  destruct H as (Hv & Hc & (g0 & z & g & x & _ & Hz & Hx & Hl & Hp) & Ha).
  destruct Hv.
  destruct (internal_config_fields c)
    as (F1 & F2 & F3 & F4 & F5 & F6 & F7 & F8 & F9 & F10 & F11 & F12 & F13 & F14).
  apply normal_length in Hz, Hx. unfold zeros1 in Hz, Hx.
  rewrite repeat_length in Hz, Hx.
  constructor; rewrite Hc, ?F1, ?F2, ?F3, ?F4, ?F7, ?F8, ?F9, ?F10, ?F11, ?F12, ?F13;
    auto; try lia.
  - rewrite Hl. now apply reshape3_shape.
  - rewrite Hp. apply softmax3_shape; [now apply reshape3_shape | lia].
Qed.

(** The construction succeeds on every valid configuration. *)

Lemma seed_returns z : (0 <= z < 2 ^ 32)%Z -> exists g, seed z = Some g.
Proof.
  intros H. apply seed_defined in H. destruct (seed z) as [g |]; [| congruence].
  now exists g.
Qed.

Lemma normal_returns loc scale g :
  0 <= scale -> exists v g', normal loc scale g = Some (v, g').
Proof.
  intros H. apply (normal_defined loc scale g) in H.
  destruct (normal loc scale g) as [[v g'] |]; [| congruence].
  now exists v, g'.
Qed.

Lemma sample_action_fast_returns (m : matrix) (z : Z) :
  (0 <= z < 2 ^ 32)%Z -> exists col, sample_action_fast m z = inr col.
Proof.
  intros H. destruct (seed_returns z H) as [g Hg].
  unfold sample_action_fast. rewrite Hg. eauto.
Qed.

Lemma action_context_loop_returns (l idx : list nat) s :
  (forall d, In d l ->
             (0 <= random_state (cfg s) + Z.of_nat d < 2 ^ 32)%Z) ->
  exists s',
    for_each l
      (fun (_ : unit) d =>
         self <- get ;;
         col <- lift (sample_action_fast (gather_axis2 (p_e_a self) idx d)
                        (random_state (cfg self) + Z.of_nat d)%Z) ;;
         modify (fun s => set_action_context_reg s
                            (assign_col (action_context_reg s) d col)))
      tt s = (inr tt, s').
Proof.
  revert s. induction l as [| d l IH]; intros s H; simpl.
  - now exists s.
  - destruct (sample_action_fast_returns (gather_axis2 (p_e_a s) idx d)
                (random_state (cfg s) + Z.of_nat d)%Z) as [col Hcol].
    { apply H. now left. }
    unfold bind at 1 2 3. unfold get at 1. unfold lift at 1. rewrite Hcol.
    unfold modify at 1.
    apply IH. simpl. intros d' Hd'. apply H. now right.
Qed.

Lemma _define_action_embed_returns s :
  0 <= p_e_a_param_std (cfg s) ->
  (0 <= random_state (cfg s))%Z ->
  (random_state (cfg s) + n_cat_dim (cfg s) - 1 < 2 ^ 32)%Z ->
  exists s', _define_action_embed s = (inr tt, s').
Proof.
  intros Hstd Hlo Hhi. unfold _define_action_embed.
  unfold bind at 1. unfold get at 1.
  destruct (normal_returns
              (zeros1 (Z.to_nat (n_cat_dim (cfg s)) * Z.to_nat (n_cat_per_dim (cfg s))
                       * Z.to_nat (latent_param_mat_dim (cfg s)))) 1 (random_ s))
    as (z & g1 & Hz); [lra |].
  unfold bind at 1. unfold draw_opt at 1. rewrite Hz.
  unfold bind at 1. unfold modify at 1.
  destruct (normal_returns
              (zeros1 (Z.to_nat (n_actions (cfg s)) * Z.to_nat (n_cat_per_dim (cfg s))
                       * Z.to_nat (n_cat_dim (cfg s))))
              (p_e_a_param_std (cfg s)) g1)
    as (x & g2 & Hx); [exact Hstd |].
  unfold bind at 1. unfold draw_opt at 1. simpl random_. rewrite Hx.
  unfold bind at 1. unfold modify at 1.
  unfold bind at 1. unfold modify at 1.
  apply action_context_loop_returns. simpl.
  intros d Hd. apply in_seq in Hd. lia.
Qed.

Lemma post_init_returns c :
  valid_config c -> exists s, post_init c = inr s.
Proof.
  intros [Hna Hdc Hnd Hstd [Hlo Hhi] Hk Hl Hd Hp Hu Hi].
  unfold __post_init__, base_post_init.
  rewrite (check_scalar_min_ok _ _ _ Hna), (check_scalar_min_ok _ _ _ Hdc),
    (check_scalar_ok _ _ _ _ Hnd).
  assert (Hsd : match reward_type c with
                | CONTINUOUS => if Rlt_dec 0 (reward_std c) then false else true
                | BINARY => false
                end = false).
  { destruct (reward_type c); [reflexivity |].
    destruct (Rlt_dec 0 (reward_std c)) as [| Hn]; [reflexivity |].
    exfalso. apply Hn. now apply Hstd. }
  rewrite Hsd.
  destruct (seed_returns (random_state c)) as [g0 Hg0]; [lia |].
  rewrite Hg0.
  unfold post_init_body.
  unfold bind at 1. unfold get at 1. simpl cfg.
  unfold bind at 1. unfold lift at 1. rewrite (check_scalar_min_ok _ _ _ Hk).
  unfold bind at 1. unfold lift at 1. rewrite (check_scalar_min_ok _ _ _ Hl).
  unfold bind at 1. unfold lift at 1. rewrite (check_scalar_min_ok _ _ _ Hd).
  unfold bind at 1. unfold lift at 1. unfold check_scalar_real.
  destruct (Rlt_dec (p_e_a_param_std c) 0) as [Hneg | _]; [lra |].
  unfold bind at 1. unfold lift at 1. rewrite (check_scalar_ok _ _ _ _ Hu).
  unfold bind at 1. unfold lift at 1. rewrite (check_scalar_ok _ _ _ _ Hi).
  unfold bind at 1. unfold modify at 1.
  unfold bind at 1. unfold modify at 1.
  unfold bind at 1. unfold modify at 1.
  unfold bind at 1.
  match goal with
  | |- context [ _define_action_embed ?s0 ] =>
      destruct (_define_action_embed_returns s0) as [s1 Hs1];
      [simpl; auto | simpl; lia | simpl; lia |]
  end.
  rewrite Hs1.
  unfold bind at 1. unfold get at 1.
  destruct (reward_function (cfg s1)) as [rf |].
  - unfold ret. eauto.
  - destruct (reward_type (cfg s1)); unfold modify; eauto.
Qed.

End ConstructionFacts.

(** * The supported actions and the scatter of the probabilities *)

Section SupportFacts.

Lemma insert_by_perm (key : nat -> R) (i : nat) (l : list nat) :
  Permutation (insert_by key i l) (i :: l).
Proof.
  induction l as [| j l IH]; simpl.
  - apply Permutation_refl.
  - destruct (Rle_dec (key i) (key j)).
    + apply Permutation_refl.
    + eapply perm_trans; [apply perm_skip, IH | apply perm_swap].
Qed.

Lemma argsort_perm (row : vector) :
  Permutation (argsort row) (seq 0 (length row)).
Proof.
  unfold argsort. induction (seq 0 (length row)) as [| i l IH]; simpl.
  - apply perm_nil.
  - eapply perm_trans; [apply insert_by_perm | now apply perm_skip].
Qed.



(** The ranking of a round: the actions by decreasing Gumbel draw. *)
Lemma ranking_perm (row : vector) :
  Permutation (rev (argsort row)) (seq 0 (length row)).
Proof.
  eapply perm_trans; [apply Permutation_sym, Permutation_rev | apply argsort_perm].
Qed.

Lemma ranking_NoDup (row : vector) : NoDup (rev (argsort row)).
Proof.
  eapply Permutation_NoDup; [apply Permutation_sym, ranking_perm | apply seq_NoDup].
Qed.

Lemma ranking_length (row : vector) : length (rev (argsort row)) = length row.
Proof.
  rewrite (Permutation_length (ranking_perm row)). apply length_seq.
Qed.

Lemma ranking_In (row : vector) (a : nat) :
  In a (rev (argsort row)) <-> (a < length row)%nat.
Proof.
  split; intros H.
  - apply (Permutation_in _ (ranking_perm row)) in H. apply in_seq in H. lia.
  - apply (Permutation_in _ (Permutation_sym (ranking_perm row))).
    apply in_seq. lia.
Qed.

Lemma NoDup_firstn {A : Type} (k : nat) (l : list A) :
  NoDup l -> NoDup (firstn k l).
Proof.
  intros H. rewrite <- (firstn_skipn k l) in H.
  now apply NoDup_app_remove_r in H.
Qed.

Lemma NoDup_app_disjoint {A : Type} (l1 l2 : list A) (x : A) :
  NoDup (l1 ++ l2) -> In x l1 -> In x l2 -> False.
Proof.
  induction l1 as [| y l1 IH]; simpl; intros Hnd H1 H2; [contradiction |].
  inversion Hnd as [| ? ? Hy Hl]; subst.
  destruct H1 as [-> | H1].
  - apply Hy. apply in_or_app. now right.
  - now apply IH.
Qed.

Lemma NoDup_firstn_skipn {A : Type} (k : nat) (l : list A) (x : A) :
  NoDup l -> In x (firstn k l) -> In x (skipn k l) -> False.
Proof.
  intros Hnd. rewrite <- (firstn_skipn k l) in Hnd.
  now apply NoDup_app_disjoint.
Qed.

Lemma top_k_length (k : nat) (g : matrix) : length (top_k k g) = length g.
Proof. unfold top_k. apply length_map. Qed.

Lemma top_k_nth (k : nat) (g : matrix) (r : nat) :
  (r < length g)%nat ->
  nth r (top_k k g) [] = firstn k (rev (argsort (nth r g []))).
Proof.
  intros Hr. unfold top_k.
  rewrite (nth_indep _ [] (firstn k (rev (argsort []))))
    by now rewrite length_map.
  now rewrite (map_nth (fun row => firstn k (rev (argsort row)))).
Qed.

Lemma Rsum_perm (u v : list R) : Permutation u v -> Rsum u = Rsum v.
Proof.
  induction 1; simpl; lra.
Qed.

Lemma Rsum_map_zero {A : Type} (f : A -> R) (l : list A) :
  (forall x, In x l -> f x = 0) -> Rsum (map f l) = 0.
Proof.
  induction l as [| x l IH]; intros H; simpl.
  - reflexivity.
  - rewrite (H x (or_introl eq_refl)), IH; [lra |].
    intros y Hy. apply H. now right.
Qed.

(** Writes at single indices. *)

Lemma upd2_length (m : matrix) (i j : nat) (v : R) :
  length (upd2 m i j v) = length m.
Proof. unfold upd2. apply length_upd. Qed.

Lemma upd2_row_length (m : matrix) (i j r : nat) (v : R) :
  length (nth r (upd2 m i j v) []) = length (nth r m []).
Proof.
  unfold upd2. destruct (Nat.eq_dec i r) as [-> | Hne].
  - destruct (Nat.lt_ge_cases r (length m)) as [Hr | Hr].
    + rewrite nth_upd_eq by exact Hr. apply length_upd.
    + rewrite !nth_overflow; auto. now rewrite length_upd.
  - now rewrite nth_upd_neq.
Qed.

Lemma get2_upd2_other (m : matrix) (i j r a : nat) (v : R) :
  (i, j) <> (r, a) -> get2 (upd2 m i j v) r a = get2 m r a.
Proof.
  intros Hne. unfold get2, upd2. destruct (Nat.eq_dec i r) as [-> | Hir].
  - destruct (Nat.lt_ge_cases r (length m)) as [Hr | Hr].
    + rewrite nth_upd_eq by exact Hr. apply nth_upd_neq. congruence.
    + rewrite (nth_overflow (upd _ _ _)) by now rewrite length_upd.
      now rewrite (nth_overflow m).
  - now rewrite nth_upd_neq.
Qed.

Lemma get2_upd2_same (m : matrix) (r a : nat) (v : R) :
  (r < length m)%nat -> (a < length (nth r m []))%nat ->
  get2 (upd2 m r a v) r a = v.
Proof.
  intros Hr Ha. unfold get2, upd2. rewrite nth_upd_eq by exact Hr.
  now apply nth_upd_eq.
Qed.

Lemma writes_length (ts : list (nat * nat * R)) (m : matrix) :
  length (fold_left write ts m) = length m.
Proof.
  revert m. induction ts as [| t ts IH]; intros m; simpl; auto.
  rewrite IH. apply upd2_length.
Qed.

Lemma writes_row_length (ts : list (nat * nat * R)) (m : matrix) (r : nat) :
  length (nth r (fold_left write ts m) []) = length (nth r m []).
Proof.
  revert m. induction ts as [| t ts IH]; intros m; simpl; auto.
  rewrite IH. apply upd2_row_length.
Qed.

Lemma writes_absent (ts : list (nat * nat * R)) (m : matrix) (r a : nat) :
  (forall t, In t ts -> fst t <> (r, a)) ->
  get2 (fold_left write ts m) r a = get2 m r a.
Proof.
  revert m. induction ts as [| t ts IH]; intros m H; simpl; auto.
  rewrite IH by (intros; apply H; now right).
  apply get2_upd2_other. destruct t as [[i j] v]. simpl.
  apply (H (i, j, v)). now left.
Qed.

Lemma writes_present (ts : list (nat * nat * R)) (m : matrix) (r a : nat) (v : R) :
  (forall v1 v2, In (r, a, v1) ts -> In (r, a, v2) ts -> v1 = v2) ->
  In (r, a, v) ts ->
  (r < length m)%nat -> (a < length (nth r m []))%nat ->
  get2 (fold_left write ts m) r a = v.
Proof.
  revert m. induction ts as [| t ts IH]; intros m Hfun Hin Hr Ha; simpl.
  - contradiction.
  - destruct (in_dec (fun x y : nat * nat =>
                        match Nat.eq_dec (fst x) (fst y), Nat.eq_dec (snd x) (snd y) with
                        | left e1, left e2 =>
                            left (eq_trans (surjective_pairing x)
                                    (eq_trans (f_equal2 pair e1 e2)
                                       (eq_sym (surjective_pairing y))))
                        | right n, _ => right (fun e => n (f_equal fst e))
                        | _, right n => right (fun e => n (f_equal snd e))
                        end)
                (r, a) (map fst ts)) as [Hkey | Hkey].
    + apply in_map_iff in Hkey. destruct Hkey as ([[i j] v'] & Hk & Hin').
      simpl in Hk. inversion Hk; subst i j.
      assert (v' = v) by (apply Hfun; [now right | exact Hin]). subst v'.
      apply IH; auto.
      * intros v1 v2 H1 H2. apply Hfun; now right.
      * unfold write. now rewrite upd2_length.
      * unfold write. now rewrite upd2_row_length.
    + destruct Hin as [-> | Hin].
      * rewrite writes_absent.
        -- unfold write. simpl. now apply get2_upd2_same.
        -- intros t Ht Heq. apply Hkey. apply in_map_iff. now exists t.
      * exfalso. apply Hkey. apply in_map_iff. now exists (r, a, v).
Qed.

Lemma In_combine_nth {A B : Type} (l1 : list A) (l2 : list B) (x : A) (y : B)
  (d1 : A) (d2 : B) :
  In (x, y) (combine l1 l2) <->
  exists q, (q < length l1)%nat /\ (q < length l2)%nat /\
            nth q l1 d1 = x /\ nth q l2 d2 = y.
Proof.
  revert l2. induction l1 as [| a l1 IH]; intros [| b l2]; simpl.
  - split; [contradiction | intros (q & H & _); lia].
  - split; [contradiction | intros (q & H & _); lia].
  - split; [contradiction | intros (q & _ & H & _); lia].
  - split.
    + intros [H | H].
      * inversion H; subst. exists O. repeat split; lia.
      * apply IH in H. destruct H as (q & H1 & H2 & H3 & H4).
        exists (S q). repeat split; auto; lia.
    + intros ([| q] & H1 & H2 & H3 & H4).
      * left. congruence.
      * right. apply IH. exists q. repeat split; auto; lia.
Qed.

Lemma tile_T_nth (n k r : nat) :
  (r < n)%nat -> nth r (tile_T n k) [] = repeat r k.
Proof. intros Hr. unfold tile_T. now rewrite nth_tab. Qed.

Lemma nth_repeat_lt {A : Type} (x d : A) (k q : nat) :
  (q < k)%nat -> nth q (repeat x k) d = x.
Proof.
  revert q. induction k as [| k IH]; intros [| q] H; simpl; try lia; auto.
  apply IH. lia.
Qed.

Lemma nth_combine_lt {A B : Type} (l1 : list A) (l2 : list B) (q : nat)
  (d1 : A) (d2 : B) :
  (q < length l1)%nat -> (q < length l2)%nat ->
  nth q (combine l1 l2) (d1, d2) = (nth q l1 d1, nth q l2 d2).
Proof.
  revert l2 q. induction l1 as [| a l1 IH]; intros [| b l2] [| q]; simpl;
    intros H1 H2; try lia; auto.
  apply IH; lia.
Qed.

(** The entries that [m[(rows, cols)] = vals] writes, when [rows] is the
    tiled row index. *)
Lemma In_writes (n k : nat) (S : list (list nat)) (V : matrix) (i j : nat) (v : R) :
  length S = n -> length V = n ->
  (In (i, j, v)
      (concat (map (fun p => combine (combine (fst (fst p)) (snd (fst p))) (snd p))
                   (combine (combine (tile_T n k) S) V)))
   <->
   ((i < n)%nat /\
    exists q, (q < k)%nat /\ (q < length (nth i S []))%nat /\
              (q < length (nth i V []))%nat /\
              nth q (nth i S []) O = j /\ nth q (nth i V []) 0 = v)).
Proof.
  intros HS HV.
  assert (HT : length (tile_T n k) = n) by apply length_tab.
  rewrite in_concat. split.
  - intros (ts & Hts & Hin). apply in_map_iff in Hts.
    destruct Hts as ([[Tr Sr] Vr] & <- & Hp). simpl in Hin.
    apply (In_combine_nth _ _ _ _ ([], []) []) in Hp.
    destruct Hp as (r & Hr1 & Hr2 & Hr3 & Hr4).
    rewrite length_combine in Hr1.
    rewrite nth_combine_lt in Hr3 by lia.
    inversion Hr3; subst Tr Sr. subst Vr.
    assert (Hrn : (r < n)%nat) by lia.
    rewrite tile_T_nth in Hin by exact Hrn.
    apply (In_combine_nth _ _ _ _ (O, O) 0) in Hin.
    destruct Hin as (q & Hq1 & Hq2 & Hq3 & Hq4).
    rewrite length_combine, repeat_length in Hq1.
    rewrite nth_combine_lt in Hq3 by (rewrite ?repeat_length; lia).
    rewrite nth_repeat_lt in Hq3 by lia.
    inversion Hq3; subst i j.
    split; [exact Hrn |]. exists q. repeat split; auto; lia.
  - intros (Hi & q & Hq1 & Hq2 & Hq3 & Hq4 & Hq5).
    exists (combine (combine (repeat i k) (nth i S [])) (nth i V [])). split.
    + apply in_map_iff.
      exists (repeat i k, nth i S [], nth i V []). split; [reflexivity |].
      apply (In_combine_nth _ _ _ _ ([], []) []). exists i.
      rewrite length_combine, nth_combine_lt, tile_T_nth by lia.
      repeat split; auto; lia.
    + apply (In_combine_nth _ _ _ _ (O, O) 0). exists q.
      rewrite length_combine, repeat_length.
      rewrite nth_combine_lt by (rewrite ?repeat_length; lia).
      rewrite nth_repeat_lt by lia.
      repeat split; auto; try lia; congruence.
Qed.

(** What [pi_b[supported_actions_idx] = vals] leaves in [pi_b]. *)
Lemma assign_index2_spec (m : matrix) (n a k : nat) (S : list (list nat))
  (V : matrix) :
  shape2 m n a -> length S = n -> length V = n ->
  (forall r, (r < n)%nat ->
             NoDup (nth r S []) /\ length (nth r S []) = k /\
             length (nth r V []) = k /\
             (forall x, In x (nth r S []) -> (x < a)%nat)) ->
  let P := assign_index2 m (tile_T n k, S) V in
  shape2 P n a /\
  forall r, (r < n)%nat ->
    (forall q, (q < k)%nat ->
               get2 P r (nth q (nth r S []) O) = nth q (nth r V []) 0) /\
    (forall x, ~ In x (nth r S []) -> get2 P r x = get2 m r x).
Proof.
  intros [Hn Hrows] HS HV Hrow P. unfold P, assign_index2. simpl fst. simpl snd.
  fold write. split; [split |].
  - now rewrite writes_length.
  - apply Forall_forall. intros row Hrow'.
    apply (In_nth _ _ []) in Hrow'. destruct Hrow' as (r & Hr & <-).
    rewrite writes_length in Hr. rewrite writes_row_length.
    rewrite Forall_forall in Hrows. apply Hrows, nth_In. exact Hr.
  - intros r Hr. destruct (Hrow r Hr) as (Hnd & HlS & HlV & Hlt). split.
    + intros q Hq. apply writes_present.
      * intros v1 v2 H1 H2.
        apply (In_writes n k S V) in H1; auto.
        apply (In_writes n k S V) in H2; auto.
        destruct H1 as (_ & q1 & ? & ? & ? & E1 & <-).
        destruct H2 as (_ & q2 & ? & ? & ? & E2 & <-).
        assert (q1 = q2).
        { apply (proj1 (NoDup_nth (nth r S []) O) Hnd); auto. congruence. }
        now subst.
      * apply (In_writes n k S V); auto. split; [exact Hr |].
        exists q. repeat split; auto; lia.
      * lia.
      * rewrite Forall_forall in Hrows.
        rewrite (Hrows (nth r m [])) by (apply nth_In; lia).
        apply Hlt. apply nth_In. lia.
    + intros x Hx. apply writes_absent.
      intros [[i j] v] Ht Heq. simpl in Heq. inversion Heq; subst i j.
      apply (In_writes n k S V) in Ht; auto.
      destruct Ht as (_ & q & ? & ? & ? & E & _).
      apply Hx. rewrite <- E. now apply nth_In.
Qed.

End SupportFacts.

(** * Shapes of the arrays of a call *)

Section ShapeFacts.

Context {RS : RandomState}.

Lemma zeros3_shape (n k d : nat) : shape3 (zeros3 n k d) n k d.
Proof.
  split; unfold zeros3.
  - apply repeat_length.
  - apply Forall_forall. intros m Hm. apply repeat_spec in Hm. subst.
    apply zeros2_shape.
Qed.

Lemma assign_axis2_shape (t : tensor3) (j : nat) (m : matrix) (n k d : nat) :
  shape3 t n k d -> shape3 (assign_axis2 t j m) n k d.
Proof.
  intros Ht. unfold assign_axis2. destruct Ht as [Hn Hrows]. split.
  - now rewrite length_tab.
  - apply Forall_forall. intros ti Hti. apply In_tab in Hti.
    destruct Hti as (i & Hi & ->).
    assert (Hi' : shape2 (nth i t []) k d).
    { rewrite Forall_forall in Hrows. apply Hrows, nth_In. exact Hi. }
    destruct Hi' as [Hk Hcells]. split.
    + now rewrite length_tab.
    + apply Forall_forall. intros cell Hcell. apply In_tab in Hcell.
      destruct Hcell as (c & Hc & ->). rewrite length_upd.
      rewrite Forall_forall in Hcells. apply Hcells, nth_In. exact Hc.
Qed.

Lemma q_loop_shape (s : self_t) (rf : callable) (contexts : matrix)
  (l : list nat) (q : tensor3 * tensor3) (n k a d : nat) :
  shape3 (fst q) n k d -> shape3 (snd q) n a d ->
  shape3 (fst (fold_left (q_step s rf contexts) l q)) n k d /\
  shape3 (snd (fold_left (q_step s rf contexts) l q)) n a d.
Proof.
  revert q. induction l as [| j l IH]; intros q H1 H2; simpl; auto.
  apply IH; unfold q_step; simpl; now apply assign_axis2_shape.
Qed.

Lemma sum_mul_axis2_shape (t : tensor3) (w : vector) (n a d : nat) :
  shape3 t n a d -> shape2 (sum_axis2 (mul_axis2 t w)) n a.
Proof.
  intros [Hn Hrows]. unfold sum_axis2, mul_axis2. split.
  - now rewrite !length_map.
  - rewrite map_map. apply Forall_map. eapply Forall_impl; [| exact Hrows].
    intros m [Hm _]. simpl. now rewrite !length_map.
Qed.

Lemma softmax_shape (x : matrix) (n a : nat) :
  shape2 x n a -> shape2 (softmax x) n a.
Proof.
  intros [Hn Hrows]. unfold softmax. split.
  - now rewrite length_map.
  - apply Forall_map. eapply Forall_impl; [| exact Hrows].
    intros row Hrow. simpl. now rewrite softmax_row_length.
Qed.

Lemma scale2_shape (k : R) (x : matrix) (n a : nat) :
  shape2 x n a -> shape2 (scale2 k x) n a.
Proof.
  intros [Hn Hrows]. unfold scale2. split.
  - now rewrite length_map.
  - apply Forall_map. eapply Forall_impl; [| exact Hrows].
    intros row Hrow. simpl. now rewrite length_map.
Qed.

Lemma zeros_like_shape (x : matrix) (n a : nat) :
  shape2 x n a -> shape2 (zeros_like x) n a.
Proof.
  intros [Hn Hrows]. unfold zeros_like. split.
  - now rewrite length_map.
  - apply Forall_map. eapply Forall_impl; [| exact Hrows].
    intros row Hrow. simpl. unfold zeros1. now rewrite repeat_length.
Qed.

Lemma get2_zeros_like (x : matrix) (r a : nat) : get2 (zeros_like x) r a = 0.
Proof.
  unfold get2, zeros_like.
  destruct (Nat.lt_ge_cases r (length x)) as [Hr | Hr].
  - rewrite (nth_indep _ [] (zeros1 (length (@nil R))))
      by now rewrite length_map.
    rewrite (map_nth (fun row => zeros1 (length row))).
    unfold zeros1.
    destruct (Nat.lt_ge_cases a (length (nth r x []))) as [Ha | Ha].
    + now apply nth_repeat_lt.
    + apply nth_overflow. now rewrite repeat_length.
  - rewrite (nth_overflow (map _ _)) by now rewrite length_map.
    now destruct a.
Qed.

Lemma embed_loop_shape (p : tensor3) (actions : list nat) (l : list nat)
  (ae0 ae : list (list nat)) (s1 s2 : self_t) (n d : nat) :
  for_each l
    (fun action_embed j =>
       col <- lift (sample_action_fast (gather_axis2 p actions j) (Z.of_nat j)) ;;
       ret (assign_col action_embed j col))
    ae0 s1 = (inr ae, s2) ->
  shape2 ae0 n d -> shape2 ae n d.
Proof.
  revert ae0 s1. induction l as [| j l IH]; intros ae0 s1 H Hsh; simpl in H.
  - unfold ret in H. inversion H; subst. exact Hsh.
  - monad_inv H. monad_inv Hstep.
    unfold ret in Hrest0. inversion Hrest0; subst a s0. clear Hrest0.
    eapply IH; [exact Hrest |]. now apply assign_col_shape.
Qed.

Lemma add_vec_length (u v : vector) :
  length (add_vec u v) = Nat.min (length u) (length v).
Proof. unfold add_vec. now rewrite length_map, length_combine. Qed.

Lemma column_length (m : list (list nat)) (j : nat) :
  length (column m j) = length m.
Proof. unfold column. apply length_map. Qed.

Lemma factual_loop_length (n d : nat) (w : vector) (q : tensor3)
  (ae : list (list nat)) :
  length ae = n -> length (factual_loop n d w q ae) = n.
Proof.
  intros Hae. unfold factual_loop.
  assert (H : forall l acc, length acc = n ->
              length (fold_left
                        (fun erf j =>
                           add_vec erf
                             (scale1 (get1 w j)
                                (index_pairs3 q (seq 0 n) (column ae j) j)))
                        l acc) = n).
  { induction l as [| j l IH]; intros acc Hacc; simpl; auto.
    apply IH. rewrite add_vec_length. unfold scale1, index_pairs3.
    rewrite !length_map, length_combine, length_seq, column_length. lia. }
  apply H. unfold zeros1. apply repeat_length.
Qed.

Lemma assign_from_length (v w : vector) (start : nat) :
  (start <= length v)%nat -> length w = (length v - start)%nat ->
  length (assign_from v start w) = length v.
Proof.
  intros H1 H2. unfold assign_from. rewrite length_app, length_firstn. lia.
Qed.

Lemma assign_index2_shape (m : matrix) (idx : list (list nat) * list (list nat))
  (V : matrix) (n a : nat) :
  shape2 m n a -> shape2 (assign_index2 m idx V) n a.
Proof.
  intros [Hn Hrows]. unfold assign_index2. fold write. split.
  - now rewrite writes_length.
  - apply Forall_forall. intros row Hrow.
    apply (In_nth _ _ []) in Hrow. destruct Hrow as (r & Hr & <-).
    rewrite writes_length in Hr. rewrite writes_row_length.
    rewrite Forall_forall in Hrows. apply Hrows, nth_In. exact Hr.
Qed.

Lemma drop_axis1_shape {A : Type} (j : nat) (m : list (list A)) (n k : nat) :
  shape2 m n k -> shape2 (drop_axis1 j m) n (k - j).
Proof.
  intros [Hn Hrows]. unfold drop_axis1. split.
  - now rewrite length_map.
  - apply Forall_map. eapply Forall_impl; [| exact Hrows].
    intros row Hrow. simpl in *. rewrite length_skipn. lia.
Qed.

Lemma drop_axis2_shape (j : nat) (t : tensor3) (n k d : nat) :
  shape3 t n k d -> shape3 (drop_axis2 j t) n k (d - j).
Proof.
  intros [Hn Hrows]. unfold drop_axis2. split.
  - now rewrite length_map.
  - apply Forall_map. eapply Forall_impl; [| exact Hrows].
    intros m Hm. simpl. apply (drop_axis1_shape j m k d Hm).
Qed.

Lemma newaxis2_shape (m : matrix) (n a : nat) :
  shape2 m n a -> shape3 (newaxis2 m) n a 1.
Proof.
  intros [Hn Hrows]. unfold newaxis2. split.
  - now rewrite length_map.
  - apply Forall_map. eapply Forall_impl; [| exact Hrows].
    intros row Hrow. simpl in *. split.
    + now rewrite length_map.
    + apply Forall_map. apply Forall_forall. intros; reflexivity.
Qed.

(** The shapes of the local arrays when the call returns. *)
Lemma body_shapes x s f s' :
  Invariant s -> obtain_batch_body x s = (inr f, s') ->
  let c := cfg s in
  let N := Z.to_nat (Frame.n_rounds f) in
  let A := Z.to_nat (n_actions c) in
  let K := Z.to_nat (n_cat_per_dim c) in
  let D := Z.to_nat (n_cat_dim c) in
  shape2 (Frame.contexts f) N (Z.to_nat (dim_context c)) /\
  length (Frame.cat_dim_importance f) = D /\
  shape3 (Frame.q_x_e f) N K D /\
  shape2 (Frame.q_x_a f) N A /\
  (policy_contract s -> shape2 (Frame.pi_b_logits f) N A) /\
  (policy_contract s -> shape2 (Frame.pi_b f) N A) /\
  length (Frame.actions f) = length (Frame.pi_b f) /\
  shape2 (Frame.action_embed f) N D /\
  length (Frame.expected_rewards_factual f) = N /\
  match Frame.rewards f with
  | IntRewards r => length r = N
  | FloatRewards r => length r = N
  end.
Proof.
  intros Hinv H. cbv zeta. pose proof (obtain_batch_body_inv _ _ _ _ H) as Hb.
  cbv zeta in Hb.
  destruct Hb as (_ & Hn & (z & g & Hz & Hctx) & (g1 & w & g2 & Hw & Himp)
                  & (q & Hq & Hqe & Hqa) & Hlog & Hpi & Hact & (s1 & Hae)
                  & Herf & Hrew).
  destruct Hinv.
  set (N := Z.to_nat (Frame.n_rounds f)) in *.
  set (A := Z.to_nat (n_actions (cfg s))) in *.
  set (K := Z.to_nat (n_cat_per_dim (cfg s))) in *.
  set (D := Z.to_nat (n_cat_dim (cfg s))) in *.
  assert (Hctx_shape : shape2 (Frame.contexts f) N (Z.to_nat (dim_context (cfg s)))).
  { rewrite Hctx. apply reshape2_shape. apply normal_length in Hz.
    rewrite Hz. unfold zeros1. apply repeat_length. }
  assert (Himp_len : length (Frame.cat_dim_importance f) = D).
  { rewrite Himp. apply dirichlet_length in Hw. rewrite uniform_length in Hw.
    unfold zeros1. rewrite assign_from_length; rewrite repeat_length;
      unfold D; lia. }
  assert (Hq_shape : shape3 (fst q) N K D /\ shape3 (snd q) N A D).
  { destruct Hq as [(rf & _ & ->) | (_ & _ & ->)].
    - apply q_loop_shape; simpl; apply zeros3_shape.
    - simpl. split; apply zeros3_shape. }
  destruct Hq_shape as [Hqe_shape Hqa3_shape].
  assert (Hqa_shape : shape2 (Frame.q_x_a f) N A).
  { rewrite Hqa. now apply sum_mul_axis2_shape with (d := D). }
  assert (Hlog_shape : policy_contract s -> shape2 (Frame.pi_b_logits f) N A).
  { intros Hpc. rewrite Hlog.
    destruct (behavior_policy_function (cfg s)) as [b |] eqn:Eb; [| exact Hqa_shape].
    replace N with (length (Frame.contexts f)) by apply Hctx_shape.
    now apply Hpc. }
  assert (Hpi_shape : policy_contract s -> shape2 (Frame.pi_b f) N A).
  { intros Hpc. destruct (0 <? n_deficient_actions (cfg s))%Z.
    - destruct Hpi as (g3 & _ & ->).
      apply assign_index2_shape. now apply zeros_like_shape.
    - destruct Hpi as (_ & ->). apply softmax_shape, scale2_shape. auto. }
  assert (Hae_shape : shape2 (Frame.action_embed f) N D).
  { eapply embed_loop_shape; [exact Hae | apply repeat_shape2]. }
  splits; auto.
  - rewrite Hqe. exact Hqe_shape.
  - apply sample_action_fast_inv in Hact. apply Hact.
  - rewrite Herf. apply factual_loop_length. apply Hae_shape.
  - assert (Hlen : length (Frame.expected_rewards_factual f) = N).
    { rewrite Herf. apply factual_loop_length. apply Hae_shape. }
    destruct (reward_type (cfg s)); destruct Hrew as (g4 & r & Hr & ->).
    + apply binomial_length in Hr. congruence.
    + apply normal_length in Hr. congruence.
Qed.

End ShapeFacts.

(** * The behavior policy *)

Section PolicyFacts.

Lemma softmax_nth (x : matrix) (r : nat) :
  nth r (softmax x) [] = softmax_row (nth r x []).
Proof.
  unfold softmax. change (@nil R) with (softmax_row []) at 1.
  apply map_nth.
Qed.

Lemma scale2_nth (k : R) (x : matrix) (r : nat) :
  nth r (scale2 k x) [] = map (Rmult k) (nth r x []).
Proof.
  unfold scale2. change (@nil R) with (map (Rmult k) []) at 1.
  apply map_nth.
Qed.

Lemma map_combine_repeat {A B C : Type} (f : A -> B -> C) (x : A) (l : list B)
  (k : nat) :
  length l = k ->
  map (fun q => f (fst q) (snd q)) (combine (repeat x k) l) = map (f x) l.
Proof.
  revert k. induction l as [| y l IH]; intros [| k] H; simpl in *;
    try discriminate; auto.
  f_equal. apply IH. congruence.
Qed.

Lemma index2_tile_nth (m : matrix) (n k r : nat) (S : list (list nat)) :
  (r < n)%nat -> length S = n -> length (nth r S []) = k ->
  nth r (index2 m (tile_T n k, S)) [] = map (get2 m r) (nth r S []).
Proof.
  intros Hr HS Hk. unfold index2. simpl fst. simpl snd.
  set (F := fun p : list nat * list nat => _).
  rewrite (nth_indep _ [] (F ([], [])))
    by (rewrite length_map, length_combine; unfold tile_T;
        rewrite length_tab; lia).
  rewrite (map_nth F).
  rewrite nth_combine_lt by (unfold tile_T; rewrite ?length_tab; lia).
  rewrite tile_T_nth by exact Hr. unfold F. simpl fst. simpl snd.
  now apply (map_combine_repeat (get2 m)).
Qed.

Lemma index2_length (m : matrix) (n k : nat) (S : list (list nat)) :
  length S = n -> length (index2 m (tile_T n k, S)) = n.
Proof.
  intros HS. unfold index2. simpl.
  rewrite length_map, length_combine. unfold tile_T. rewrite length_tab. lia.
Qed.


Lemma row_as_map (m : matrix) (n a r : nat) :
  shape2 m n a -> (r < n)%nat -> nth r m [] = map (get2 m r) (seq 0 a).
Proof.
  intros Hm Hr. pose proof (shape2_nth _ _ _ _ Hm Hr) as Hlen.
  apply (nth_ext _ _ 0 0).
  - now rewrite length_map, length_seq.
  - intros i Hi. rewrite Hlen in Hi.
    rewrite (nth_indep (map (get2 m r) (seq 0 a)) 0 (get2 m r O))
      by now rewrite length_map, length_seq.
    now rewrite (map_nth (get2 m r)), seq_nth.
Qed.

(** The deficient-support branch, round by round: [g] holds the Gumbel
    draws, [k] is the number of supported actions. *)
Lemma deficient_row_spec (g logits zero : matrix) (n a k : nat) (b : R) (r : nat) :
  shape2 g n a -> shape2 zero n a -> (k <= a)%nat -> (r < n)%nat ->
  (forall i j, get2 zero i j = 0) ->
  let S := top_k k g in
  let idx := (tile_T n k, S) in
  let P := assign_index2 zero idx (softmax (scale2 b (index2 logits idx))) in
  let ranking := rev (argsort (nth r g [])) in
  nth r S [] = firstn k ranking /\
  NoDup (nth r S []) /\ length (nth r S []) = k /\
  (forall x, In x (nth r S []) -> (x < a)%nat) /\
  map (get2 P r) (nth r S [])
  = softmax_row (map (fun x => b * get2 logits r x) (nth r S [])) /\
  (forall x, ~ In x (nth r S []) -> get2 P r x = 0).
Proof.
  intros Hg Hzero Hk Hr Hz S idx P ranking.
  assert (HSlen : length S = n) by (unfold S; rewrite top_k_length; apply Hg).
  assert (Hrow : forall i, (i < n)%nat ->
            nth i S [] = firstn k (rev (argsort (nth i g []))) /\
            NoDup (nth i S []) /\ length (nth i S []) = k /\
            (forall x, In x (nth i S []) -> (x < a)%nat)).
  { intros i Hi.
    assert (Hgi : length (nth i g []) = a) by (eapply shape2_nth; eauto).
    assert (E : nth i S [] = firstn k (rev (argsort (nth i g [])))).
    { unfold S. apply top_k_nth. destruct Hg as [-> _]. exact Hi. }
    rewrite E. splits; auto.
    - apply NoDup_firstn, ranking_NoDup.
    - rewrite length_firstn, ranking_length. lia.
    - intros x Hx. rewrite <- Hgi. apply ranking_In.
      rewrite <- (firstn_skipn k (rev (argsort (nth i g [])))).
      apply in_or_app. now left. }
  set (V := softmax (scale2 b (index2 logits idx))).
  assert (HVlen : length V = n).
  { unfold V, softmax, scale2. rewrite !length_map. now apply index2_length. }
  assert (HVrow : forall i, (i < n)%nat ->
            nth i V [] = softmax_row (map (fun x => b * get2 logits i x) (nth i S []))).
  { intros i Hi. unfold V. rewrite softmax_nth, scale2_nth.
    unfold idx. rewrite (index2_tile_nth logits n k i S) by (auto; apply Hrow; auto).
    now rewrite map_map. }
  destruct (assign_index2_spec zero n a k S V Hzero HSlen HVlen) as [_ Hspec].
  { intros i Hi. destruct (Hrow i Hi) as (_ & H1 & H2 & H3).
    splits; auto. rewrite HVrow by exact Hi.
    now rewrite softmax_row_length, length_map. }
  destruct (Hrow r Hr) as (E & Hnd & Hlen & Hlt).
  destruct (Hspec r Hr) as [Hin Hout].
  splits; auto.
  - rewrite <- HVrow by exact Hr.
    apply (nth_ext _ _ 0 0).
    + rewrite length_map, HVrow by exact Hr.
      now rewrite softmax_row_length, length_map.
    + intros q Hq. rewrite length_map in Hq.
      rewrite (nth_indep _ 0 (get2 P r O)) by now rewrite length_map.
      rewrite (map_nth (get2 P r)). apply Hin. lia.
  - intros x Hx. unfold P, V in *. rewrite Hout by exact Hx. apply Hz.
Qed.

(** The probabilities of a round sum to 1 in the deficient-support
    branch. *)
Lemma deficient_row_sum (g logits zero : matrix) (n a k : nat) (b : R) (r : nat) :
  shape2 g n a -> shape2 zero n a -> (1 <= k <= a)%nat -> (r < n)%nat ->
  (forall i j, get2 zero i j = 0) ->
  let idx := (tile_T n k, top_k k g) in
  let P := assign_index2 zero idx (softmax (scale2 b (index2 logits idx))) in
  Rsum (map (get2 P r) (seq 0 a)) = 1.
Proof.
  intros Hg Hzero Hk Hr Hz idx P.
  destruct (deficient_row_spec g logits zero n a k b r) as
    (E & Hnd & Hlen & Hlt & Hin & Hout); auto; try lia.
  fold idx in Hin, Hout. fold P in Hin, Hout.
  assert (Hgr : length (nth r g []) = a) by (eapply shape2_nth; eauto).
  set (ranking := rev (argsort (nth r g []))) in *.
  assert (Hperm : Permutation (seq 0 a) ranking).
  { rewrite <- Hgr. apply Permutation_sym, ranking_perm. }
  rewrite (Rsum_perm _ _ (Permutation_map (get2 P r) Hperm)).
  rewrite <- (firstn_skipn k ranking), map_app, Rsum_app.
  rewrite <- E, Hin.
  rewrite softmax_row_sum.
  - rewrite Rsum_map_zero; [lra |].
    intros x Hx. apply Hout. rewrite E. intros Hx'.
    eapply (NoDup_firstn_skipn k ranking x); eauto. apply ranking_NoDup.
  - destruct (nth r (top_k k g) []) as [| y l]; simpl in *; [lia | discriminate].
Qed.

(** Sampling from a row that puts all the probability on one action. *)

Lemma first_true_one_hot (row : vector) (a : nat) (u acc : R) :
  acc = 0 -> (a < length row)%nat -> nth a row 0 = 1 ->
  (forall i, i <> a -> nth i row 0 = 0) -> 0 <= u < 1 ->
  first_true (map (fun c => if Rlt_dec u c then true else false)
                  (cumsum_from acc row)) = Some a.
Proof.
  revert a acc. induction row as [| x row IH]; intros a acc Hacc Ha H1 H0 Hu;
    simpl in Ha; [lia |].
  destruct a as [| a]; simpl in *.
  - subst. destruct (Rlt_dec u (0 + 1)) as [_ | Hn]; [reflexivity | lra].
  - assert (Hx : x = 0) by (apply (H0 O); lia). subst.
    destruct (Rlt_dec u (0 + 0)) as [Hlt | _]; [lra |].
    rewrite (IH a (0 + 0)); auto; try lra; try lia.
    intros i Hi. apply (H0 (S i)). lia.
Qed.

Lemma sample_row_one_hot (row : vector) (a : nat) (u : R) :
  (a < length row)%nat -> nth a row 0 = 1 ->
  (forall i, i <> a -> nth i row 0 = 0) -> 0 <= u < 1 ->
  sample_row row u = a.
Proof.
  intros Ha H1 H0 Hu. unfold sample_row, argmax_bool, cumsum.
  now rewrite (first_true_one_hot row a u 0).
Qed.

Lemma sample_action_fast_nth {RS : RandomState} (m : matrix) (z : Z)
  (col : list nat) (r : nat) :
  sample_action_fast m z = inr col -> (r < length m)%nat ->
  exists u, 0 <= u < 1 /\ nth r col O = sample_row (nth r m []) u.
Proof.
  unfold sample_action_fast. destruct (seed z) as [g |]; [| discriminate].
  intros H Hr. inversion H; subst. clear H.
  set (us := fst (uniform (length m) g)).
  assert (Hlen : length us = length m) by apply uniform_length.
  exists (nth r us 0). split.
  - pose proof (uniform_range (length m) g) as Hrange. fold us in Hrange.
    rewrite Forall_forall in Hrange. apply Hrange. apply nth_In. lia.
  - set (F := fun p : list R * R => sample_row (fst p) (snd p)).
    rewrite (nth_indep _ O (F ([], 0)))
      by (rewrite length_map, length_combine; lia).
    rewrite (map_nth F). rewrite nth_combine_lt by lia. reflexivity.
Qed.


End PolicyFacts.

(** * Values of the expected-reward arrays *)

Section ValueFacts.

Context {RS : RandomState}.

Lemma get3_zeros3 (n k d r c j : nat) : get3 (zeros3 n k d) r c j = 0.
Proof.
  unfold get3, zeros3, zeros2, zeros1.
  destruct (Nat.lt_ge_cases r n) as [Hr | Hr].
  - rewrite nth_repeat_lt by exact Hr.
    destruct (Nat.lt_ge_cases c k) as [Hc | Hc].
    + rewrite nth_repeat_lt by exact Hc.
      destruct (Nat.lt_ge_cases j d) as [Hj | Hj].
      * now apply nth_repeat_lt.
      * apply nth_overflow. now rewrite repeat_length.
    + rewrite (nth_overflow (repeat (repeat 0 d) k)) by now rewrite repeat_length.
      now destruct j.
  - rewrite (nth_overflow (repeat _ n)) by now rewrite repeat_length.
    destruct c; now destruct j.
Qed.

Lemma get3_overflow_row (t : tensor3) (r c j : nat) :
  (length t <= r)%nat -> get3 t r c j = 0.
Proof.
  intros H. unfold get3. rewrite (nth_overflow t) by exact H.
  destruct c; now destruct j.
Qed.

Lemma get3_overflow_col (t : tensor3) (r c j : nat) :
  (length (nth r t []) <= c)%nat -> get3 t r c j = 0.
Proof.
  intros H. unfold get3. rewrite (nth_overflow (nth r t [])) by exact H.
  now destruct j.
Qed.

Lemma get3_assign_axis2 (t : tensor3) (m : matrix) (n k d r c j i : nat) :
  shape3 t n k d -> (r < n)%nat -> (c < k)%nat ->
  get3 (assign_axis2 t j m) r c i =
  if (i =? j)%nat && (i <? d)%nat then get2 m r c else get3 t r c i.
Proof.
  intros Ht Hr Hc.
  pose proof (shape3_nth _ _ _ _ _ Ht Hr) as Hrow.
  pose proof (shape2_nth _ _ _ _ Hrow Hc) as Hcell.
  destruct Ht as [Hn _]. destruct Hrow as [Hk _].
  unfold get3, assign_axis2.
  rewrite nth_tab by lia. cbv zeta. rewrite nth_tab by lia.
  destruct (Nat.eqb_spec i j) as [-> | Hne]; simpl.
  - destruct (Nat.ltb_spec j d) as [Hj | Hj].
    + apply nth_upd_eq. lia.
    + rewrite !nth_overflow; auto; rewrite ?length_upd; lia.
  - apply nth_upd_neq. auto.
Qed.

Lemma combine_as_map {A B : Type} (u : list A) (v : list B) (k : nat)
  (da : A) (db : B) :
  length u = k -> length v = k ->
  combine u v = map (fun c => (nth c u da, nth c v db)) (seq 0 k).
Proof.
  intros Hu Hv. apply (nth_ext _ _ (da, db) (da, db)).
  - rewrite length_combine, length_map, length_seq. lia.
  - intros i Hi. rewrite length_combine in Hi.
    rewrite nth_combine_lt by lia.
    rewrite (nth_indep (map _ _) (da, db) (nth O u da, nth O v db))
      by (rewrite length_map, length_seq; lia).
    rewrite (map_nth (fun c => (nth c u da, nth c v db))).
    rewrite seq_nth by lia. reflexivity.
Qed.

Lemma slice_axis2_nth (t : tensor3) (j r : nat) :
  nth r (slice_axis2 t j) [] = map (fun cell => nth j cell 0) (nth r t []).
Proof.
  unfold slice_axis2.
  change (@nil R) with (map (fun cell : list R => nth j cell 0) []) at 1.
  apply map_nth.
Qed.

Lemma matmul_T_slice (t p : tensor3) (n a k d j r x : nat) :
  shape3 t n k d -> shape3 p a k d -> (r < n)%nat -> (x < a)%nat ->
  get2 (matmul_T (slice_axis2 t j) (slice_axis2 p j)) r x
  = Rsum (map (fun c => get3 t r c j * get3 p x c j) (seq 0 k)).
Proof.
  intros Ht Hp Hr Hx.
  pose proof (shape3_nth _ _ _ _ _ Ht Hr) as [Htr _].
  pose proof (shape3_nth _ _ _ _ _ Hp Hx) as [Hpx _].
  destruct Ht as [Hn _]. destruct Hp as [Ha _].
  unfold get2, matmul_T.
  set (F := fun ra : list R => map (fun rb => dot ra rb) (slice_axis2 p j)).
  rewrite (nth_indep _ [] (F [])) by (unfold slice_axis2; rewrite !length_map; lia).
  rewrite (map_nth F). unfold F.
  set (G := fun rb : list R => dot (nth r (slice_axis2 t j) []) rb).
  rewrite (nth_indep _ 0 (G [])) by (unfold slice_axis2; rewrite !length_map; lia).
  rewrite (map_nth G). unfold G.
  rewrite !slice_axis2_nth. unfold dot.
  rewrite (combine_as_map _ _ k 0 0) by (rewrite length_map; assumption).
  rewrite map_map. f_equal. apply map_ext_in. intros c Hc. simpl.
  apply in_seq in Hc.
  rewrite (nth_indep (map _ (nth r t [])) 0 (nth j [] 0))
    by (rewrite length_map; lia).
  rewrite (nth_indep (map _ (nth x p [])) 0 (nth j [] 0))
    by (rewrite length_map; lia).
  rewrite !(map_nth (fun cell : list R => nth j cell 0)).
  reflexivity.
Qed.

(** The entries of [q_x_e] are those the reward function returns. *)
Lemma q_loop_values (s : self_t) (rf : callable) (contexts : matrix)
  (n k a d : nat) (l : list nat) (q : tensor3 * tensor3) :
  shape3 (fst q) n k d -> shape3 (snd q) n a d ->
  shape3 (p_e_a s) a k d ->
  NoDup l -> (forall j, In j l -> (j < d)%nat) ->
  let qf := fold_left (q_step s rf contexts) l q in
  forall r j, (r < n)%nat ->
    (forall c, (c < k)%nat ->
       get3 (fst qf) r c j =
       if in_dec Nat.eq_dec j l
       then get2 (rf contexts (nth j (latent_cat_param s) [])
                    (random_state (cfg s) + Z.of_nat j)%Z) r c
       else get3 (fst q) r c j) /\
    (forall x, (x < a)%nat ->
       get3 (snd qf) r x j =
       if in_dec Nat.eq_dec j l
       then Rsum (map (fun c => get3 (fst qf) r c j * get3 (p_e_a s) x c j)
                      (seq 0 k))
       else get3 (snd q) r x j).
Proof.
  intros H1 H2 Hp Hnd Hlt. revert q H1 H2.
  induction l as [| j0 l IH]; intros q H1 H2 qf r j Hr.
  - simpl. auto.
  - inversion Hnd as [| ? ? Hj0 Hnd']; subst.
    assert (Hlt' : forall j, In j l -> (j < d)%nat) by (intros; apply Hlt; now right).
    assert (Hj0d : (j0 < d)%nat) by (apply Hlt; now left).
    set (q1 := q_step s rf contexts q j0).
    assert (S1 : shape3 (fst q1) n k d) by (apply assign_axis2_shape; auto).
    assert (S2 : shape3 (snd q1) n a d) by (apply assign_axis2_shape; auto).
    specialize (IH Hnd' Hlt' q1 S1 S2 r j Hr).
    change qf with (fold_left (q_step s rf contexts) l q1).
    destruct IH as [IHe IHa].
    split.
    + intros c Hc. rewrite (IHe c Hc).
      destruct (in_dec Nat.eq_dec j l) as [Hin | Hnin].
      * destruct (in_dec Nat.eq_dec j (j0 :: l)) as [_ | Hn]; [reflexivity |].
        exfalso. apply Hn. now right.
      * unfold q1, q_step. simpl fst.
        rewrite (get3_assign_axis2 _ _ n k d) by auto.
        destruct (in_dec Nat.eq_dec j (j0 :: l)) as [Hin | Hn].
        -- destruct Hin as [<- | Hin]; [| contradiction].
           rewrite Nat.eqb_refl. simpl.
           destruct (Nat.ltb_spec j0 d); [reflexivity | lia].
        -- destruct (Nat.eqb_spec j j0) as [-> | Hne]; simpl; auto.
           exfalso. apply Hn. now left.
    + intros x Hx. rewrite (IHa x Hx).
      destruct (in_dec Nat.eq_dec j l) as [Hin | Hnin].
      * destruct (in_dec Nat.eq_dec j (j0 :: l)) as [_ | Hn]; [reflexivity |].
        exfalso. apply Hn. now right.
      * unfold q1 at 1. unfold q_step. simpl snd.
        rewrite (get3_assign_axis2 _ _ n a d) by auto.
        destruct (in_dec Nat.eq_dec j (j0 :: l)) as [Hin | Hn].
        -- destruct Hin as [<- | Hin]; [| contradiction].
           rewrite Nat.eqb_refl. simpl.
           destruct (Nat.ltb_spec j0 d) as [_ | ?]; [| lia].
           rewrite (matmul_T_slice _ _ n a k d) by auto.
           f_equal. apply map_ext_in. intros c Hc. apply in_seq in Hc.
           f_equal. symmetry. apply IHe. lia.
        -- destruct (Nat.eqb_spec j j0) as [-> | Hne]; simpl; auto.
           exfalso. apply Hn. now left.
Qed.

Lemma Rsum_ext_in {A : Type} (f g : A -> R) (l : list A) :
  (forall x, In x l -> f x = g x) -> Rsum (map f l) = Rsum (map g l).
Proof. intros H. f_equal. now apply map_ext_in. Qed.

(** The aggregated expected reward is the weighted sum over the
    dimensions. *)
Lemma sum_mul_axis2_get (t : tensor3) (w : vector) (n a d r x : nat) :
  shape3 t n a d -> length w = d -> (r < n)%nat -> (x < a)%nat ->
  get2 (sum_axis2 (mul_axis2 t w)) r x
  = Rsum (map (fun j => get3 t r x j * get1 w j) (seq 0 d)).
Proof.
  intros Ht Hw Hr Hx.
  pose proof (shape3_nth _ _ _ _ _ Ht Hr) as Hrow.
  pose proof (shape2_nth _ _ _ _ Hrow Hx) as Hcell.
  destruct Ht as [Hn _]. destruct Hrow as [Ha _].
  unfold get2, sum_axis2, mul_axis2. rewrite map_map.
  set (F := fun m : list (list R) => _).
  rewrite (nth_indep _ [] (F [])) by (rewrite length_map; lia).
  rewrite (map_nth F). unfold F. rewrite map_map.
  set (G := fun cell : list R => _).
  rewrite (nth_indep _ 0 (G [])) by (rewrite length_map; lia).
  rewrite (map_nth G). unfold G.
  rewrite (combine_as_map _ _ d 0 0) by assumption.
  rewrite map_map. reflexivity.
Qed.

Lemma add_vec_nth (u v : vector) (r : nat) :
  (r < length u)%nat -> (r < length v)%nat ->
  nth r (add_vec u v) 0 = nth r u 0 + nth r v 0.
Proof.
  intros Hu Hv. unfold add_vec.
  rewrite (nth_indep _ 0 (fst (0, 0) + snd (0, 0)))
    by (rewrite length_map, length_combine; lia).
  rewrite (map_nth (fun p : R * R => fst p + snd p)).
  now rewrite nth_combine_lt.
Qed.

Lemma factual_term_nth (q : tensor3) (ae : list (list nat)) (n j r : nat) (k : R) :
  length ae = n -> (r < n)%nat ->
  nth r (scale1 k (index_pairs3 q (seq 0 n) (column ae j) j)) 0
  = k * get3 q r (nth j (nth r ae []) O) j.
Proof.
  intros Hae Hr. unfold scale1, index_pairs3.
  rewrite map_map.
  set (F := fun p : nat * nat => _).
  rewrite (nth_indep _ 0 (F (O, O)))
    by (rewrite length_map, length_combine, length_seq, column_length; lia).
  rewrite (map_nth F).
  rewrite nth_combine_lt by (rewrite ?length_seq, ?column_length; lia).
  unfold F. simpl fst. simpl snd. rewrite seq_nth by exact Hr. simpl.
  unfold column.
  rewrite (nth_indep (map _ ae) O (nth j [] O)) by (rewrite length_map; lia).
  now rewrite (map_nth (fun row : list nat => nth j row O)).
Qed.

(** The factual expected reward of a round is the weighted sum of the
    expected rewards of its realized categories. *)
Lemma factual_loop_get (n d : nat) (w : vector) (q : tensor3)
  (ae : list (list nat)) (r : nat) :
  length ae = n -> (r < n)%nat ->
  nth r (factual_loop n d w q ae) 0
  = Rsum (map (fun j => get1 w j * get3 q r (nth j (nth r ae []) O) j)
              (seq 0 d)).
Proof.
  intros Hae Hr. unfold factual_loop.
  set (step := fun (erf : vector) (j : nat) => _).
  assert (H : forall l acc, length acc = n ->
            length (fold_left step l acc) = n /\
            nth r (fold_left step l acc) 0
            = nth r acc 0
              + Rsum (map (fun j => get1 w j * get3 q r (nth j (nth r ae []) O) j) l)).
  { induction l as [| j l IH]; intros acc Hacc; simpl.
    - split; [exact Hacc | lra].
    - assert (Hlen : length (step acc j) = n).
      { unfold step. rewrite add_vec_length. unfold scale1, index_pairs3.
        rewrite !length_map, length_combine, length_seq, column_length. lia. }
      destruct (IH (step acc j) Hlen) as [IH1 IH2]. split; [exact IH1 |].
      rewrite IH2. unfold step at 1. rewrite add_vec_nth.
      + rewrite factual_term_nth by assumption. lra.
      + lia.
      + unfold scale1, index_pairs3.
        rewrite !length_map, length_combine, length_seq, column_length. lia. }
  destruct (H (seq 0 d) (zeros1 n)) as [_ E].
  { unfold zeros1. apply repeat_length. }
  rewrite E. unfold zeros1. rewrite nth_repeat_lt by exact Hr. lra.
Qed.

Lemma firstn_repeat {A : Type} (x : A) (k n : nat) :
  firstn k (repeat x n) = repeat x (Nat.min k n).
Proof.
  revert n. induction k as [| k IH]; intros [| n]; simpl; auto.
  now rewrite IH.
Qed.


Lemma importance_sum (d start : nat) (w : vector) :
  Rsum (assign_from (zeros1 d) start w) = Rsum w.
Proof.
  unfold assign_from, zeros1. rewrite Rsum_app, firstn_repeat, Rsum_repeat_0.
  lra.
Qed.

Lemma importance_nonneg (d start : nat) (w : vector) :
  Forall (fun x => 0 <= x) w ->
  Forall (fun x => 0 <= x) (assign_from (zeros1 d) start w).
Proof.
  intros Hw. unfold assign_from, zeros1. apply Forall_app. split; [| exact Hw].
  rewrite firstn_repeat. apply Forall_forall. intros x Hx.
  apply repeat_spec in Hx. subst. lra.
Qed.

(** With expected rewards in [0, 1] the factual expected reward is in
    [0, 1]: a convex combination, or 0 when no dimension is relevant. *)

Lemma get2_Forall (P : R -> Prop) (m : matrix) (r c : nat) :
  P 0 -> Forall (Forall P) m -> P (get2 m r c).
Proof.
  intros H0 Hm. unfold get2.
  destruct (Nat.lt_ge_cases r (length m)) as [Hr | Hr].
  - assert (Hrow : Forall P (nth r m [])).
    { rewrite Forall_forall in Hm. apply Hm. now apply nth_In. }
    destruct (Nat.lt_ge_cases c (length (nth r m []))) as [Hc | Hc].
    + rewrite Forall_forall in Hrow. apply Hrow. now apply nth_In.
    + now rewrite nth_overflow.
  - rewrite (nth_overflow m) by exact Hr. now destruct c.
Qed.

Lemma q_x_e_unit (s : self_t) (rf : callable) (contexts : matrix)
  (n k a d : nat) :
  shape3 (p_e_a s) a k d ->
  (forall ctx ac rs, Forall (Forall (fun q => 0 <= q <= 1)) (rf ctx ac rs)) ->
  let qf := fold_left (q_step s rf contexts) (seq 0 d)
              (zeros3 n k d, zeros3 n a d) in
  forall r c j, 0 <= get3 (fst qf) r c j <= 1.
Proof.
  intros Hp Hrf qf r c j.
  assert (Hshape : shape3 (fst qf) n k d).
  { apply (q_loop_shape s rf contexts (seq 0 d) (zeros3 n k d, zeros3 n a d)
             n k a d); simpl; apply zeros3_shape. }
  destruct (Nat.lt_ge_cases r n) as [Hr | Hr].
  2:{ rewrite get3_overflow_row; [lra |]. destruct Hshape as [-> _]. exact Hr. }
  destruct (Nat.lt_ge_cases c k) as [Hc | Hc].
  2:{ rewrite get3_overflow_col; [lra |].
      destruct (shape3_nth _ _ _ _ _ Hshape Hr) as [-> _]. exact Hc. }
  destruct (q_loop_values s rf contexts n k a d (seq 0 d)
              (zeros3 n k d, zeros3 n a d)) with (r := r) (j := j) as [He _];
    simpl; auto using zeros3_shape, seq_NoDup.
  { intros i Hi. apply in_seq in Hi. lia. }
  fold qf in He. rewrite (He c Hc).
  destruct (in_dec Nat.eq_dec j (seq 0 d)).
  - apply (get2_Forall (fun q => 0 <= q <= 1)); [lra | apply Hrf].
  - simpl. rewrite get3_zeros3. lra.
Qed.

Lemma weighted_sum_bounds {A : Type} (w x : A -> R) (l : list A) :
  (forall j, In j l -> 0 <= w j) ->
  (forall j, In j l -> 0 <= x j <= 1) ->
  0 <= Rsum (map (fun j => w j * x j) l) <= Rsum (map w l).
Proof.
  induction l as [| j l IH]; intros Hw Hx; simpl.
  - lra.
  - assert (H1 : 0 <= w j) by (apply Hw; now left).
    assert (H2 : 0 <= x j <= 1) by (apply Hx; now left).
    destruct IH as [IH1 IH2];
      [intros; apply Hw; now right | intros; apply Hx; now right |].
    split; nra.
Qed.

Lemma map_get1_seq (w : vector) : map (get1 w) (seq 0 (length w)) = w.
Proof.
  apply (nth_ext _ _ 0 0).
  - now rewrite length_map, length_seq.
  - intros i Hi. rewrite length_map, length_seq in Hi.
    rewrite (nth_indep (map _ _) 0 (get1 w O)) by now rewrite length_map, length_seq.
    now rewrite (map_nth (get1 w)), seq_nth.
Qed.

Lemma factual_unit (n d : nat) (w : vector) (q : tensor3) (ae : list (list nat)) :
  length ae = n -> length w = d ->
  Forall (fun x => 0 <= x) w -> Rsum w <= 1 ->
  (forall r c j, 0 <= get3 q r c j <= 1) ->
  Forall (fun p => 0 <= p <= 1) (factual_loop n d w q ae).
Proof.
  intros Hae Hw Hpos Hsum Hq. subst d. apply Forall_forall. intros p Hp.
  apply (In_nth _ _ 0) in Hp. destruct Hp as (r & Hr & <-).
  rewrite factual_loop_length in Hr by exact Hae.
  rewrite factual_loop_get by assumption.
  destruct (weighted_sum_bounds (get1 w)
              (fun j => get3 q r (nth j (nth r ae []) O) j) (seq 0 (length w)))
    as [H1 H2].
  - intros j Hj. apply in_seq in Hj. rewrite Forall_forall in Hpos.
    apply Hpos. unfold get1. apply nth_In. lia.
  - intros j _. apply Hq.
  - rewrite map_get1_seq in H2. lra.
Qed.

End ValueFacts.

(** * When the call returns *)

Section ReturnFacts.

Context {RS : RandomState}.

Lemma dirichlet_returns alpha g :
  Forall (fun a => 0 < a) alpha -> exists w g', dirichlet alpha g = Some (w, g').
Proof.
  intros H. apply (dirichlet_defined alpha g) in H.
  destruct (dirichlet alpha g) as [[w g'] |]; [| congruence]. now exists w, g'.
Qed.

Lemma binomial_returns n p g :
  (0 <= n)%Z -> Forall (fun x => 0 <= x <= 1) p ->
  exists v g', binomial n p g = Some (v, g').
Proof.
  intros Hn Hp. assert (H : binomial n p g <> None) by (apply binomial_defined; auto).
  destruct (binomial n p g) as [[v g'] |]; [| congruence]. now exists v, g'.
Qed.

Lemma dirichlet_sum_le alpha g w g' :
  dirichlet alpha g = Some (w, g') -> Rsum w <= 1.
Proof.
  intros H. destruct alpha as [| a alpha].
  - apply dirichlet_length in H. destruct w; [simpl; lra | discriminate].
  - apply dirichlet_sum in H; [lra | discriminate].
Qed.

Lemma embed_loop_returns (p : tensor3) (actions : list nat) (l : list nat)
  (ae0 : list (list nat)) :
  (forall j, In j l -> (0 <= Z.of_nat j < 2 ^ 32)%Z) ->
  exists ae, forall s1,
    for_each l
      (fun action_embed j =>
         col <- lift (sample_action_fast (gather_axis2 p actions j) (Z.of_nat j)) ;;
         ret (assign_col action_embed j col))
      ae0 s1 = (inr ae, s1).
Proof.
  revert ae0. induction l as [| j l IH]; intros ae0 H; simpl.
  - exists ae0. reflexivity.
  - destruct (sample_action_fast_returns (gather_axis2 p actions j) (Z.of_nat j))
      as [col Hcol]; [apply H; now left |].
    destruct (IH (assign_col ae0 j col)) as [ae Hae];
      [intros; apply H; now right |].
    exists ae. intros s1.
    unfold bind at 1 2. unfold lift at 1. rewrite Hcol. unfold ret at 1.
    apply Hae.
Qed.

Lemma obtain_batch_body_returns (n : Z) (s : self_t) :
  Invariant s -> (1 <= n)%Z -> alpha_positive s n ->
  (reward_type (cfg s) = BINARY -> reward_range s) ->
  exists f s', obtain_batch_body (PyInt n) s = (inr f, s').
Proof.
  intros Hinv Hn Halpha Hrange. destruct Hinv.
  unfold obtain_batch_body.
  unfold bind at 1. unfold lift at 1. rewrite (check_scalar_min_ok _ _ _ Hn).
  unfold bind at 1. unfold get at 1. cbv zeta.
  destruct (normal_returns
              (zeros1 (Z.to_nat n * Z.to_nat (dim_context (cfg s)))) 1 (random_ s))
    as (z & g1 & Hz); [lra |].
  unfold bind at 1. unfold draw_opt at 1. rewrite Hz.
  specialize (Halpha z g1 Hz).
  unfold bind at 1. unfold draw at 1. simpl random_.
  destruct (uniform (Z.to_nat (n_cat_dim (cfg s) - n_irrelevant_cat_dim (cfg s))) g1)
    as [alpha g2] eqn:Hu.
  simpl in Halpha.
  destruct (dirichlet_returns alpha g2 Halpha) as (w & g3 & Hw).
  unfold bind at 1. unfold draw_opt at 1. simpl random_. rewrite Hw.
  destruct (reward_function (cfg s)) as [rf |] eqn:Hrf; [| congruence].
  unfold bind at 1.
  rewrite (for_each_pure _ _
             (q_step s rf (reshape2 (Z.to_nat n) (Z.to_nat (dim_context (cfg s))) z)))
    by reflexivity.
  set (contexts := reshape2 (Z.to_nat n) (Z.to_nat (dim_context (cfg s))) z).
  set (D := Z.to_nat (n_cat_dim (cfg s))).
  set (qf := fold_left (q_step s rf contexts) (seq 0 D) _).
  set (importance := assign_from (zeros1 D) _ w).
  match goal with
  | |- exists f s', bind ?m ?k ?st = _ =>
      assert (Hp : exists p g4, m st = (inr p, set_random_ s g4))
  end.
  { destruct (0 <? n_deficient_actions (cfg s))%Z.
    - unfold bind, draw. simpl random_.
      destruct (gumbel (Z.to_nat n * Z.to_nat (n_actions (cfg s))) g3) as [gum g4].
      unfold ret. do 2 eexists. reflexivity.
    - unfold ret. do 2 eexists. reflexivity. }
  destruct Hp as (p & g4 & Hp). rewrite (bind_inr _ _ _ _ _ Hp). clear Hp.
  destruct (sample_action_fast_returns (snd p) (random_state (cfg s)))
    as [actions Hact]; [lia |].
  unfold bind at 1. unfold lift at 1. rewrite Hact.
  destruct (embed_loop_returns (p_e_a s) actions (seq 0 D) (repeat (repeat O D) (Z.to_nat n)))
    as [ae Hae].
  { intros j Hj. apply in_seq in Hj. unfold D in Hj. lia. }
  unfold bind at 1. rewrite Hae.
  assert (Hae_len : length ae = Z.to_nat n).
  { pose proof (embed_loop_shape _ _ _ _ _ _ _ (Z.to_nat n) D (Hae s)
                  (repeat_shape2 _ _ _)) as [Hl _]. exact Hl. }
  fold (factual_loop (Z.to_nat n) D importance (fst qf) ae).
  set (erf := factual_loop (Z.to_nat n) D importance (fst qf) ae).
  unfold bind at 1.
  destruct (reward_type (cfg s)) eqn:Hty.
  - assert (Herf : Forall (fun x => 0 <= x <= 1) erf).
    { apply factual_unit; auto.
      - unfold importance. unfold zeros1.
        rewrite assign_from_length; rewrite repeat_length; unfold D; try lia.
        apply dirichlet_length in Hw. rewrite Hw.
        replace alpha with (fst (uniform (Z.to_nat (n_cat_dim (cfg s) - n_irrelevant_cat_dim (cfg s))) g1))
          by now rewrite Hu.
        rewrite uniform_length. lia.
      - apply importance_nonneg. eapply dirichlet_nonneg; eauto.
      - unfold importance. rewrite importance_sum. eapply dirichlet_sum_le; eauto.
      - apply (q_x_e_unit s rf contexts (Z.to_nat n) _ _ D inv_p_e_a0).
        apply (Hrange eq_refl). exact Hrf. }
    destruct (binomial_returns 1 erf g4) as (r & g5 & Hr); [lia | exact Herf |].
    unfold bind at 1. unfold draw_opt at 1. simpl random_. rewrite Hr.
    unfold ret. do 2 eexists. reflexivity.
  - destruct (normal_returns erf (reward_std (cfg s)) g4) as (r & g5 & Hr).
    { apply Rlt_le. auto. }
    unfold bind at 1. unfold draw_opt at 1. simpl random_. rewrite Hr.
    unfold ret. do 2 eexists. reflexivity.
Qed.

End ReturnFacts.

(** * The properties of the generator *)

Section Claims.

Context {RS : RandomState}.

Lemma obtain_inv x s b s' :
  obtain_batch_bandit_feedback x s = (inr b, s') <->
  exists f, obtain_batch_body x s = (inr f, s') /\ b = bandit_feedback s' f.
Proof.
  unfold obtain_batch_bandit_feedback. split.
  - intros H. monad_inv H. unfold get in Hstep0.
    inversion Hstep0; subst a0 s1. unfold ret in Hrest0.
    inversion Hrest0; subst. now exists a.
  - intros (f & Hf & ->). rewrite (bind_inr _ _ _ _ _ Hf). reflexivity.
Qed.

Lemma obtain_advances x s r s' :
  obtain_batch_bandit_feedback x s = (r, s') -> advances s s'.
Proof.
  intros H. pose proof (obtain_batch_bandit_feedback_frames x s) as Hf.
  now rewrite H in Hf.
Qed.

Lemma Invariant_advances s s' : advances s s' -> Invariant s -> Invariant s'.
Proof.
  intros Ha Hinv. apply advances_fields in Ha.
  destruct Ha as (Hc & Hl & Hp & Hr). destruct Hinv.
  constructor; rewrite ?Hc, ?Hl, ?Hp, ?Hr; assumption.
Qed.

(** The rows of the policy in the two branches. *)
Lemma pi_b_row_sum x s f s' r :
  Invariant s -> policy_contract s ->
  obtain_batch_body x s = (inr f, s') ->
  (r < Z.to_nat (Frame.n_rounds f))%nat ->
  Rsum (map (get2 (Frame.pi_b f) r) (seq 0 (Z.to_nat (n_actions (cfg s))))) = 1.
Proof.
  intros Hinv Hpc H Hr.
  pose proof (body_shapes _ _ _ _ Hinv H) as Hsh. cbv zeta in Hsh.
  destruct Hsh as (_ & _ & _ & Hqa & Hlog & Hpi & _).
  specialize (Hlog Hpc). specialize (Hpi Hpc).
  pose proof (obtain_batch_body_inv _ _ _ _ H) as Hb. cbv zeta in Hb.
  destruct Hb as (_ & _ & _ & _ & _ & _ & Hbranch & _).
  destruct Hinv.
  destruct (Z.ltb_spec 0 (n_deficient_actions (cfg s))) as [Hdef | Hdef].
  - destruct Hbranch as (g & _ & ->).
    apply deficient_row_sum; auto.
    + apply reshape2_shape. apply gumbel_length.
    + now apply zeros_like_shape.
    + lia.
    + apply get2_zeros_like.
  - destruct Hbranch as (_ & E).
    rewrite <- (row_as_map _ _ _ _ Hpi Hr). rewrite E.
    rewrite softmax_nth. apply softmax_row_sum.
    rewrite scale2_nth.
    pose proof (shape2_nth _ _ _ _ Hlog Hr) as Hlen.
    destruct (nth r (Frame.pi_b_logits f) []); simpl in *; [lia | discriminate].
Qed.





(** C5. A call changes nothing of the instance but its generator, whether
    it returns or raises: the dataclass fields, [latent_cat_param], [p_e_a]
    and [action_context_reg] are as before; so a later call on the same
    instance returns the same [p_e_a] and [action_context] fields. *)
Theorem fixed_structures_never_mutated x s r s' :
  obtain_batch_bandit_feedback x s = (r, s') ->
  (cfg s' = cfg s /\ latent_cat_param s' = latent_cat_param s /\
   p_e_a s' = p_e_a s /\ action_context_reg s' = action_context_reg s) /\
  forall b1 x2 b2 s2,
    r = inr b1 ->
    obtain_batch_bandit_feedback x2 s' = (inr b2, s2) ->
    Feedback.p_e_a b2 = Feedback.p_e_a b1 /\
    Feedback.action_context b2 = Feedback.action_context b1.
Proof.
  intros H. pose proof (obtain_advances _ _ _ _ H) as Ha.
  apply advances_fields in Ha. split; [exact Ha |].
  intros b1 x2 b2 s2 -> H2.
  pose proof (obtain_advances _ _ _ _ H2) as Ha2.
  apply advances_fields in Ha2.
  destruct Ha2 as (Hc2 & _ & Hp2 & Hr2).
  apply obtain_inv in H, H2.
  destruct H as (f1 & _ & ->). destruct H2 as (f2 & _ & ->).
  simpl. now rewrite Hc2, Hp2, Hr2.
Qed.

(** C8. The realized rewards of a call that returns: with binary rewards,
    the draw of [binomial(n=1, p=expected_rewards_factual)], each 0 or 1;
    with continuous rewards, the draw of
    [normal(loc=expected_rewards_factual, scale=reward_std)]. *)
Theorem reward_realization x s b s' :
  obtain_batch_bandit_feedback x s = (inr b, s') ->
  exists f,
    obtain_batch_body x s = (inr f, s') /\ b = bandit_feedback s' f /\
    match reward_type (cfg s) with
    | BINARY =>
        exists g r,
          binomial 1 (Frame.expected_rewards_factual f) g = Some (r, random_ s') /\
          Feedback.reward b = IntRewards r /\
          length r = length (Frame.expected_rewards_factual f) /\
          Forall (fun v => v = 0%Z \/ v = 1%Z) r
    | CONTINUOUS =>
        exists g r,
          normal (Frame.expected_rewards_factual f) (reward_std (cfg s)) g
          = Some (r, random_ s') /\
          Feedback.reward b = FloatRewards r /\
          length r = length (Frame.expected_rewards_factual f)
    end.
Proof.
  intros H. apply obtain_inv in H. destruct H as (f & Hf & ->).
  exists f. splits; auto.
  pose proof (obtain_batch_body_inv _ _ _ _ Hf) as Hb. cbv zeta in Hb.
  destruct Hb as (_ & _ & _ & _ & _ & _ & _ & _ & _ & _ & Hrew).
  destruct (reward_type (cfg s)); destruct Hrew as (g & r & Hr & Hrw);
    exists g, r; splits; auto.
  - eapply binomial_length; eauto.
  - apply binomial_range in Hr. eapply Forall_impl; [| exact Hr].
    intros v Hv. simpl in Hv. lia.
  - eapply normal_length; eauto.
Qed.




End Claims.

Section ConstructionClaims.

Context {RS : RandomState}.
Variable logistic_reward_function : callable.
Variable linear_reward_function : callable.

Local Abbreviation post_init :=
  (__post_init__ logistic_reward_function linear_reward_function).
Local Abbreviation internal :=
  (internal_config logistic_reward_function linear_reward_function).

(** The invariant holds in every state of an instance. *)
Lemma Reachable_invariant c s :
  Reachable logistic_reward_function linear_reward_function c s ->
  Invariant s /\ cfg s = internal c.
Proof.
  induction 1 as [s Hs | s x r s' _ [IH1 IH2] Hcall].
  - split; [eapply post_init_invariant; eauto |].
    now apply post_init_inv in Hs.
  - pose proof (obtain_advances _ _ _ _ Hcall) as Ha. split.
    + eapply Invariant_advances; eauto.
    + apply advances_fields in Ha. destruct Ha as [-> _]. exact IH2.
Qed.

(** C3. After the construction, [p_e_a] is the softmax along axis 1 of a
    normal draw of shape [(n_actions, n_cat_per_dim, n_cat_dim + 1)], and for
    every action and every dimension its entries over the categories sum
    to 1. *)
Theorem p_e_a_categories_sum_to_one c s :
  post_init c = inr s ->
  let A := Z.to_nat (n_actions c) in
  let K := Z.to_nat (n_cat_per_dim c) in
  let D := Z.to_nat (n_cat_dim c + 1) in
  (exists g x g',
      normal (zeros1 (A * K * D)) (p_e_a_param_std c) g = Some (x, g') /\
      p_e_a s = softmax3 (reshape3 A K D x)) /\
  forall a d, (a < A)%nat -> (d < D)%nat ->
    Rsum (map (fun k => get3 (p_e_a s) a k d) (seq 0 K)) = 1.
Proof.
  intros H A K D. apply post_init_inv in H. cbv zeta in H.
  destruct H as (Hv & _ & (g0 & z & g & x & _ & _ & Hx & _ & Hp) & _).
  fold A K D in Hx, Hp. split.
  - now exists g, x, (random_ s).
  - intros a d Ha Hd. rewrite Hp.
    apply (softmax3_axis1_sum _ A K D); auto.
    + apply reshape3_shape. apply normal_length in Hx.
      rewrite Hx. unfold zeros1. apply repeat_length.
    + destruct Hv. unfold K. lia.
Qed.


(** C6. The returned arrays in the user's dimensions: [action_embed],
    [q_x_e] and [p_e_a] are the internal arrays without their first
    [n_unobserved_cat_dim + 1] dimension slots and keep
    [n_cat_dim - n_unobserved_cat_dim] of them; [action_context] is
    [action_context_reg] without the padding slot and has [n_cat_dim]
    columns; [pi_b] has shape [(n_rounds, n_actions, 1)]. *)
Theorem output_shapes c x s b s' :
  Invariant s -> cfg s = internal c -> policy_contract s ->
  obtain_batch_bandit_feedback x s = (inr b, s') ->
  let N := Z.to_nat (Feedback.n_rounds b) in
  let A := Z.to_nat (n_actions c) in
  let K := Z.to_nat (n_cat_per_dim c) in
  let observed := Z.to_nat (n_cat_dim c - n_unobserved_cat_dim c) in
  let dropped := Z.to_nat (n_unobserved_cat_dim c + 1) in
  exists f,
    obtain_batch_body x s = (inr f, s') /\
    Feedback.action_embed b = drop_axis1 dropped (Frame.action_embed f) /\
    shape2 (Feedback.action_embed b) N observed /\
    Feedback.q_x_e b = drop_axis2 dropped (Frame.q_x_e f) /\
    shape3 (Feedback.q_x_e b) N K observed /\
    Feedback.p_e_a b = drop_axis2 dropped (p_e_a s) /\
    shape3 (Feedback.p_e_a b) A K observed /\
    Feedback.action_context b = drop_axis1 1 (action_context_reg s) /\
    shape2 (Feedback.action_context b) A (Z.to_nat (n_cat_dim c)) /\
    shape3 (Feedback.pi_b b) N A 1.
Proof.
  intros Hinv Hc Hpc H. cbv zeta.
  pose proof (obtain_advances _ _ _ _ H) as Hadv.
  apply advances_fields in Hadv. destruct Hadv as (Hc' & _ & Hp' & Hr').
  apply obtain_inv in H. destruct H as (f & Hf & ->).
  pose proof (body_shapes _ _ _ _ Hinv Hf) as Hsh. cbv zeta in Hsh.
  destruct Hsh as (_ & _ & Hqe & _ & _ & Hpi & _ & Hae & _).
  specialize (Hpi Hpc).
  destruct (internal_config_fields logistic_reward_function
              linear_reward_function c)
    as (F1 & _ & _ & _ & _ & _ & F7 & _ & F9 & F10 & _).
  pose proof (inv_n_unobserved _ Hinv) as Hu.
  pose proof (inv_p_e_a _ Hinv) as Hpea.
  pose proof (inv_action_context_reg _ Hinv) as Hacr.
  rewrite <- Hc in F1, F7, F9, F10.
  rewrite F9, F10 in Hu. rewrite F1, F7, F9 in Hpea.
  rewrite F1, F9 in Hacr. rewrite F7, F9 in Hqe. rewrite F1 in Hpi.
  rewrite F9 in Hae.
  simpl. rewrite Hc', Hp', Hr', F10.
  exists f. splits; auto.
  - replace (Z.to_nat (n_cat_dim c - n_unobserved_cat_dim c))
      with (Z.to_nat (n_cat_dim c + 1) - Z.to_nat (n_unobserved_cat_dim c + 1))%nat
      by lia.
    now apply drop_axis1_shape.
  - replace (Z.to_nat (n_cat_dim c - n_unobserved_cat_dim c))
      with (Z.to_nat (n_cat_dim c + 1) - Z.to_nat (n_unobserved_cat_dim c + 1))%nat
      by lia.
    now apply drop_axis2_shape.
  - replace (Z.to_nat (n_cat_dim c - n_unobserved_cat_dim c))
      with (Z.to_nat (n_cat_dim c + 1) - Z.to_nat (n_unobserved_cat_dim c + 1))%nat
      by lia.
    now apply drop_axis2_shape.
  - replace (Z.to_nat (n_cat_dim c))
      with (Z.to_nat (n_cat_dim c + 1) - 1)%nat by lia.
    now apply drop_axis1_shape.
  - now apply newaxis2_shape.
Qed.

End ConstructionClaims.

(** * Further properties: the construction *)

Section ConstructionProperties.

Context {RS : RandomState}.
Variable logistic_reward_function : callable.
Variable linear_reward_function : callable.

Local Abbreviation internal :=
  (internal_config logistic_reward_function linear_reward_function).

Lemma check_scalar_below z name lo hi :
  (z < lo)%Z ->
  check_scalar (PyInt z) name (Some lo) hi = inl (ValueError name).
Proof.
  intros H. simpl. destruct (Z.ltb_spec z lo); [reflexivity | lia].
Qed.

Lemma check_scalar_above z name lo hi :
  (hi < z)%Z ->
  check_scalar (PyInt z) name lo (Some hi) = inl (ValueError name).
Proof.
  intros H. simpl. destruct lo as [lo |].
  - destruct (Z.ltb_spec z lo); [reflexivity |].
    destruct (Z.ltb_spec hi z); [reflexivity | lia].
  - destruct (Z.ltb_spec hi z); [reflexivity | lia].
Qed.

Lemma check_scalar_real_ok x name lo :
  lo <= x -> check_scalar_real x name lo = inr x.
Proof.
  intros H. unfold check_scalar_real.
  destruct (Rlt_dec x lo); [lra | reflexivity].
Qed.

Lemma check_scalar_real_below x name lo :
  x < lo -> check_scalar_real x name lo = inl (ValueError name).
Proof.
  intros H. unfold check_scalar_real.
  destruct (Rlt_dec x lo); [reflexivity | lra].
Qed.

(** A check that fails ends the method where it stands. *)
Lemma bind_lift_inl {A B : Type} (e : exn) (k : A -> M B) s :
  bind (lift (inl e)) k s = (inl e, s).
Proof. reflexivity. Qed.

Lemma bind_lift_inr {A B : Type} (a : A) (k : A -> M B) s :
  bind (lift (inr a)) k s = k a s.
Proof. reflexivity. Qed.

Ltac pass_check H :=
  first [ rewrite (check_scalar_min_ok _ _ _ H)
        | rewrite (check_scalar_ok _ _ _ _ H)
        | rewrite (check_scalar_real_ok _ _ _ H) ];
  rewrite bind_lift_inr.

Ltac fail_check H :=
  first [ rewrite (check_scalar_below _ _ _ _ H)
        | rewrite (check_scalar_above _ _ _ _ H)
        | rewrite (check_scalar_real_below _ _ _ H) ];
  apply bind_lift_inl.

(** X1. [__post_init__] checks the six embedding parameters in the order
    of the source, before it changes anything: the first one out of its
    bounds raises a [ValueError] that names it and [self] is as it was (no
    counter incremented, no random draw made).  Both upper bounds are the
    [n_cat_dim] the caller gave. *)
Theorem invalid_embedding_parameter_refused s :
  let c := cfg s in
  ((n_cat_per_dim c < 1)%Z ->
   post_init_body logistic_reward_function linear_reward_function s
   = (inl (ValueError "n_cat_per_dim"), s)) /\
  ((1 <= n_cat_per_dim c)%Z -> (latent_param_mat_dim c < 1)%Z ->
   post_init_body logistic_reward_function linear_reward_function s
   = (inl (ValueError "latent_param_mat_dim"), s)) /\
  ((1 <= n_cat_per_dim c)%Z -> (1 <= latent_param_mat_dim c)%Z ->
   (n_cat_dim c < 1)%Z ->
   post_init_body logistic_reward_function linear_reward_function s
   = (inl (ValueError "n_cat_dim"), s)) /\
  ((1 <= n_cat_per_dim c)%Z -> (1 <= latent_param_mat_dim c)%Z ->
   (1 <= n_cat_dim c)%Z -> p_e_a_param_std c < 0 ->
   post_init_body logistic_reward_function linear_reward_function s
   = (inl (ValueError "p_e_a_param_std"), s)) /\
  ((1 <= n_cat_per_dim c)%Z -> (1 <= latent_param_mat_dim c)%Z ->
   (1 <= n_cat_dim c)%Z -> 0 <= p_e_a_param_std c ->
   (n_unobserved_cat_dim c < 0 \/ n_cat_dim c < n_unobserved_cat_dim c)%Z ->
   post_init_body logistic_reward_function linear_reward_function s
   = (inl (ValueError "n_unobserved_cat_dim"), s)) /\
  ((1 <= n_cat_per_dim c)%Z -> (1 <= latent_param_mat_dim c)%Z ->
   (1 <= n_cat_dim c)%Z -> 0 <= p_e_a_param_std c ->
   (0 <= n_unobserved_cat_dim c <= n_cat_dim c)%Z ->
   (n_irrelevant_cat_dim c < 0 \/ n_cat_dim c < n_irrelevant_cat_dim c)%Z ->
   post_init_body logistic_reward_function linear_reward_function s
   = (inl (ValueError "n_irrelevant_cat_dim"), s)).
Proof.
  cbv zeta. unfold post_init_body.
  change (bind get ?k s) with (k s s). cbv beta.
  splits.
  - intros H. fail_check H.
  - intros H1 H. pass_check H1. fail_check H.
  - intros H1 H2 H. pass_check H1. pass_check H2. fail_check H.
  - intros H1 H2 H3 H. pass_check H1. pass_check H2. pass_check H3.
    fail_check H.
  - intros H1 H2 H3 H4 [H | H]; pass_check H1; pass_check H2; pass_check H3;
      pass_check H4; fail_check H.
  - intros H1 H2 H3 H4 H5 [H | H]; pass_check H1; pass_check H2;
      pass_check H3; pass_check H4; pass_check H5; fail_check H.
Qed.


(** What a construction that returns went through. *)
Lemma post_init_body_inv s s' :
  post_init_body logistic_reward_function linear_reward_function s
  = (inr tt, s') ->
  let c := cfg s in
  let c3 :=
    set_n_irrelevant_cat_dim
      (set_n_unobserved_cat_dim (set_n_cat_dim c (n_cat_dim c + 1)%Z)
         (n_unobserved_cat_dim c + 1)%Z)
      (n_irrelevant_cat_dim c + 1)%Z in
  ((1 <= n_cat_per_dim c)%Z /\ (1 <= latent_param_mat_dim c)%Z /\
   (1 <= n_cat_dim c)%Z /\ 0 <= p_e_a_param_std c /\
   (0 <= n_unobserved_cat_dim c <= n_cat_dim c)%Z /\
   (0 <= n_irrelevant_cat_dim c <= n_cat_dim c)%Z) /\
  cfg s' = internal c /\
  exists s1,
    _define_action_embed (set_cfg s c3) = (inr tt, s1) /\
    cfg s1 = c3 /\
    random_ s' = random_ s1 /\ latent_cat_param s' = latent_cat_param s1 /\
    p_e_a s' = p_e_a s1 /\ action_context_reg s' = action_context_reg s1.
Proof.
  intros Hbody. cbv zeta.
  unfold post_init_body in Hbody. monad_inv Hbody.
  unfold get in Hstep. inversion Hstep; subst a s0. clear Hstep.
  apply lift_inr_inv in Hstep0, Hstep1, Hstep2, Hstep3, Hstep4, Hstep5.
  destruct Hstep0 as [H0 ->]. destruct Hstep1 as [H1 ->].
  destruct Hstep2 as [H2 ->]. destruct Hstep3 as [H3 ->].
  destruct Hstep4 as [H4 ->]. destruct Hstep5 as [H5 ->].
  apply check_scalar_inv in H0, H1, H2.
  apply check_scalar_real_inv in H3. apply check_scalar_bounds in H4, H5.
  destruct H0 as [E0 H0]. inversion E0; subst a0.
  destruct H1 as [E1 H1]. inversion E1; subst a1.
  destruct H2 as [E2 H2]. inversion E2; subst a2.
  destruct H3 as [_ H3]. destruct H4 as [_ H4]. destruct H5 as [_ H5].
  unfold modify in Hstep6, Hstep7, Hstep8.
  inversion Hstep6; subst a6 s7. inversion Hstep7; subst a7 s8.
  inversion Hstep8; subst a8 s9. clear Hstep6 Hstep7 Hstep8.
  destruct a9. pose proof Hstep9 as Hdef.
  apply _define_action_embed_inv in Hstep9. simpl in Hstep9.
  destruct Hstep9 as (Hcfg & _).
  unfold get in Hstep10. inversion Hstep10; subst a10 s11. clear Hstep10.
  rewrite Hcfg in Hrest0. simpl in Hrest0.
  split; [splits; auto; lia |].
  assert (Hfinal : cfg s' = internal (cfg s) /\ random_ s' = random_ s10 /\
                   latent_cat_param s' = latent_cat_param s10 /\
                   p_e_a s' = p_e_a s10 /\
                   action_context_reg s' = action_context_reg s10).
  { unfold internal_config. simpl.
    destruct (reward_function (cfg s)) as [rf |].
    - unfold ret in Hrest0. inversion Hrest0; subst s'. splits; auto.
    - destruct (reward_type (cfg s)); unfold modify in Hrest0;
        inversion Hrest0; subst s'; simpl; rewrite Hcfg; splits; auto. }
  destruct Hfinal as (Hc & Hr & Hl & Hpe & Ha).
  split; [exact Hc |].
  exists s10. splits; auto.
Qed.

(** X2. A construction that returns leaves in [self] the three dimension
    counters one above the values the caller gave (the padding slot), the
    reward function the caller gave or, when none was given, the logistic
    one for binary rewards and the linear one for continuous rewards, and
    every other dataclass field as given. *)
Theorem construction_stores_fields s s' :
  post_init_body logistic_reward_function linear_reward_function s
  = (inr tt, s') ->
  let c := cfg s in
  let c' := cfg s' in
  n_cat_dim c' = (n_cat_dim c + 1)%Z /\
  n_unobserved_cat_dim c' = (n_unobserved_cat_dim c + 1)%Z /\
  n_irrelevant_cat_dim c' = (n_irrelevant_cat_dim c + 1)%Z /\
  (1 <= n_unobserved_cat_dim c' <= n_cat_dim c')%Z /\
  (1 <= n_irrelevant_cat_dim c' <= n_cat_dim c')%Z /\
  reward_function c' =
    match reward_function c, reward_type c with
    | Some f, _ => Some f
    | None, BINARY => Some logistic_reward_function
    | None, CONTINUOUS => Some linear_reward_function
    end /\
  n_actions c' = n_actions c /\ dim_context c' = dim_context c /\
  reward_type c' = reward_type c /\ reward_std c' = reward_std c /\
  behavior_policy_function c' = behavior_policy_function c /\
  beta c' = beta c /\ n_cat_per_dim c' = n_cat_per_dim c /\
  latent_param_mat_dim c' = latent_param_mat_dim c /\
  p_e_a_param_std c' = p_e_a_param_std c /\
  n_deficient_actions c' = n_deficient_actions c /\
  random_state c' = random_state c /\ dataset_name c' = dataset_name c /\
  action_context c' = action_context c.
Proof.
  intros H. apply post_init_body_inv in H. cbv zeta in H.
  destruct H as ((_ & _ & _ & _ & Hu & Hi) & Hc & _).
  cbv zeta. rewrite Hc. unfold internal_config. simpl.
  destruct (reward_function (cfg s)) as [rf |] eqn:E; simpl.
  - splits; try reflexivity; try assumption; lia.
  - destruct (reward_type (cfg s)); splits; try reflexivity; lia.
Qed.

(** The construction returns on parameters within their bounds. *)
Lemma post_init_body_returns s :
  let c := cfg s in
  (1 <= n_cat_per_dim c)%Z -> (1 <= latent_param_mat_dim c)%Z ->
  (1 <= n_cat_dim c)%Z -> 0 <= p_e_a_param_std c ->
  (0 <= n_unobserved_cat_dim c <= n_cat_dim c)%Z ->
  (0 <= n_irrelevant_cat_dim c <= n_cat_dim c)%Z ->
  (0 <= random_state c)%Z -> (random_state c + n_cat_dim c < 2 ^ 32)%Z ->
  exists s',
    post_init_body logistic_reward_function linear_reward_function s
    = (inr tt, s').
Proof.
  cbv zeta. intros Hk Hl Hd Hp Hu Hi Hlo Hhi.
  unfold post_init_body.
  change (bind get ?k s) with (k s s). cbv beta.
  pass_check Hk. pass_check Hl. pass_check Hd. pass_check Hp.
  pass_check Hu. pass_check Hi.
  unfold bind at 1. unfold modify at 1.
  unfold bind at 1. unfold modify at 1.
  unfold bind at 1. unfold modify at 1.
  unfold bind at 1.
  match goal with
  | |- context [ _define_action_embed ?s0 ] =>
      destruct (_define_action_embed_returns s0) as [s1 Hs1];
      [simpl; auto | simpl; lia | simpl; lia |]
  end.
  rewrite Hs1.
  unfold bind at 1. unfold get at 1.
  destruct (reward_function (cfg s1)) as [rf |].
  - unfold ret. eauto.
  - destruct (reward_type (cfg s1)); unfold modify; eauto.
Qed.

(** X3. Exactly which constructions return.  [__post_init__] (after the
    base class's part) returns if and only if the six embedding parameters
    are within their bounds and every seed [random_state + d] that
    [_define_action_embed] hands to [sample_action_fast], for [d] from 0 to
    the caller's [n_cat_dim], is one numpy accepts (at most 2^32 - 1). *)
Theorem construction_returns_iff s :
  let c := cfg s in
  (exists s',
      post_init_body logistic_reward_function linear_reward_function s
      = (inr tt, s')) <->
  ((1 <= n_cat_per_dim c)%Z /\ (1 <= latent_param_mat_dim c)%Z /\
   (1 <= n_cat_dim c)%Z /\ 0 <= p_e_a_param_std c /\
   (0 <= n_unobserved_cat_dim c <= n_cat_dim c)%Z /\
   (0 <= n_irrelevant_cat_dim c <= n_cat_dim c)%Z /\
   (0 <= random_state c)%Z /\ (random_state c + n_cat_dim c < 2 ^ 32)%Z).
Proof.
  cbv zeta. split.
  - intros (s' & H). apply post_init_body_inv in H. cbv zeta in H.
    destruct H as ((Hk & Hl & Hd & Hp & Hu & Hi) & _ & s1 & Hdef & _).
    apply _define_action_embed_inv in Hdef. cbv zeta in Hdef. simpl in Hdef.
    destruct Hdef as (_ & _ & _ & Hseeds).
    assert (Hfirst : seed (random_state (cfg s) + Z.of_nat 0)%Z <> None)
      by (apply Hseeds; lia).
    assert (Hlast : seed (random_state (cfg s)
                          + Z.of_nat (Z.to_nat (n_cat_dim (cfg s))))%Z <> None)
      by (apply Hseeds; lia).
    apply seed_defined in Hfirst, Hlast. splits; auto; lia.
  - intros (Hk & Hl & Hd & Hp & Hu & Hi & Hlo & Hhi).
    now apply post_init_body_returns.
Qed.

End ConstructionProperties.

(** * Further properties: [_define_action_embed] *)

Section EmbedProperties.

Context {RS : RandomState}.

Lemma map_nth_seq {A : Type} (l : list A) (d : A) :
  map (fun i => nth i l d) (seq 0 (length l)) = l.
Proof.
  apply (nth_ext _ _ d d).
  - now rewrite length_map, length_seq.
  - intros i Hi. rewrite length_map, length_seq in Hi.
    rewrite (nth_indep _ d (nth O l d)) by now rewrite length_map, length_seq.
    rewrite (map_nth (fun i0 => nth i0 l d) (seq 0 (length l)) O i).
    now rewrite seq_nth.
Qed.

Lemma column_assign_col_same (m : list (list nat)) (d : nat) (col : list nat)
  (n k : nat) :
  shape2 m n k -> (d < k)%nat -> length col = n ->
  column (assign_col m d col) d = col.
Proof.
  intros [Hn Hrows] Hd Hcol. unfold column, assign_col, tab.
  rewrite map_map. rewrite Hn, <- Hcol.
  rewrite <- (map_nth_seq col O) at 2.
  apply map_ext_in. intros i Hi. apply in_seq in Hi.
  apply nth_upd_eq.
  rewrite Forall_forall in Hrows. rewrite (Hrows (nth i m [])); [exact Hd |].
  apply nth_In. lia.
Qed.

Lemma column_assign_col_other (m : list (list nat)) (d d' : nat)
  (col : list nat) :
  d <> d' -> column (assign_col m d col) d' = column m d'.
Proof.
  intros Hd. unfold column, assign_col, tab. rewrite map_map.
  rewrite <- (map_nth_seq m []) at 2. rewrite map_map.
  apply map_ext. intros i. now apply nth_upd_neq.
Qed.

Lemma nth_column (m : list (list nat)) (d r : nat) :
  nth r (column m d) O = nth d (nth r m []) O.
Proof.
  unfold column. revert r. induction m as [| row m IH]; intros r.
  - destruct r; destruct d; reflexivity.
  - destruct r; simpl; auto.
Qed.

(** What the sampler returns for a row. *)

Lemma length_cumsum_from (acc : R) (l : list R) :
  length (cumsum_from acc l) = length l.
Proof.
  revert acc. induction l as [| x l IH]; intros acc; simpl; auto.
Qed.

Lemma first_true_lt (l : list bool) (i : nat) :
  first_true l = Some i -> (i < length l)%nat.
Proof.
  revert i. induction l as [| b l IH]; intros i; simpl; [discriminate |].
  destruct b.
  - intros H. inversion H. lia.
  - destruct (first_true l) as [j |]; simpl; [| discriminate].
    intros H. inversion H. specialize (IH j eq_refl). lia.
Qed.

Lemma sample_row_lt (dist : vector) (u : R) :
  dist <> [] -> (sample_row dist u < length dist)%nat.
Proof.
  intros Hne. unfold sample_row, argmax_bool, cumsum.
  destruct (first_true _) as [i |] eqn:E.
  - apply first_true_lt in E.
    now rewrite length_map, length_cumsum_from in E.
  - destruct dist; [congruence | simpl; lia].
Qed.

(** The first index whose cumulative probability exceeds [u] carries a
    positive probability. *)
Lemma first_true_positive (dist : vector) (u acc : R) :
  acc <= u < acc + Rsum dist ->
  exists i,
    first_true (map (fun c => if Rlt_dec u c then true else false)
                    (cumsum_from acc dist)) = Some i /\
    (i < length dist)%nat /\ 0 < nth i dist 0.
Proof.
  revert acc. induction dist as [| x dist IH]; intros acc Hu; simpl in *.
  - lra.
  - destruct (Rlt_dec u (acc + x)) as [Hlt | Hge].
    + exists O. splits; auto; [lia | lra].
    + destruct (IH (acc + x)) as (i & Hi & Hlen & Hpos); [lra |].
      exists (S i). rewrite Hi. splits; auto. lia.
Qed.

Lemma sample_row_positive (dist : vector) (u : R) :
  Rsum dist = 1 -> 0 <= u < 1 ->
  (sample_row dist u < length dist)%nat /\ 0 < nth (sample_row dist u) dist 0.
Proof.
  intros Hsum Hu. unfold sample_row, argmax_bool, cumsum.
  destruct (first_true_positive dist u 0) as (i & -> & Hlen & Hpos); [lra |].
  auto.
Qed.

Lemma gather_axis2_rows (t : tensor3) (idx : list nat) (d n k j : nat) :
  shape3 t n k j -> (forall a, In a idx -> (a < n)%nat) ->
  shape2 (gather_axis2 t idx d) (length idx) k.
Proof.
  intros Ht Hidx. unfold gather_axis2. split; [apply length_map |].
  apply Forall_map. apply Forall_forall. intros a Ha.
  rewrite length_map. apply (shape3_nth _ _ _ _ _ Ht (Hidx a Ha)).
Qed.

Lemma sample_action_fast_bound (m : matrix) (z : Z) (col : list nat)
  (n k : nat) :
  sample_action_fast m z = inr col -> shape2 m n k -> (1 <= k)%nat ->
  length col = n /\ Forall (fun a => (a < k)%nat) col.
Proof.
  intros H [Hn Hrows] Hk.
  pose proof (sample_action_fast_inv _ _ _ H) as [_ Hlen].
  split; [lia |].
  apply Forall_forall. intros a Ha.
  destruct (In_nth col a O Ha) as (r & Hr & <-).
  destruct (sample_action_fast_nth m z col r H) as (u & _ & ->); [lia |].
  rewrite Forall_forall in Hrows.
  assert (Hrow : length (nth r m []) = k) by (apply Hrows, nth_In; lia).
  rewrite <- Hrow. apply sample_row_lt.
  destruct (nth r m []); [simpl in Hrow; lia | discriminate].
Qed.

(** The loop of [_define_action_embed]: the column of every dimension it
    runs over is the sample of that dimension, the others are left. *)
Lemma action_context_loop_columns (l idx : list nat) (n k : nat) s s' :
  NoDup l -> (forall d, In d l -> (d < k)%nat) -> length idx = n ->
  shape2 (action_context_reg s) n k ->
  for_each l
    (fun (_ : unit) d =>
       self <- get ;;
       col <- lift (sample_action_fast (gather_axis2 (p_e_a self) idx d)
                      (random_state (cfg self) + Z.of_nat d)%Z) ;;
       modify (fun s => set_action_context_reg s
                          (assign_col (action_context_reg s) d col)))
    tt s = (inr tt, s') ->
  forall d,
    (In d l ->
     sample_action_fast (gather_axis2 (p_e_a s) idx d)
       (random_state (cfg s) + Z.of_nat d)%Z
     = inr (column (action_context_reg s') d)) /\
    (~ In d l ->
     column (action_context_reg s') d = column (action_context_reg s) d).
Proof.
  intros Hnd. revert s. induction Hnd as [| d0 l Hnotin Hnd IH];
    intros s Hlt Hidx Hsh H d.
  - simpl in H. unfold ret in H. inversion H; subst.
    split; [contradiction | auto].
  - simpl in H. monad_inv H. destruct a. monad_inv Hstep.
    unfold get in Hstep0. inversion Hstep0; subst a s1. clear Hstep0.
    apply lift_inr_inv in Hstep. destruct Hstep as [Hcol ->].
    unfold modify in Hrest1. inversion Hrest1; subst s0. clear Hrest1.
    assert (Hlen : length a0 = n).
    { apply sample_action_fast_inv in Hcol. destruct Hcol as [_ ->].
      unfold gather_axis2. now rewrite length_map. }
    specialize (IH (set_action_context_reg s
                      (assign_col (action_context_reg s) d0 a0))
                  (fun d' Hd' => Hlt d' (or_intror Hd')) Hidx
                  (assign_col_shape _ d0 a0 _ _ Hsh) Hrest).
    simpl in IH. split.
    + intros [<- | Hin].
      * destruct (IH d0) as [_ Hkeep]. rewrite (Hkeep Hnotin).
        rewrite (column_assign_col_same _ _ _ n k); auto.
        apply Hlt. now left.
      * now apply IH.
    + intros Hout. destruct (IH d) as [_ Hkeep].
      rewrite Hkeep by (intros Hin; apply Hout; now right).
      apply column_assign_col_other. intros ->. apply Hout. now left.
Qed.

Lemma p_e_a_shape_after_embed s s' :
  (1 <= n_cat_per_dim (cfg s))%Z ->
  _define_action_embed s = (inr tt, s') ->
  shape3 (p_e_a s') (Z.to_nat (n_actions (cfg s)))
    (Z.to_nat (n_cat_per_dim (cfg s))) (Z.to_nat (n_cat_dim (cfg s))).
Proof.
  intros Hk H. apply _define_action_embed_inv in H. cbv zeta in H.
  destruct H as (_ & (z & g & x & _ & Hx & _ & Hp) & _).
  rewrite Hp. apply softmax3_shape; [| lia].
  apply reshape3_shape. apply normal_length in Hx.
  rewrite Hx. apply repeat_length.
Qed.

(** X4. [_define_action_embed] draws twice from the generator of the
    instance and stores three arrays: [latent_cat_param] of shape
    [(n_cat_dim, n_cat_per_dim, latent_param_mat_dim)], [p_e_a] of shape
    [(n_actions, n_cat_per_dim, n_cat_dim)] and [action_context_reg] of
    shape [(n_actions, n_cat_dim)]; the dataclass fields are as before
    ([n_cat_dim] is the incremented counter at this point). *)
Theorem stored_arrays_shapes s s' :
  (1 <= n_cat_per_dim (cfg s))%Z ->
  _define_action_embed s = (inr tt, s') ->
  let c := cfg s in
  let D := Z.to_nat (n_cat_dim c) in
  let K := Z.to_nat (n_cat_per_dim c) in
  let L := Z.to_nat (latent_param_mat_dim c) in
  let A := Z.to_nat (n_actions c) in
  cfg s' = c /\
  (exists z g x,
      normal (zeros1 (D * K * L)) 1 (random_ s) = Some (z, g) /\
      normal (zeros1 (A * K * D)) (p_e_a_param_std c) g
      = Some (x, random_ s')) /\
  shape3 (latent_cat_param s') D K L /\
  shape3 (p_e_a s') A K D /\
  shape2 (action_context_reg s') A D.
Proof.
  intros Hk H. apply _define_action_embed_inv in H. cbv zeta in H.
  destruct H as (Hc & (z & g & x & Hz & Hx & Hl & Hp) & Hacr & _).
  cbv zeta. splits; auto.
  - now exists z, g, x.
  - rewrite Hl. apply reshape3_shape. apply normal_length in Hz.
    rewrite Hz. apply repeat_length.
  - rewrite Hp. apply softmax3_shape; [| lia].
    apply reshape3_shape. apply normal_length in Hx.
    rewrite Hx. apply repeat_length.
Qed.


Lemma nth_le_Rsum (l : list R) (i : nat) :
  Forall (fun x => 0 <= x) l -> (i < length l)%nat -> nth i l 0 <= Rsum l.
Proof.
  intros H. revert i. induction H as [| x l Hx Hl IH]; intros i Hi; simpl in *.
  - lia.
  - pose proof (Rsum_nonneg l Hl). destruct i as [| i].
    + lra.
    + specialize (IH i ltac:(lia)). lra.
Qed.

(** An entry of a softmax over a non-empty axis is a probability that is
    not 0. *)
Lemma softmax_row_entry (x : vector) (i : nat) :
  (i < length x)%nat -> 0 < nth i (softmax_row x) 0 <= 1.
Proof.
  intros Hi. pose proof (softmax_row_pos x) as Hpos.
  assert (Hlen : (i < length (softmax_row x))%nat)
    by now rewrite softmax_row_length.
  split.
  - rewrite Forall_forall in Hpos. apply Hpos. now apply nth_In.
  - rewrite <- (softmax_row_sum x)
      by (destruct x; [simpl in Hi; lia | discriminate]).
    apply nth_le_Rsum; [| exact Hlen].
    eapply Forall_impl; [| exact Hpos]. intros v Hv. simpl in Hv. lra.
Qed.

Lemma softmax3_entry (x : tensor3) (n k d a j c : nat) :
  shape3 x n k d -> (a < n)%nat -> (j < k)%nat -> (c < d)%nat ->
  0 < get3 (softmax3 x) a j c <= 1.
Proof.
  intros Hx Ha Hj Hc.
  pose proof (softmax3_axis1 x n k d a c Hx Ha Hc) as E.
  replace (get3 (softmax3 x) a j c)
    with (nth j (map (fun j0 => get3 (softmax3 x) a j0 c) (seq 0 k)) 0).
  - rewrite E. apply softmax_row_entry. now rewrite length_map, length_seq.
  - apply (nth_tab k (fun j0 => get3 (softmax3 x) a j0 c) j 0 Hj).
Qed.


(** The loop of [_define_action_embed], seen from the method. *)
Lemma _define_action_embed_loop s s' :
  _define_action_embed s = (inr tt, s') ->
  exists s0,
    cfg s0 = cfg s /\ p_e_a s0 = p_e_a s' /\
    action_context_reg s0
    = repeat (repeat O (Z.to_nat (n_cat_dim (cfg s))))
        (Z.to_nat (n_actions (cfg s))) /\
    for_each (seq 0 (Z.to_nat (n_cat_dim (cfg s))))
      (fun (_ : unit) d =>
         self <- get ;;
         col <- lift (sample_action_fast
                        (gather_axis2 (p_e_a self)
                           (seq 0 (Z.to_nat (n_actions (cfg s)))) d)
                        (random_state (cfg self) + Z.of_nat d)%Z) ;;
         modify (fun s => set_action_context_reg s
                            (assign_col (action_context_reg s) d col)))
      tt s0 = (inr tt, s').
Proof.
  intros H. unfold _define_action_embed in H. monad_inv H.
  unfold get in Hstep. inversion Hstep; subst a s0. clear Hstep.
  apply draw_opt_inv in Hstep0. destruct Hstep0 as (g1 & Hz & ->).
  unfold modify in Hstep1. inversion Hstep1; subst a1 s2. clear Hstep1.
  apply draw_opt_inv in Hstep2. destruct Hstep2 as (g2 & Hx & ->).
  unfold modify in Hstep3. inversion Hstep3; subst a3 s4. clear Hstep3.
  unfold modify in Hstep4. inversion Hstep4; subst a4 s5. clear Hstep4.
  match goal with
  | H : for_each _ _ ?u _ = (inr ?v, _) |- _ => destruct v; rename H into Hloop
  end.
  eexists. split; [| split; [| split; [| exact Hloop]]]; try reflexivity.
  apply action_context_loop_inv in Hloop.
  destruct Hloop as (_ & _ & _ & Hp & _). now rewrite Hp.
Qed.

(** X6. The columns of [action_context_reg]: for every dimension [d]
    (the padding slot included) column [d] is what [sample_action_fast]
    returns for [p_e_a[:, :, d]] with the seed [random_state + d]; no later
    turn of the loop overwrites it, and every entry is a category index
    below [n_cat_per_dim]. *)
Theorem action_context_reg_columns s s' :
  (1 <= n_cat_per_dim (cfg s))%Z ->
  _define_action_embed s = (inr tt, s') ->
  let A := Z.to_nat (n_actions (cfg s)) in
  forall d, (d < Z.to_nat (n_cat_dim (cfg s)))%nat ->
    sample_action_fast (gather_axis2 (p_e_a s') (seq 0 A) d)
      (random_state (cfg s) + Z.of_nat d)%Z
    = inr (column (action_context_reg s') d) /\
    length (column (action_context_reg s') d) = A /\
    forall a, (a < A)%nat ->
      (nth d (nth a (action_context_reg s') []) O
       < Z.to_nat (n_cat_per_dim (cfg s)))%nat.
Proof.
  intros Hk H A d Hd.
  pose proof (p_e_a_shape_after_embed s s' Hk H) as Hp.
  destruct (_define_action_embed_loop s s' H) as (s0 & Hc & Hp0 & Hacr & Hloop).
  assert (Hlt0 : forall j, In j (seq 0 (Z.to_nat (n_cat_dim (cfg s)))) ->
                         (j < Z.to_nat (n_cat_dim (cfg s)))%nat)
    by (intros j Hj; apply in_seq in Hj; lia).
  assert (Hsh0 : shape2 (action_context_reg s0) A
                   (Z.to_nat (n_cat_dim (cfg s))))
    by (rewrite Hacr; apply repeat_shape2).
  destruct (action_context_loop_columns _ _ A _ _ _ (seq_NoDup _ _) Hlt0
              (length_seq _ _) Hsh0 Hloop d) as [Hcol _].
  assert (Hin : In d (seq 0 (Z.to_nat (n_cat_dim (cfg s)))))
    by (apply in_seq; lia).
  specialize (Hcol Hin).
  rewrite Hc, Hp0 in Hcol. fold A in Hcol.
  split; [exact Hcol |].
  destruct (sample_action_fast_bound _ _ _ A
              (Z.to_nat (n_cat_per_dim (cfg s))) Hcol) as [Hlen Hlt].
  { pose proof (gather_axis2_rows (p_e_a s') (seq 0 A) d _ _ _ Hp) as Hg.
    rewrite length_seq in Hg. apply Hg.
    intros a Ha. apply in_seq in Ha. lia. }
  { lia. }
  split; [exact Hlen |].
  intros a Ha. rewrite <- nth_column.
  rewrite Forall_forall in Hlt. apply Hlt. apply nth_In. lia.
Qed.

End EmbedProperties.

(** * Further properties: the behavior policy and the logged actions *)

Section PolicyProperties.

Context {RS : RandomState}.







(** The policy of a call that returns, row by row: a distribution. *)
Lemma pi_b_row_total x s f s' r :
  Invariant s -> policy_contract s ->
  obtain_batch_body x s = (inr f, s') ->
  (r < Z.to_nat (Frame.n_rounds f))%nat ->
  length (nth r (Frame.pi_b f) []) = Z.to_nat (n_actions (cfg s)) /\
  Rsum (nth r (Frame.pi_b f) []) = 1.
Proof.
  intros Hinv Hpc H Hr.
  pose proof (body_shapes _ _ _ _ Hinv H) as Hsh. cbv zeta in Hsh.
  destruct Hsh as (_ & _ & _ & _ & _ & Hpi & _).
  specialize (Hpi Hpc). split.
  - eapply shape2_nth; eauto.
  - rewrite (row_as_map _ _ _ _ Hpi Hr). eapply pi_b_row_sum; eauto.
Qed.



(** The action of a round is drawn from the row of the round. *)
Lemma action_drawn x s f s' r :
  Invariant s -> policy_contract s ->
  obtain_batch_body x s = (inr f, s') ->
  (r < Z.to_nat (Frame.n_rounds f))%nat ->
  length (Frame.actions f) = Z.to_nat (Frame.n_rounds f) /\
  (nth r (Frame.actions f) O < Z.to_nat (n_actions (cfg s)))%nat /\
  0 < get2 (Frame.pi_b f) r (nth r (Frame.actions f) O).
Proof.
  intros Hinv Hpc H Hr.
  pose proof (body_shapes _ _ _ _ Hinv H) as Hsh. cbv zeta in Hsh.
  destruct Hsh as (_ & _ & _ & _ & _ & Hpi & Hact_len & _).
  specialize (Hpi Hpc).
  pose proof (obtain_batch_body_inv _ _ _ _ H) as Hb. cbv zeta in Hb.
  destruct Hb as (_ & _ & _ & _ & _ & _ & _ & Hact & _).
  destruct (pi_b_row_total _ _ _ _ r Hinv Hpc H Hr) as [Hlen Hsum].
  destruct (sample_action_fast_nth _ _ _ r Hact) as (u & Hu & Hsample).
  { destruct Hpi as [-> _]. exact Hr. }
  destruct (sample_row_positive _ u Hsum Hu) as [Hlt Hpos].
  rewrite <- Hsample in Hlt, Hpos. rewrite Hlen in Hlt.
  splits; auto. rewrite Hact_len. apply Hpi.
Qed.






End PolicyProperties.

(** * Further properties: the expected rewards and the embeddings of a call *)

Section RewardProperties.

Context {RS : RandomState}.

Lemma get3_drop_axis2 (t : tensor3) (u r k d : nat) :
  get3 (drop_axis2 u t) r k d = get3 t r k (u + d).
Proof.
  unfold get3, drop_axis2.
  replace (nth r (map (map (skipn u)) t) [])
    with (map (skipn u) (nth r t []))
    by (symmetry; apply (map_nth (map (skipn u)) t [] r)).
  assert (E : nth k (map (skipn u) (nth r t [])) []
              = skipn u (nth k (nth r t []) [])).
  { rewrite <- (map_nth (skipn u) (nth r t []) [] k). now rewrite skipn_nil. }
  rewrite E. apply nth_skipn.
Qed.

Lemma column_drop_axis1 (m : list (list nat)) (u d : nat) :
  column (drop_axis1 u m) d = column m (u + d).
Proof.
  unfold column, drop_axis1. rewrite map_map.
  apply map_ext. intros row. apply nth_skipn.
Qed.

Lemma nth_drop_axis1 (m : list (list nat)) (u r d : nat) :
  nth d (nth r (drop_axis1 u m) []) O = nth (u + d) (nth r m []) O.
Proof. now rewrite <- !nth_column, column_drop_axis1. Qed.

(** The loop over the dimensions that fills [action_embed]. *)
Lemma embed_loop_columns (p : tensor3) (actions : list nat) (l : list nat)
  (ae0 ae : list (list nat)) (s1 s2 : self_t) (n k : nat) :
  NoDup l -> (forall d, In d l -> (d < k)%nat) -> length actions = n ->
  shape2 ae0 n k ->
  for_each l
    (fun action_embed d =>
       col <- lift (sample_action_fast (gather_axis2 p actions d)
                      (Z.of_nat d)) ;;
       ret (assign_col action_embed d col))
    ae0 s1 = (inr ae, s2) ->
  forall d,
    (In d l ->
     sample_action_fast (gather_axis2 p actions d) (Z.of_nat d)
     = inr (column ae d)) /\
    (~ In d l -> column ae d = column ae0 d).
Proof.
  intros Hnd. revert ae0 s1. induction Hnd as [| d0 l Hnotin Hnd IH];
    intros ae0 s1 Hlt Hact Hsh H d.
  - simpl in H. unfold ret in H. inversion H; subst.
    split; [contradiction | auto].
  - simpl in H. monad_inv H. monad_inv Hstep.
    apply lift_inr_inv in Hstep0. destruct Hstep0 as [Hcol ->].
    unfold ret in Hrest0. inversion Hrest0; subst a s. clear Hrest0.
    assert (Hlen : length a0 = n).
    { apply sample_action_fast_inv in Hcol. destruct Hcol as [_ ->].
      unfold gather_axis2. now rewrite length_map. }
    specialize (IH (assign_col ae0 d0 a0) s1
                  (fun d' Hd' => Hlt d' (or_intror Hd')) Hact
                  (assign_col_shape _ d0 a0 _ _ Hsh) Hrest).
    split.
    + intros [<- | Hin].
      * destruct (IH d0) as [_ Hkeep]. rewrite (Hkeep Hnotin).
        rewrite (column_assign_col_same _ _ _ n k); auto.
        apply Hlt. now left.
      * now apply IH.
    + intros Hout. destruct (IH d) as [_ Hkeep].
      rewrite Hkeep by (intros Hin; apply Hout; now right).
      apply column_assign_col_other. intros ->. apply Hout. now left.
Qed.


(** The two arrays of expected rewards of a call, entry by entry. *)
Lemma expected_rewards_entries x s f s' rf :
  Invariant s -> reward_function (cfg s) = Some rf ->
  obtain_batch_body x s = (inr f, s') ->
  let N := Z.to_nat (Frame.n_rounds f) in
  let A := Z.to_nat (n_actions (cfg s)) in
  let K := Z.to_nat (n_cat_per_dim (cfg s)) in
  let D := Z.to_nat (n_cat_dim (cfg s)) in
  Frame.q_x_e f
  = fst (fold_left (q_step s rf (Frame.contexts f)) (seq 0 D)
           (zeros3 N K D, zeros3 N A D)) /\
  (forall r k d, (r < N)%nat -> (k < K)%nat -> (d < D)%nat ->
     get3 (Frame.q_x_e f) r k d
     = get2 (rf (Frame.contexts f) (nth d (latent_cat_param s) [])
               (random_state (cfg s) + Z.of_nat d)%Z) r k) /\
  (forall r a, (r < N)%nat -> (a < A)%nat ->
     get2 (Frame.q_x_a f) r a
     = Rsum (map (fun d =>
                    get1 (Frame.cat_dim_importance f) d *
                    Rsum (map (fun k => get3 (p_e_a s) a k d
                                        * get3 (Frame.q_x_e f) r k d)
                              (seq 0 K)))
                 (seq 0 D))).
Proof.
  intros Hinv Hrf Hf. cbv zeta.
  pose proof (body_shapes _ _ _ _ Hinv Hf) as Hsh. cbv zeta in Hsh.
  destruct Hsh as (_ & Hw & _).
  pose proof (obtain_batch_body_inv _ _ _ _ Hf) as Hb. cbv zeta in Hb.
  destruct Hb as (_ & _ & _ & _ & (q & Hq & Hqe & Hqa) & _).
  destruct Hq as [(rf' & Erf & Eq) | (Enone & _)]; [| congruence].
  rewrite Hrf in Erf. inversion Erf; subst rf'. clear Erf.
  set (N := Z.to_nat (Frame.n_rounds f)) in *.
  set (A := Z.to_nat (n_actions (cfg s))) in *.
  set (K := Z.to_nat (n_cat_per_dim (cfg s))) in *.
  set (D := Z.to_nat (n_cat_dim (cfg s))) in *.
  assert (Hsh3 : shape3 (fst q) N K D /\ shape3 (snd q) N A D).
  { rewrite Eq. apply q_loop_shape; simpl; apply zeros3_shape. }
  destruct Hsh3 as [Hsh_e Hsh_a].
  assert (Hval : forall r d, (r < N)%nat -> (d < D)%nat ->
            (forall k, (k < K)%nat ->
               get3 (fst q) r k d
               = get2 (rf (Frame.contexts f) (nth d (latent_cat_param s) [])
                         (random_state (cfg s) + Z.of_nat d)%Z) r k) /\
            (forall a, (a < A)%nat ->
               get3 (snd q) r a d
               = Rsum (map (fun k => get3 (fst q) r k d * get3 (p_e_a s) a k d)
                           (seq 0 K)))).
  { intros r d Hr Hd.
    destruct (q_loop_values s rf (Frame.contexts f) N K A D (seq 0 D)
                (zeros3 N K D, zeros3 N A D)) with (r := r) (j := d)
      as [He Ha]; simpl; auto using zeros3_shape, seq_NoDup.
    { apply (inv_p_e_a _ Hinv). }
    { intros i Hi. apply in_seq in Hi. lia. }
    rewrite <- Eq in He, Ha.
    destruct (in_dec Nat.eq_dec d (seq 0 D)) as [_ | Hn];
      [| exfalso; apply Hn; apply in_seq; lia].
    split; assumption. }
  splits.
  - now rewrite Hqe, Eq.
  - intros r k d Hr Hk Hd. rewrite Hqe. now apply Hval.
  - intros r a Hr Ha. rewrite Hqa.
    rewrite (sum_mul_axis2_get _ _ N A D) by auto.
    apply Rsum_ext_in. intros d Hd. apply in_seq in Hd.
    rewrite Rmult_comm. f_equal.
    destruct (Hval r d Hr ltac:(lia)) as [_ Ha']. rewrite (Ha' a Ha).
    rewrite Hqe. apply Rsum_ext_in. intros k _. apply Rmult_comm.
Qed.

(** X11. The returned [q_x_e], entry by entry: for every observed
    dimension it holds what the reward function returns for the contexts
    of the call and the latent parameters of that dimension, called with
    the seed [random_state + d]; the turns of the loop for the other
    dimensions leave it alone.  The index [d] of the returned array is the
    internal dimension [n_unobserved_cat_dim + d] (the counter [self]
    holds, padding slot included). *)
Theorem returned_q_x_e_entries x s b s' rf :
  Invariant s -> reward_shape s ->
  reward_function (cfg s) = Some rf ->
  obtain_batch_bandit_feedback x s = (inr b, s') ->
  let U := Z.to_nat (n_unobserved_cat_dim (cfg s)) in
  forall r k d,
    (r < Z.to_nat (Feedback.n_rounds b))%nat ->
    (k < Z.to_nat (n_cat_per_dim (cfg s)))%nat ->
    (U + d < Z.to_nat (n_cat_dim (cfg s)))%nat ->
    get3 (Feedback.q_x_e b) r k d
    = get2 (rf (Feedback.context b) (nth (U + d) (latent_cat_param s) [])
              (random_state (cfg s) + Z.of_nat (U + d))%Z) r k.
Proof.
  intros Hinv _ Hrf H U r k d Hr Hk Hd.
  pose proof (obtain_advances _ _ _ _ H) as Hadv.
  apply advances_fields in Hadv. destruct Hadv as (Hc' & _).
  apply obtain_inv in H. destruct H as (f & Hf & ->).
  simpl in *. rewrite Hc'. fold U. rewrite get3_drop_axis2.
  destruct (expected_rewards_entries _ _ _ _ rf Hinv Hrf Hf) as (_ & He & _).
  now apply He.
Qed.




(** X14. The arrays of a returned dictionary agree on the number of
    rounds: [n_rounds] is the integer given, [action], [reward] and
    [pscore] have [n_rounds] entries, [expected_reward] has the shape
    [(n_rounds, n_actions)], and [position] is [None]. *)
Theorem returned_arrays_are_aligned x s b s' :
  Invariant s -> policy_contract s ->
  obtain_batch_bandit_feedback x s = (inr b, s') ->
  let N := Z.to_nat (Feedback.n_rounds b) in
  x = PyInt (Feedback.n_rounds b) /\ (1 <= Feedback.n_rounds b)%Z /\
  Feedback.n_actions b = n_actions (cfg s) /\
  Feedback.position b = None /\
  length (Feedback.action b) = N /\
  length (Feedback.pscore b) = N /\
  match Feedback.reward b with
  | IntRewards r => length r = N
  | FloatRewards r => length r = N
  end /\
  shape2 (Feedback.expected_reward b) N (Z.to_nat (n_actions (cfg s))).
Proof.
  intros Hinv Hpc H.
  pose proof (obtain_advances _ _ _ _ H) as Hadv.
  apply advances_fields in Hadv. destruct Hadv as (Hc' & _).
  apply obtain_inv in H. destruct H as (f & Hf & ->).
  pose proof (body_shapes _ _ _ _ Hinv Hf) as Hsh. cbv zeta in Hsh.
  destruct Hsh as (_ & _ & _ & Hqa & _ & Hpi & Hact & _ & _ & Hrew).
  specialize (Hpi Hpc).
  pose proof (obtain_batch_body_inv _ _ _ _ Hf) as Hb. cbv zeta in Hb.
  destruct Hb as (Hx & Hn & _).
  assert (HlenA : length (Frame.actions f) = Z.to_nat (Frame.n_rounds f))
    by (rewrite Hact; apply Hpi).
  cbv zeta. simpl. rewrite Hc'. splits; auto.
  unfold index_pairs. rewrite length_map, length_combine, length_seq. lia.
Qed.

(** X15. The returned [action_embed], column by column: the column of an
    observed dimension is what [sample_action_fast] returns for the rows
    [p_e_a[action, :, d]] of the logged actions with the seed [d] (the
    internal index of the dimension, whatever [random_state] is); no later
    turn of the loop overwrites it, and every entry is a category index
    below [n_cat_per_dim]. *)
Theorem returned_action_embed_columns x s b s' :
  Invariant s -> policy_contract s ->
  obtain_batch_bandit_feedback x s = (inr b, s') ->
  let U := Z.to_nat (n_unobserved_cat_dim (cfg s)) in
  forall d, (U + d < Z.to_nat (n_cat_dim (cfg s)))%nat ->
    sample_action_fast (gather_axis2 (p_e_a s) (Feedback.action b) (U + d))
      (Z.of_nat (U + d))
    = inr (column (Feedback.action_embed b) d) /\
    forall r, (r < Z.to_nat (Feedback.n_rounds b))%nat ->
      (nth d (nth r (Feedback.action_embed b) []) O
       < Z.to_nat (n_cat_per_dim (cfg s)))%nat.
Proof.
  intros Hinv Hpc H U d Hd.
  pose proof (obtain_advances _ _ _ _ H) as Hadv.
  apply advances_fields in Hadv. destruct Hadv as (Hc' & _).
  apply obtain_inv in H. destruct H as (f & Hf & ->).
  simpl. rewrite Hc'. fold U.
  pose proof (obtain_batch_body_inv _ _ _ _ Hf) as Hb. cbv zeta in Hb.
  destruct Hb as (_ & _ & _ & _ & _ & _ & _ & _ & (s1 & Hloop) & _).
  assert (HlenA : length (Frame.actions f) = Z.to_nat (Frame.n_rounds f)).
  { destruct (Nat.eq_dec (Z.to_nat (Frame.n_rounds f)) 0) as [E0 | E0].
    - pose proof (obtain_batch_body_inv _ _ _ _ Hf) as Hb. cbv zeta in Hb.
      destruct Hb as (_ & Hn & _). lia.
    - apply (action_drawn _ _ _ _ O Hinv Hpc Hf). lia. }
  assert (Hlt0 : forall j, In j (seq 0 (Z.to_nat (n_cat_dim (cfg s)))) ->
                         (j < Z.to_nat (n_cat_dim (cfg s)))%nat)
    by (intros j Hj; apply in_seq in Hj; lia).
  destruct (embed_loop_columns _ _ _ _ _ _ _ _ _ (seq_NoDup _ _) Hlt0 HlenA
              (repeat_shape2 _ _ _) Hloop (U + d)) as [Hcol _].
  assert (Hin : In (U + d)%nat (seq 0 (Z.to_nat (n_cat_dim (cfg s)))))
    by (apply in_seq; lia).
  specialize (Hcol Hin).
  rewrite column_drop_axis1. split; [exact Hcol |].
  intros r Hr. rewrite nth_drop_axis1, <- nth_column.
  destruct (sample_action_fast_bound _ _ _ (Z.to_nat (Frame.n_rounds f))
              (Z.to_nat (n_cat_per_dim (cfg s))) Hcol) as [Hlen Hlt].
  { rewrite <- HlenA.
    apply (gather_axis2_rows _ _ _ _ _ _ (inv_p_e_a _ Hinv)).
    intros a Ha. destruct (In_nth _ _ O Ha) as (q & Hq & <-).
    apply (action_drawn _ _ _ _ q Hinv Hpc Hf). lia. }
  { pose proof (inv_n_cat_per_dim _ Hinv). lia. }
  rewrite Forall_forall in Hlt. apply Hlt. apply nth_In. lia.
Qed.


(** X16. The Dirichlet parameters are uniform draws, and numpy's uniform
    can draw 0.0.  When one of them is not positive the call raises the
    [ValueError] of [dirichlet]; by then the generator of the instance has
    made the normal and the uniform draw of the call, so unlike a refused
    [n_rounds] the failed call leaves the generator advanced (and nothing
    else changed). *)
Theorem zero_dirichlet_parameter_refused n s z g :
  (1 <= n)%Z ->
  normal (zeros1 (Z.to_nat n * Z.to_nat (dim_context (cfg s)))) 1 (random_ s)
  = Some (z, g) ->
  let k := Z.to_nat (n_cat_dim (cfg s) - n_irrelevant_cat_dim (cfg s)) in
  ~ Forall (fun u => 0 < u) (fst (uniform k g)) ->
  obtain_batch_bandit_feedback (PyInt n) s
  = (inl (ValueError "alpha <= 0"), set_random_ s (snd (uniform k g))).
Proof.
  intros Hn Hz k Halpha.
  unfold obtain_batch_bandit_feedback, obtain_batch_body.
  unfold bind at 1 2. unfold lift at 1.
  rewrite (check_scalar_min_ok _ _ _ Hn).
  unfold bind at 1. unfold get at 1. cbv zeta.
  unfold bind at 1. unfold draw_opt at 1. rewrite Hz.
  unfold bind at 1. unfold draw at 1. simpl random_. fold k.
  destruct (uniform k g) as [alpha g2] eqn:Hu. simpl in Halpha.
  unfold bind at 1. unfold draw_opt at 1. simpl random_.
  destruct (dirichlet alpha g2) as [[w g3] |] eqn:Hw.
  - exfalso. apply Halpha. apply (dirichlet_defined alpha g2). congruence.
  - reflexivity.
Qed.

(** The draws behind the expected rewards of a call. *)
Lemma obtain_batch_body_draws x s f s' :
  obtain_batch_body x s = (inr f, s') ->
  let c := cfg s in
  let N := Z.to_nat (Frame.n_rounds f) in
  let k := Z.to_nat (n_cat_dim c - n_irrelevant_cat_dim c) in
  x = PyInt (Frame.n_rounds f) /\
  exists z g1 w g3,
    normal (zeros1 (N * Z.to_nat (dim_context c))) 1 (random_ s)
    = Some (z, g1) /\
    dirichlet (fst (uniform k g1)) (snd (uniform k g1)) = Some (w, g3) /\
    Frame.contexts f = reshape2 N (Z.to_nat (dim_context c)) z /\
    Frame.cat_dim_importance f
    = assign_from (zeros1 (Z.to_nat (n_cat_dim c)))
        (Z.to_nat (n_irrelevant_cat_dim c)) w.
Proof.
  intros H. unfold obtain_batch_body in H.
  monad_inv H.
  apply lift_inr_inv in Hstep. destruct Hstep as [Hn ->].
  apply check_scalar_inv in Hn. destruct Hn as [-> Hn].
  unfold get in Hstep0. inversion Hstep0; subst a0 s1. clear Hstep0.
  apply draw_opt_inv in Hstep1. destruct Hstep1 as (g1 & Hz & ->).
  apply draw_inv in Hstep2. destruct Hstep2 as (g2 & Hu & ->).
  apply draw_opt_inv in Hstep3. destruct Hstep3 as (g3 & Hw & ->).
  simpl in Hu, Hw.
  unfold ret in Hrest0. inversion Hrest0; subst f. clear Hrest0.
  cbn [Frame.n_rounds Frame.contexts Frame.cat_dim_importance].
  split; [reflexivity |].
  exists a1, g1, a3, g3. rewrite Hu. simpl. auto.
Qed.

Lemma fold_left_ext_in {A B : Type} (f g : A -> B -> A) (l : list B) (a : A) :
  (forall a b, In b l -> f a b = g a b) -> fold_left f l a = fold_left g l a.
Proof.
  revert a. induction l as [| b l IH]; intros a H; simpl; [reflexivity |].
  rewrite (H a b) by now left. apply IH. intros; apply H; now right.
Qed.

(** X17. The expected rewards do not depend on the behavior policy: two
    instances in the same generator state that differ at most in
    [behavior_policy_function], [beta], [n_deficient_actions] and
    [action_context] return, for the same [n_rounds], the same [context],
    [q_x_e], [expected_reward] and [p_e_a]. *)
Theorem expected_rewards_ignore_behavior_policy x s1 s2 b1 b2 s1' s2' :
  same_rewards s1 s2 ->
  obtain_batch_bandit_feedback x s1 = (inr b1, s1') ->
  obtain_batch_bandit_feedback x s2 = (inr b2, s2') ->
  Feedback.n_rounds b1 = Feedback.n_rounds b2 /\
  Feedback.context b1 = Feedback.context b2 /\
  Feedback.q_x_e b1 = Feedback.q_x_e b2 /\
  Feedback.expected_reward b1 = Feedback.expected_reward b2 /\
  Feedback.p_e_a b1 = Feedback.p_e_a b2.
Proof.
  intros (Hg & Hl & Hp & Hna & Hdc & Hrf & Hk & Hd & Hi & Hu & Hrs) H1 H2.
  pose proof (obtain_advances _ _ _ _ H1) as Ha1.
  pose proof (obtain_advances _ _ _ _ H2) as Ha2.
  apply advances_fields in Ha1, Ha2.
  destruct Ha1 as (Hc1 & _ & Hp1 & _). destruct Ha2 as (Hc2 & _ & Hp2 & _).
  apply obtain_inv in H1, H2.
  destruct H1 as (f1 & Hf1 & ->). destruct H2 as (f2 & Hf2 & ->).
  pose proof (obtain_batch_body_draws _ _ _ _ Hf1) as D1.
  pose proof (obtain_batch_body_draws _ _ _ _ Hf2) as D2.
  cbv zeta in D1, D2.
  destruct D1 as (Hx1 & z1 & g1 & w1 & g1' & Hz1 & Hw1 & Hctx1 & Himp1).
  destruct D2 as (Hx2 & z2 & g2 & w2 & g2' & Hz2 & Hw2 & Hctx2 & Himp2).
  assert (Hn : Frame.n_rounds f1 = Frame.n_rounds f2) by congruence.
  rewrite Hn, Hdc, Hg, Hz2 in Hz1. inversion Hz1; subst z1 g1. clear Hz1.
  rewrite Hd, Hi, Hw2 in Hw1. inversion Hw1; subst w1 g1'. clear Hw1.
  assert (Hctx : Frame.contexts f1 = Frame.contexts f2)
    by (rewrite Hctx1, Hctx2, Hn, Hdc; reflexivity).
  assert (Himp : Frame.cat_dim_importance f1 = Frame.cat_dim_importance f2)
    by (rewrite Himp1, Himp2, Hd, Hi; reflexivity).
  pose proof (obtain_batch_body_inv _ _ _ _ Hf1) as B1.
  pose proof (obtain_batch_body_inv _ _ _ _ Hf2) as B2.
  cbv zeta in B1, B2.
  destruct B1 as (_ & _ & _ & _ & (q1 & Hq1 & Hqe1 & Hqa1) & _).
  destruct B2 as (_ & _ & _ & _ & (q2 & Hq2 & Hqe2 & Hqa2) & _).
  assert (Hq : q1 = q2).
  { destruct Hq1 as [(rf1 & E1 & ->) | (E1 & _ & ->)];
      destruct Hq2 as [(rf2 & E2 & ->) | (E2 & _ & ->)];
      try congruence.
    assert (rf1 = rf2) by congruence. subst rf2.
    rewrite Hn, Hk, Hd, Hna, Hctx.
    apply fold_left_ext_in. intros q d _.
    unfold q_step. now rewrite Hl, Hp, Hrs. }
  simpl. rewrite Hc1, Hc2, Hp1, Hp2, Hqe1, Hqe2, Hqa1, Hqa2.
  rewrite Hq, Himp, Hu, Hp. splits; auto.
Qed.

End RewardProperties.

(** * Further properties: what the construction establishes *)

Section InvariantProperties.

Context {RS : RandomState}.
Variable logistic_reward_function : callable.
Variable linear_reward_function : callable.

Local Abbreviation internal :=
  (internal_config logistic_reward_function linear_reward_function).

Lemma body_establishes s s' :
  (2 <= n_actions (cfg s))%Z -> (1 <= dim_context (cfg s))%Z ->
  (0 <= n_deficient_actions (cfg s) <= n_actions (cfg s) - 1)%Z ->
  (reward_type (cfg s) = CONTINUOUS -> 0 < reward_std (cfg s)) ->
  post_init_body logistic_reward_function linear_reward_function s
  = (inr tt, s') ->
  Invariant s' /\ stochastic_embedding s' /\
  random_state (cfg s') = random_state (cfg s).
Proof.
  intros Hna Hdc Hnd Hstd H.
  apply post_init_body_inv in H. cbv zeta in H.
  destruct H as ((Hk & Hl & Hd & Hp & Hu & Hi) & Hc & s1 & Hdef & Hc1
                 & Hr & Hlat & Hpea & Hacr).
  pose proof (fun H0 => p_e_a_shape_after_embed _ _ H0 Hdef) as Hshape.
  simpl in Hshape. specialize (Hshape Hk).
  pose proof (_define_action_embed_inv _ _ Hdef) as Hinv. cbv zeta in Hinv.
  simpl in Hinv, Hshape.
  destruct Hinv as (_ & (z & g & x & Hz & Hx & Hlz & Hpx) & Hacr1 & Hseeds).
  assert (Hpos : forall a k d,
             (a < Z.to_nat (n_actions (cfg s)))%nat ->
             (k < Z.to_nat (n_cat_per_dim (cfg s)))%nat ->
             (d < Z.to_nat (n_cat_dim (cfg s) + 1))%nat ->
             0 < get3 (p_e_a s1) a k d <= 1).
  { intros a k d Ha Hk' Hd'. rewrite Hpx. eapply softmax3_entry; eauto.
    apply reshape3_shape. pose proof (normal_length _ _ _ _ _ Hx) as Hlen.
    rewrite Hlen. apply repeat_length. }
  destruct (internal_config_fields logistic_reward_function
              linear_reward_function (cfg s))
    as (F1 & F2 & F3 & F4 & F5 & F6 & F7 & F8 & F9 & F10 & F11 & F12 & F13
        & F14).
  assert (Hfirst : seed (random_state (cfg s) + Z.of_nat 0)%Z <> None)
    by (apply Hseeds; lia).
  assert (Hlast : seed (random_state (cfg s)
                        + Z.of_nat (Z.to_nat (n_cat_dim (cfg s))))%Z <> None)
    by (apply Hseeds; lia).
  apply seed_defined in Hfirst, Hlast.
  apply normal_length in Hz. unfold zeros1 in Hz. rewrite repeat_length in Hz.
  splits.
  - constructor;
      rewrite Hc, ?F1, ?F2, ?F3, ?F4, ?F7, ?F8, ?F9, ?F10, ?F11, ?F12, ?F13;
      auto; try lia.
    + rewrite Hlat, Hlz. now apply reshape3_shape.
    + rewrite Hpea. exact Hshape.
    + rewrite Hacr. exact Hacr1.
  - intros a d Ha Hd'. rewrite Hc in Ha, Hd'. rewrite F1 in Ha.
    rewrite F9 in Hd'. rewrite Hc, F7, Hpea. split.
    + intros k.
      destruct (Nat.lt_ge_cases k (Z.to_nat (n_cat_per_dim (cfg s))))
        as [Hlt | Hge].
      * left. apply (Hpos a k d Ha Hlt Hd').
      * rewrite get3_overflow_col; [lra |].
        destruct (shape3_nth (p_e_a s1) _ _ _ a Hshape Ha) as [-> _].
        exact Hge.
    + rewrite Hpx.
      apply (softmax3_axis1_sum _ (Z.to_nat (n_actions (cfg s)))
               (Z.to_nat (n_cat_per_dim (cfg s)))
               (Z.to_nat (n_cat_dim (cfg s) + 1)) a d); auto; [| lia].
      apply reshape3_shape. apply normal_length in Hx.
      rewrite Hx. apply repeat_length.
  - now rewrite Hc, F13.
Qed.

(** X18. The construction establishes what the calls rely on.  When the
    base class has accepted [n_actions >= 2], [dim_context >= 1],
    [0 <= n_deficient_actions <= n_actions - 1] and a positive [reward_std]
    for continuous rewards, an instance whose [__post_init__] returns
    satisfies the class invariant (counters within their incremented
    bounds, a reward function present, stored arrays of the right shapes,
    seeds [random_state + d] and [d] that numpy accepts) and its [p_e_a]
    holds a distribution over the categories for every action and
    dimension. *)
Theorem construction_establishes_invariant s s' :
  (2 <= n_actions (cfg s))%Z -> (1 <= dim_context (cfg s))%Z ->
  (0 <= n_deficient_actions (cfg s) <= n_actions (cfg s) - 1)%Z ->
  (reward_type (cfg s) = CONTINUOUS -> 0 < reward_std (cfg s)) ->
  post_init_body logistic_reward_function linear_reward_function s
  = (inr tt, s') ->
  Invariant s' /\ stochastic_embedding s'.
Proof.
  intros Hna Hdc Hnd Hstd H.
  destruct (body_establishes s s' Hna Hdc Hnd Hstd H) as (Hinv & Hst & _).
  now split.
Qed.

End InvariantProperties.

(** * Further properties: the behavior policy does not see the rewards *)

Section PolicyRewardProperties.

Context {RS : RandomState}.

Lemma zeros_like_shape_eq (m : matrix) (n a : nat) :
  shape2 m n a -> zeros_like m = zeros2 n a.
Proof.
  intros [Hn Hrows]. unfold zeros_like, zeros2. subst n.
  induction Hrows as [| row m Hrow _ IH]; simpl; [reflexivity |].
  now rewrite Hrow, IH.
Qed.

(** The loop that fills [action_embed] does not look at [self]. *)
Lemma embed_loop_any_state (p : tensor3) (actions l : list nat)
  (ae0 : list (list nat)) (s1 s2 : self_t) :
  fst (for_each l
         (fun action_embed d =>
            col <- lift (sample_action_fast (gather_axis2 p actions d)
                           (Z.of_nat d)) ;;
            ret (assign_col action_embed d col))
         ae0 s1)
  = fst (for_each l
           (fun action_embed d =>
              col <- lift (sample_action_fast (gather_axis2 p actions d)
                             (Z.of_nat d)) ;;
              ret (assign_col action_embed d col))
           ae0 s2).
Proof.
  revert ae0. induction l as [| d l IH]; intros ae0; simpl; [reflexivity |].
  unfold bind at 1 2 4 5. unfold lift at 1 2.
  destruct (sample_action_fast (gather_axis2 p actions d) (Z.of_nat d))
    as [e | col]; [reflexivity |].
  unfold ret at 1 3. apply IH.
Qed.

(** The draws behind the policy of a call. *)
Lemma obtain_batch_body_policy x s f s' :
  obtain_batch_body x s = (inr f, s') ->
  let c := cfg s in
  let N := Z.to_nat (Frame.n_rounds f) in
  let A := Z.to_nat (n_actions c) in
  let k := Z.to_nat (n_cat_dim c - n_irrelevant_cat_dim c) in
  let n_supported := Z.to_nat (n_actions c - n_deficient_actions c) in
  exists z g1 w g3,
    normal (zeros1 (N * Z.to_nat (dim_context c))) 1 (random_ s)
    = Some (z, g1) /\
    dirichlet (fst (uniform k g1)) (snd (uniform k g1)) = Some (w, g3) /\
    Frame.contexts f = reshape2 N (Z.to_nat (dim_context c)) z /\
    Frame.pi_b f =
      (if (0 <? n_deficient_actions c)%Z
       then
         let idx := (tile_T N n_supported,
                     top_k n_supported
                       (reshape2 N A (fst (gumbel (N * A) g3)))) in
         assign_index2 (zeros_like (Frame.q_x_a f)) idx
           (softmax (scale2 (beta c) (index2 (Frame.pi_b_logits f) idx)))
       else softmax (scale2 (beta c) (Frame.pi_b_logits f))).
Proof.
  intros H. unfold obtain_batch_body in H.
  monad_inv H.
  apply lift_inr_inv in Hstep. destruct Hstep as [Hn ->].
  apply check_scalar_inv in Hn. destruct Hn as [-> Hn].
  unfold get in Hstep0. inversion Hstep0; subst a0 s1. clear Hstep0.
  apply draw_opt_inv in Hstep1. destruct Hstep1 as (g1 & Hz & ->).
  apply draw_inv in Hstep2. destruct Hstep2 as (g2 & Hu & ->).
  apply draw_opt_inv in Hstep3. destruct Hstep3 as (g3 & Hw & ->).
  simpl in Hu, Hw.
  apply q_loop_inv in Hstep4. destruct Hstep4 as [-> _].
  unfold ret in Hrest0. inversion Hrest0; subst f. clear Hrest0.
  cbn [Frame.n_rounds Frame.contexts Frame.q_x_a Frame.pi_b_logits Frame.pi_b].
  exists a1, g1, a3, g3. rewrite Hu. simpl fst. simpl snd.
  splits; auto.
  destruct (0 <? n_deficient_actions (cfg s))%Z.
  - monad_inv Hstep5. apply draw_inv in Hstep. destruct Hstep as (g4 & Hg & ->).
    unfold ret in Hrest. inversion Hrest; subst a5 s6.
    simpl in Hg. rewrite Hg. reflexivity.
  - unfold ret in Hstep5. inversion Hstep5; subst a5 s6. reflexivity.
Qed.

(** X19. With a behavior-policy function the logged policy does not
    depend on the rewards: two instances in the same generator state that
    hold the same policy function, [beta], [n_deficient_actions] and
    [p_e_a] and differ at most in [reward_function], [reward_type],
    [reward_std] and [latent_cat_param] return, for the same [n_rounds],
    the same [context], [pi_b], [action], [pscore] and [action_embed]. *)
Theorem policy_ignores_reward_function x s1 s2 b1 b2 s1' s2' :
  Invariant s1 -> Invariant s2 -> same_policy s1 s2 ->
  obtain_batch_bandit_feedback x s1 = (inr b1, s1') ->
  obtain_batch_bandit_feedback x s2 = (inr b2, s2') ->
  Feedback.context b1 = Feedback.context b2 /\
  Feedback.pi_b b1 = Feedback.pi_b b2 /\
  Feedback.action b1 = Feedback.action b2 /\
  Feedback.pscore b1 = Feedback.pscore b2 /\
  Feedback.action_embed b1 = Feedback.action_embed b2.
Proof.
  intros Hinv1 Hinv2
    (Hg & Hp & Hna & Hdc & Hbp & Hsome & Hbeta & Hd & Hi & Hu & Hnd & Hrs & Hac)
    H1 H2.
  pose proof (obtain_advances _ _ _ _ H1) as Ha1.
  pose proof (obtain_advances _ _ _ _ H2) as Ha2.
  apply advances_fields in Ha1, Ha2.
  destruct Ha1 as (Hc1 & _). destruct Ha2 as (Hc2 & _).
  apply obtain_inv in H1, H2.
  destruct H1 as (f1 & Hf1 & ->). destruct H2 as (f2 & Hf2 & ->).
  pose proof (obtain_batch_body_policy _ _ _ _ Hf1) as P1.
  pose proof (obtain_batch_body_policy _ _ _ _ Hf2) as P2.
  cbv zeta in P1, P2.
  destruct P1 as (z1 & g1 & w1 & g1' & Hz1 & Hw1 & Hctx1 & Hpi1).
  destruct P2 as (z2 & g2 & w2 & g2' & Hz2 & Hw2 & Hctx2 & Hpi2).
  pose proof (obtain_batch_body_inv _ _ _ _ Hf1) as B1.
  pose proof (obtain_batch_body_inv _ _ _ _ Hf2) as B2.
  cbv zeta in B1, B2.
  destruct B1 as (Hx1 & _ & _ & _ & _ & Hlog1 & _ & Hact1 & (t1 & Hae1) & _).
  destruct B2 as (Hx2 & _ & _ & _ & _ & Hlog2 & _ & Hact2 & (t2 & Hae2) & _).
  assert (Hn : Frame.n_rounds f1 = Frame.n_rounds f2) by congruence.
  rewrite Hn, Hdc, Hg, Hz2 in Hz1. inversion Hz1; subst z1 g1. clear Hz1.
  rewrite Hd, Hi, Hw2 in Hw1. inversion Hw1; subst w1 g1'. clear Hw1.
  assert (Hctx : Frame.contexts f1 = Frame.contexts f2)
    by (rewrite Hctx1, Hctx2, Hn, Hdc; reflexivity).
  assert (Hlog : Frame.pi_b_logits f1 = Frame.pi_b_logits f2).
  { rewrite Hlog1, Hlog2, <- Hbp.
    destruct (behavior_policy_function (cfg s1)) as [bp |]; [| congruence].
    now rewrite Hctx, Hac, Hrs. }
  assert (Hzeros : zeros_like (Frame.q_x_a f1) = zeros_like (Frame.q_x_a f2)).
  { pose proof (body_shapes _ _ _ _ Hinv1 Hf1) as S1.
    pose proof (body_shapes _ _ _ _ Hinv2 Hf2) as S2.
    cbv zeta in S1, S2.
    destruct S1 as (_ & _ & _ & Hq1 & _). destruct S2 as (_ & _ & _ & Hq2 & _).
    rewrite (zeros_like_shape_eq _ _ _ Hq1), (zeros_like_shape_eq _ _ _ Hq2).
    now rewrite Hn, Hna. }
  assert (Hpi : Frame.pi_b f1 = Frame.pi_b f2).
  { rewrite Hpi1, Hpi2, Hzeros, Hlog, Hn, Hna, Hnd, Hbeta. reflexivity. }
  assert (Hact : Frame.actions f1 = Frame.actions f2).
  { rewrite Hpi, Hrs, Hact2 in Hact1. now inversion Hact1. }
  assert (Hae : Frame.action_embed f1 = Frame.action_embed f2).
  { pose proof (embed_loop_any_state (p_e_a s2) (Frame.actions f2)
                  (seq 0 (Z.to_nat (n_cat_dim (cfg s2))))
                  (repeat (repeat O (Z.to_nat (n_cat_dim (cfg s2))))
                     (Z.to_nat (Frame.n_rounds f2))) t1 t2) as E.
    rewrite Hp, Hact, Hd, Hn in Hae1. rewrite Hae1, Hae2 in E.
    simpl in E. now inversion E. }
  simpl. rewrite Hc1, Hc2, Hctx, Hpi, Hact, Hae, Hn, Hu. splits; auto.
Qed.

End PolicyRewardProperties.

(** * The class run on the example configurations *)

#[local] Existing Instance fixed_generator.

(** The array operations on small inputs. *)

Example check_scalar_zero :
  check_scalar (PyInt 0) "n_rounds" (Some 1%Z) None = inl (ValueError "n_rounds").
Proof. reflexivity. Qed.

Example check_scalar_float :
  check_scalar (PyFloat 3) "n_rounds" (Some 1%Z) None = inl (TypeError "n_rounds").
Proof. reflexivity. Qed.

Example check_scalar_three :
  check_scalar (PyInt 3) "n_rounds" (Some 1%Z) None = inr 3%Z.
Proof. reflexivity. Qed.

Example tile_T_2_3 : tile_T 2 3 = [[0; 0; 0]; [1; 1; 1]]%nat.
Proof. reflexivity. Qed.

Example chunks_2_3 :
  chunks 2 3 [1; 2; 3; 4; 5; 6]%nat = [[1; 2; 3]; [4; 5; 6]]%nat.
Proof. reflexivity. Qed.

Example argsort_3_1_2 : argsort [3; 1; 2] = [1; 2; 0]%nat.
Proof.
  unfold argsort, get1. simpl.
  repeat match goal with
         | |- context [Rle_dec ?a ?b] => destruct (Rle_dec a b); try lra; simpl
         end.
  reflexivity.
Qed.

Example top_2_of_3_1_2 : top_k 2 [[3; 1; 2]] = [[0; 2]]%nat.
Proof. unfold top_k. simpl map. now rewrite argsort_3_1_2. Qed.

Example index2_rows :
  index2 [[10; 11; 12]; [20; 21; 22]] (tile_T 2 2, [[2; 0]; [1; 2]]%nat)
  = [[12; 10]; [21; 22]].
Proof. reflexivity. Qed.

Example assign_index2_rows :
  assign_index2 (zeros2 2 3) (tile_T 2 2, [[2; 0]; [1; 2]]%nat) [[5; 6]; [7; 8]]
  = [[6; 0; 5]; [0; 7; 8]].
Proof. reflexivity. Qed.

Example argmax_bool_first : argmax_bool [false; true; true] = 1%nat.
Proof. reflexivity. Qed.

Example argmax_bool_none : argmax_bool [false; false] = 0%nat.
Proof. reflexivity. Qed.

Example sample_row_second : sample_row [0; 1; 0] (1 / 2) = 1%nat.
Proof.
  apply sample_row_one_hot; simpl; try lia; try lra.
  intros [| [| [| [| i]]]] Hi; simpl; try reflexivity.
  now contradiction Hi.
Qed.

Example softmax_row_pair : softmax_row [0; 0] = [1 / 2; 1 / 2].
Proof.
  unfold softmax_row, Rmaxl. simpl.
  replace (Rmax 0 0) with 0 by (symmetry; apply Rmax_left; lra).
  replace (0 - 0) with 0 by lra. rewrite exp_0.
  repeat f_equal; lra.
Qed.

Example assign_col_second :
  assign_col [[0; 0]; [0; 0]; [0; 0]]%nat 1 [7; 8; 9]%nat
  = [[0; 7]; [0; 8]; [0; 9]]%nat.
Proof. reflexivity. Qed.

Example drop_axis1_padding :
  drop_axis1 1 [[0; 7; 4]; [0; 8; 5]]%nat = [[7; 4]; [8; 5]]%nat.
Proof. reflexivity. Qed.

Lemma example_config_valid : valid_config example_config.
Proof. constructor; simpl; try lia; try lra. Qed.

Lemma deficient_config_valid : valid_config deficient_config.
Proof. constructor; simpl; try lia; try lra. Qed.


Lemma fixed_alpha_positive (s : @self_t fixed_generator) (n : Z) :
  alpha_positive s n.
Proof.
  intros z g _. simpl. apply Forall_forall. intros u Hu.
  apply repeat_spec in Hu. subst. lra.
Qed.

Lemma half_reward_range (contexts action_context : matrix) (random_state : Z) :
  Forall (Forall (fun q => 0 <= q <= 1))
    (half_reward contexts action_context random_state).
Proof.
  unfold half_reward. apply Forall_map. apply Forall_forall. intros _ _.
  apply Forall_map. apply Forall_forall. intros _ _. lra.
Qed.

(** A call on an instance whose reward function is [half_reward]
    returns. *)
Lemma example_call (s : @self_t fixed_generator) (n : Z) :
  Invariant s -> reward_function (cfg s) = Some half_reward -> (1 <= n)%Z ->
  exists b s',
    obtain_batch_bandit_feedback (PyInt n) s = (inr b, s') /\
    Feedback.n_rounds b = n.
Proof.
  intros Hinv Hrf Hn.
  destruct (obtain_batch_body_returns n s Hinv Hn (fixed_alpha_positive s n))
    as (f & s' & Hf).
  { intros _ f Hf ctx ac rs. rewrite Hrf in Hf. inversion Hf.
    apply half_reward_range. }
  exists (bandit_feedback s' f), s'. split.
  - apply obtain_inv. now exists f.
  - simpl. pose proof (obtain_batch_body_inv _ _ _ _ Hf) as Hb.
    cbv zeta in Hb. destruct Hb as (E & _). now inversion E.
Qed.

(** An instance constructed from a valid configuration with the reward
    function [half_reward] and no behavior-policy function, and a call on
    it: both return. *)
Lemma example_run (c : config) (n : Z) :
  valid_config c -> reward_function c = Some half_reward ->
  behavior_policy_function c = None -> (1 <= n)%Z ->
  exists (s : @self_t fixed_generator) b s',
    __post_init__ half_reward half_reward c = inr s /\
    Invariant s /\ cfg s = internal_config half_reward half_reward c /\
    policy_contract s /\
    obtain_batch_bandit_feedback (PyInt n) s = (inr b, s') /\
    Feedback.n_rounds b = n.
Proof.
  intros Hv Hrf Hbp Hn.
  destruct (post_init_returns half_reward half_reward c Hv) as [s Hs].
  pose proof (post_init_invariant _ _ _ _ Hs) as Hinv.
  pose proof (post_init_inv _ _ _ _ Hs) as Hi. cbv zeta in Hi.
  destruct Hi as (_ & Hc & _).
  assert (Hrf' : reward_function (cfg s) = Some half_reward).
  { rewrite Hc. unfold internal_config. simpl. now rewrite Hrf. }
  assert (Hbp' : behavior_policy_function (cfg s) = None).
  { rewrite Hc. unfold internal_config. simpl. now rewrite Hrf. }
  assert (Hpc : policy_contract s).
  { intros f Hf. congruence. }
  destruct (example_call s n Hinv Hrf' Hn) as (b & s' & Hb & Hnb).
  exists s, b, s'. splits; auto.
Qed.



Lemma p_e_a_categories_sum_to_one_witness :
  exists (s : @self_t fixed_generator),
    __post_init__ half_reward half_reward example_config = inr s /\
    forall a d, (a < 4)%nat -> (d < 3)%nat ->
      Rsum (map (fun k => get3 (p_e_a s) a k d) (seq 0 3)) = 1.
Proof.
  destruct (post_init_returns half_reward half_reward example_config
              example_config_valid) as [s Hs].
  exists s. split; [exact Hs |].
  exact (proj2 (p_e_a_categories_sum_to_one half_reward half_reward
                  example_config s Hs)).
Defined.


Lemma fixed_structures_never_mutated_witness :
  exists (s : @self_t fixed_generator) b1 s1 b2 s2,
    __post_init__ half_reward half_reward example_config = inr s /\
    obtain_batch_bandit_feedback (PyInt 1000) s = (inr b1, s1) /\
    obtain_batch_bandit_feedback (PyInt 10) s1 = (inr b2, s2) /\
    p_e_a s1 = p_e_a s /\ latent_cat_param s1 = latent_cat_param s /\
    Feedback.p_e_a b2 = Feedback.p_e_a b1 /\
    Feedback.action_context b2 = Feedback.action_context b1.
Proof.
  destruct (example_run example_config 1000 example_config_valid
              eq_refl eq_refl)
    as (s & b1 & s1 & Hs & Hinv & Hc & Hpc & Hb1 & Hn); [lia |].
  destruct (fixed_structures_never_mutated (PyInt 1000) s (inr b1) s1 Hb1)
    as ((Hcfg & Hlat & Hp & Hreg) & Hnext).
  assert (Hinv1 : Invariant s1).
  { eapply Invariant_advances; [| exact Hinv]. eapply obtain_advances; eauto. }
  destruct (example_call s1 10 Hinv1) as (b2 & s2 & Hb2 & _).
  { rewrite Hcfg, Hc. reflexivity. }
  { lia. }
  destruct (Hnext b1 (PyInt 10) b2 s2 eq_refl Hb2) as [E1 E2].
  exists s, b1, s1, b2, s2. repeat (split; [assumption |]). assumption.
Defined.

Lemma output_shapes_witness :
  exists (s : @self_t fixed_generator) b s',
    __post_init__ half_reward half_reward example_config = inr s /\
    obtain_batch_bandit_feedback (PyInt 1000) s = (inr b, s') /\
    shape2 (Feedback.action_embed b) 1000 2 /\
    shape3 (Feedback.q_x_e b) 1000 3 2 /\
    shape3 (Feedback.p_e_a b) 4 3 2 /\
    shape2 (Feedback.action_context b) 4 2 /\
    shape3 (Feedback.pi_b b) 1000 4 1.
Proof.
  destruct (example_run example_config 1000 example_config_valid
              eq_refl eq_refl)
    as (s & b & s' & Hs & Hinv & Hc & Hpc & Hb & Hn); [lia |].
  destruct (output_shapes half_reward half_reward example_config
              (PyInt 1000) s b s' Hinv Hc Hpc Hb)
    as (f & _ & _ & H1 & _ & H2 & _ & H3 & _ & H4 & H5).
  rewrite Hn in H1, H2, H5.
  exists s, b, s'. split; [exact Hs |]. split; [exact Hb |].
  split; [exact H1 |]. split; [exact H2 |]. split; [exact H3 |].
  split; [exact H4 | exact H5].
Defined.


Lemma reward_realization_witness :
  exists (s : @self_t fixed_generator) b s' r,
    __post_init__ half_reward half_reward example_config = inr s /\
    obtain_batch_bandit_feedback (PyInt 1000) s = (inr b, s') /\
    Feedback.reward b = IntRewards r /\
    Forall (fun v => v = 0%Z \/ v = 1%Z) r.
Proof.
  destruct (example_run example_config 1000 example_config_valid
              eq_refl eq_refl)
    as (s & b & s' & Hs & Hinv & Hc & Hpc & Hb & Hn); [lia |].
  destruct (reward_realization (PyInt 1000) s b s' Hb) as (f & _ & _ & Hr).
  rewrite Hc in Hr. simpl in Hr. destruct Hr as (g & r & _ & Hrw & _ & Hbin).
  exists s, b, s', r. split; [exact Hs |]. split; [exact Hb |].
  split; [exact Hrw | exact Hbin].
Defined.




(** * The further properties on the example configurations *)

Lemma invalid_embedding_parameter_refused_witness :
  let refused := fun c name =>
    post_init_body half_reward half_reward (raw_instance c)
    = (inl (ValueError name), raw_instance c) in
  refused (embedding_config 0 5 2 1 0 0) "n_cat_per_dim"%string /\
  refused (embedding_config 3 0 2 1 0 0) "latent_param_mat_dim"%string /\
  refused (embedding_config 3 5 0 1 0 0) "n_cat_dim"%string /\
  refused (embedding_config 3 5 2 (-1) 0 0) "p_e_a_param_std"%string /\
  refused (embedding_config 3 5 2 1 3 0) "n_unobserved_cat_dim"%string /\
  refused (embedding_config 3 5 2 1 0 (-1)) "n_irrelevant_cat_dim"%string.
Proof.
  pose proof (fun c => invalid_embedding_parameter_refused half_reward
                         half_reward (raw_instance c)) as H.
  cbv zeta in H. cbv zeta. splits.
  - destruct (H (embedding_config 0 5 2 1 0 0)) as (H1 & _).
    apply H1. simpl. lia.
  - destruct (H (embedding_config 3 0 2 1 0 0)) as (_ & H2 & _).
    apply H2; simpl; lia.
  - destruct (H (embedding_config 3 5 0 1 0 0)) as (_ & _ & H3 & _).
    apply H3; simpl; lia.
  - destruct (H (embedding_config 3 5 2 (-1) 0 0)) as (_ & _ & _ & H4 & _).
    apply H4; simpl; try lia; lra.
  - destruct (H (embedding_config 3 5 2 1 3 0)) as (_ & _ & _ & _ & H5 & _).
    apply H5; simpl; try lia; lra.
  - destruct (H (embedding_config 3 5 2 1 0 (-1))) as (_ & _ & _ & _ & _ & H6).
    apply H6; simpl; try lia; lra.
Defined.

(** The construction of the example returns. *)
Lemma example_body_returns :
  exists s',
    post_init_body half_reward half_reward (raw_instance example_config)
    = (inr tt, s').
Proof.
  apply post_init_body_returns; simpl; try lia; lra.
Qed.

Lemma example_embed_returns :
  exists s', _define_action_embed (raw_instance example_config) = (inr tt, s').
Proof.
  apply _define_action_embed_returns; simpl; try lia; lra.
Qed.

Lemma construction_stores_fields_witness :
  exists s',
    post_init_body half_reward half_reward (raw_instance example_config)
    = (inr tt, s') /\
    n_cat_dim (cfg s') = 3%Z /\ n_unobserved_cat_dim (cfg s') = 1%Z /\
    n_irrelevant_cat_dim (cfg s') = 1%Z /\
    reward_function (cfg s') = Some half_reward /\
    n_actions (cfg s') = 4%Z /\ random_state (cfg s') = 42%Z.
Proof.
  destruct example_body_returns as [s' Hs']. exists s'.
  split; [exact Hs' |].
  pose proof (construction_stores_fields half_reward half_reward
                (raw_instance example_config) s' Hs') as H.
  cbv zeta in H. simpl in H.
  destruct H as (H1 & H2 & H3 & _ & _ & H6 & H7 & _ & _ & _ & _ & _ & _ & _
                 & _ & _ & H17 & _).
  splits; assumption.
Defined.

Lemma construction_returns_iff_witness :
  exists s',
    post_init_body half_reward half_reward (raw_instance example_config)
    = (inr tt, s').
Proof.
  apply (proj2 (construction_returns_iff half_reward half_reward
                  (raw_instance example_config))).
  simpl. repeat split; try lia; lra.
Defined.

Lemma stored_arrays_shapes_witness :
  exists s',
    _define_action_embed (raw_instance example_config) = (inr tt, s') /\
    shape3 (latent_cat_param s') 2 3 5 /\ shape3 (p_e_a s') 4 3 2 /\
    shape2 (action_context_reg s') 4 2.
Proof.
  destruct example_embed_returns as [s' Hs']. exists s'.
  split; [exact Hs' |].
  pose proof (stored_arrays_shapes (raw_instance example_config) s') as H.
  cbv zeta in H. simpl in H.
  destruct H as (_ & _ & H1 & H2 & H3); [lia | exact Hs' |].
  splits; assumption.
Defined.


Lemma action_context_reg_columns_witness :
  exists s',
    _define_action_embed (raw_instance example_config) = (inr tt, s') /\
    forall d a, (d < 2)%nat -> (a < 4)%nat ->
      (nth d (nth a (action_context_reg s') []) O < 3)%nat.
Proof.
  destruct example_embed_returns as [s' Hs']. exists s'.
  split; [exact Hs' |].
  intros d a Hd Ha.
  destruct (action_context_reg_columns (raw_instance example_config) s')
    with (d := d) as (_ & _ & Hlt); [simpl; lia | exact Hs' | exact Hd |].
  now apply Hlt.
Defined.

Lemma construction_establishes_invariant_witness :
  exists s',
    post_init_body half_reward half_reward (raw_instance example_config)
    = (inr tt, s') /\
    Invariant s' /\ stochastic_embedding s'.
Proof.
  destruct example_body_returns as [s' Hs']. exists s'.
  split; [exact Hs' |].
  apply (construction_establishes_invariant half_reward half_reward
           (raw_instance example_config) s'); simpl; try lia; try exact Hs'.
  discriminate.
Defined.


Lemma half_reward_shape (contexts action_context : matrix) (random_state : Z) :
  shape2 (half_reward contexts action_context random_state)
    (length contexts) (length action_context).
Proof.
  unfold half_reward. split; [apply length_map |].
  apply Forall_map. apply Forall_forall. intros _ _. apply length_map.
Qed.

Lemma example_contracts (c : config) (s : @self_t fixed_generator) :
  reward_function c = Some half_reward ->
  cfg s = internal_config half_reward half_reward c ->
  reward_function (cfg s) = Some half_reward /\
  reward_shape s /\ reward_range s.
Proof.
  intros Hrf Hc.
  assert (H : reward_function (cfg s) = Some half_reward).
  { rewrite Hc. unfold internal_config. simpl. now rewrite Hrf. }
  splits; auto.
  - intros f Hf ctx ac rs. rewrite H in Hf. inversion Hf.
    apply half_reward_shape.
  - intros f Hf ctx ac rs. rewrite H in Hf. inversion Hf.
    apply half_reward_range.
Qed.





Lemma returned_q_x_e_entries_witness :
  exists (s : @self_t fixed_generator) b s',
    __post_init__ half_reward half_reward example_config = inr s /\
    obtain_batch_bandit_feedback (PyInt 1000) s = (inr b, s') /\
    forall r k d, (r < 1000)%nat -> (k < 3)%nat -> (d < 2)%nat ->
      get3 (Feedback.q_x_e b) r k d
      = get2 (half_reward (Feedback.context b)
                (nth (1 + d) (latent_cat_param s) [])
                (42 + Z.of_nat (1 + d))%Z) r k.
Proof.
  destruct (example_run example_config 1000 example_config_valid
              eq_refl eq_refl)
    as (s & b & s' & Hs & Hinv & Hc & Hpc & Hb & Hn); [lia |].
  destruct (example_contracts example_config s eq_refl Hc)
    as (Hrf & Hshape & _).
  pose proof (returned_q_x_e_entries (PyInt 1000) s b s' half_reward
                Hinv Hshape Hrf Hb) as H.
  cbv zeta in H. rewrite Hn, Hc in H. simpl in H.
  exists s, b, s'. split; [exact Hs |]. split; [exact Hb |].
  intros r k d Hr Hk Hd. apply H; lia.
Defined.



Lemma returned_arrays_are_aligned_witness :
  exists (s : @self_t fixed_generator) b s',
    __post_init__ half_reward half_reward example_config = inr s /\
    obtain_batch_bandit_feedback (PyInt 1000) s = (inr b, s') /\
    Feedback.n_rounds b = 1000%Z /\
    length (Feedback.action b) = 1000%nat /\
    length (Feedback.pscore b) = 1000%nat /\
    shape2 (Feedback.expected_reward b) 1000 4.
Proof.
  destruct (example_run example_config 1000 example_config_valid
              eq_refl eq_refl)
    as (s & b & s' & Hs & Hinv & Hc & Hpc & Hb & Hn); [lia |].
  pose proof (returned_arrays_are_aligned (PyInt 1000) s b s' Hinv Hpc Hb)
    as H.
  cbv zeta in H. rewrite Hn, Hc in H.
  destruct H as (_ & _ & _ & _ & H1 & H2 & _ & H3).
  exists s, b, s'. splits; auto.
Defined.

Lemma returned_action_embed_columns_witness :
  exists (s : @self_t fixed_generator) b s',
    __post_init__ half_reward half_reward example_config = inr s /\
    obtain_batch_bandit_feedback (PyInt 1000) s = (inr b, s') /\
    forall d r, (d < 2)%nat -> (r < 1000)%nat ->
      (nth d (nth r (Feedback.action_embed b) []) O < 3)%nat.
Proof.
  destruct (example_run example_config 1000 example_config_valid
              eq_refl eq_refl)
    as (s & b & s' & Hs & Hinv & Hc & Hpc & Hb & Hn); [lia |].
  pose proof (returned_action_embed_columns (PyInt 1000) s b s' Hinv Hpc Hb)
    as H.
  cbv zeta in H. rewrite Hn, Hc in H. simpl in H.
  exists s, b, s'. split; [exact Hs |]. split; [exact Hb |].
  intros d r Hd Hr. destruct (H d) as [_ Hlt]; [lia |].
  apply Hlt. lia.
Defined.

Lemma zero_dirichlet_parameter_refused_witness :
  exists (s : @self_t zero_uniform_generator) g,
    __post_init__ (RS := zero_uniform_generator) half_reward half_reward
      example_config = inr s /\
    obtain_batch_bandit_feedback (RS := zero_uniform_generator) (PyInt 10) s
    = (inl (ValueError "alpha <= 0"), set_random_ s g).
Proof.
  destruct (post_init_returns (RS := zero_uniform_generator) half_reward
              half_reward example_config example_config_valid) as [s Hs].
  pose proof (post_init_inv _ _ _ _ Hs) as Hi. cbv zeta in Hi.
  destruct Hi as (_ & Hc & _).
  destruct (normal_returns (RS := zero_uniform_generator)
              (zeros1 (Z.to_nat 10 * Z.to_nat (dim_context (cfg s)))) 1
              (random_ s)) as (z & g & Hz); [lra |].
  exists s. eexists. split; [exact Hs |].
  apply (zero_dirichlet_parameter_refused (RS := zero_uniform_generator)
           10 s z g); [lia | exact Hz |].
  rewrite Hc. simpl. intros H. inversion H. lra.
Defined.

(** Two configurations that differ in the behavior policy only give
    instances with the same reward structure. *)
Lemma same_construction {RS : RandomState} (logistic linear : callable)
  (c1 c2 : config) (s1 s2 : self_t) :
  __post_init__ logistic linear c1 = inr s1 ->
  __post_init__ logistic linear c2 = inr s2 ->
  n_actions c1 = n_actions c2 -> dim_context c1 = dim_context c2 ->
  reward_type c1 = reward_type c2 ->
  reward_function c1 = reward_function c2 ->
  n_cat_per_dim c1 = n_cat_per_dim c2 ->
  latent_param_mat_dim c1 = latent_param_mat_dim c2 ->
  n_cat_dim c1 = n_cat_dim c2 ->
  p_e_a_param_std c1 = p_e_a_param_std c2 ->
  n_unobserved_cat_dim c1 = n_unobserved_cat_dim c2 ->
  n_irrelevant_cat_dim c1 = n_irrelevant_cat_dim c2 ->
  random_state c1 = random_state c2 ->
  same_rewards s1 s2.
Proof.
  intros H1 H2 Ea Edc Ety Erf Ek El Ed Ep Eu Ei Ers.
  apply post_init_inv in H1, H2. cbv zeta in H1, H2.
  destruct H1
    as (_ & Hc1 & (g1 & z1 & g1' & x1 & Hs1 & Hz1 & Hx1 & Hl1 & Hp1) & _).
  destruct H2
    as (_ & Hc2 & (g2 & z2 & g2' & x2 & Hs2 & Hz2 & Hx2 & Hl2 & Hp2) & _).
  rewrite Ers, Hs2 in Hs1. inversion Hs1; subst g1. clear Hs1.
  rewrite Ed, Ek, El, Hz2 in Hz1. inversion Hz1; subst z1 g1'. clear Hz1.
  rewrite Ea, Ek, Ed, Ep, Hx2 in Hx1. inversion Hx1 as [[Ex Eg]]. subst x1.
  unfold same_rewards. rewrite Hc1, Hc2, Hl1, Hl2, Hp1, Hp2.
  unfold internal_config. simpl. rewrite Erf.
  destruct (reward_function c2) as [rf |] eqn:E2; simpl;
    rewrite ?Ety, ?Ea, ?Edc, ?Ek, ?El, ?Ed, ?Eu, ?Ei, ?Ers, ?E2;
    splits; congruence.
Qed.

Lemma expected_rewards_ignore_behavior_policy_witness :
  exists (s1 s2 : @self_t fixed_generator) b1 b2 s1' s2',
    __post_init__ half_reward half_reward example_config = inr s1 /\
    __post_init__ half_reward half_reward deficient_config = inr s2 /\
    obtain_batch_bandit_feedback (PyInt 1000) s1 = (inr b1, s1') /\
    obtain_batch_bandit_feedback (PyInt 1000) s2 = (inr b2, s2') /\
    Feedback.context b1 = Feedback.context b2 /\
    Feedback.q_x_e b1 = Feedback.q_x_e b2 /\
    Feedback.expected_reward b1 = Feedback.expected_reward b2.
Proof.
  destruct (example_run example_config 1000 example_config_valid
              eq_refl eq_refl)
    as (s1 & b1 & s1' & Hs1 & _ & _ & _ & Hb1 & _); [lia |].
  destruct (example_run deficient_config 1000 deficient_config_valid
              eq_refl eq_refl)
    as (s2 & b2 & s2' & Hs2 & _ & _ & _ & Hb2 & _); [lia |].
  assert (Hsame : same_rewards s1 s2)
    by (apply (same_construction _ _ _ _ _ _ Hs1 Hs2); reflexivity).
  destruct (expected_rewards_ignore_behavior_policy (PyInt 1000) s1 s2 b1 b2
              s1' s2' Hsame Hb1 Hb2) as (_ & H1 & H2 & H3 & _).
  exists s1, s2, b1, b2, s1', s2'. splits; auto.
Defined.

(** Two configurations that differ in the rewards only give instances
    with the same policy structure. *)
Lemma same_policy_construction {RS : RandomState} (logistic linear : callable)
  (c1 c2 : config) (s1 s2 : self_t) :
  __post_init__ logistic linear c1 = inr s1 ->
  __post_init__ logistic linear c2 = inr s2 ->
  n_actions c1 = n_actions c2 -> dim_context c1 = dim_context c2 ->
  behavior_policy_function c1 = behavior_policy_function c2 ->
  behavior_policy_function c1 <> None ->
  beta c1 = beta c2 ->
  n_cat_per_dim c1 = n_cat_per_dim c2 ->
  latent_param_mat_dim c1 = latent_param_mat_dim c2 ->
  n_cat_dim c1 = n_cat_dim c2 ->
  p_e_a_param_std c1 = p_e_a_param_std c2 ->
  n_unobserved_cat_dim c1 = n_unobserved_cat_dim c2 ->
  n_irrelevant_cat_dim c1 = n_irrelevant_cat_dim c2 ->
  n_deficient_actions c1 = n_deficient_actions c2 ->
  random_state c1 = random_state c2 ->
  action_context c1 = action_context c2 ->
  same_policy s1 s2.
Proof.
  intros H1 H2 Ea Edc Ebp Hsome Eb Ek El Ed Ep Eu Ei End' Ers Eac.
  apply post_init_inv in H1, H2. cbv zeta in H1, H2.
  destruct H1
    as (_ & Hc1 & (g1 & z1 & g1' & x1 & Hs1 & Hz1 & Hx1 & _ & Hp1) & _).
  destruct H2
    as (_ & Hc2 & (g2 & z2 & g2' & x2 & Hs2 & Hz2 & Hx2 & _ & Hp2) & _).
  rewrite Ers, Hs2 in Hs1. inversion Hs1; subst g1. clear Hs1.
  rewrite Ed, Ek, El, Hz2 in Hz1. inversion Hz1; subst z1 g1'. clear Hz1.
  rewrite Ea, Ek, Ed, Ep, Hx2 in Hx1. inversion Hx1 as [[Ex Eg]]. subst x1.
  destruct (internal_config_fields logistic linear c1)
    as (F1 & F2 & _ & _ & F5 & F6 & _ & _ & F9 & F10 & F11 & F12 & F13 & _).
  destruct (internal_config_fields logistic linear c2)
    as (G1 & G2 & _ & _ & G5 & G6 & _ & _ & G9 & G10 & G11 & G12 & G13 & _).
  assert (Fac : forall c, action_context (internal_config logistic linear c)
                          = action_context c).
  { intros c. unfold internal_config. simpl.
    destruct (reward_function c); reflexivity. }
  unfold same_policy.
  rewrite Hc1, Hc2, Hp1, Hp2, F1, F2, F5, F6, F9, F10, F11, F12, F13,
    G1, G2, G5, G6, G9, G10, G11, G12, G13, !Fac.
  splits; congruence.
Qed.

Lemma quarter_reward_range (contexts action_context : matrix)
  (random_state : Z) :
  Forall (Forall (fun q => 0 <= q <= 1))
    (quarter_reward contexts action_context random_state).
Proof.
  unfold quarter_reward. apply Forall_map. apply Forall_forall. intros _ _.
  apply Forall_map. apply Forall_forall. intros _ _. lra.
Qed.

(** An instance constructed from [policy_config] and a call on it. *)
Lemma policy_run (rf : callable) (n : Z) :
  (forall contexts action_context random_state,
      Forall (Forall (fun q => 0 <= q <= 1))
        (rf contexts action_context random_state)) ->
  (1 <= n)%Z ->
  exists (s : @self_t fixed_generator) b s',
    __post_init__ half_reward half_reward (policy_config rf) = inr s /\
    Invariant s /\
    obtain_batch_bandit_feedback (PyInt n) s = (inr b, s').
Proof.
  intros Hrange Hn.
  assert (Hv : valid_config (policy_config rf))
    by (constructor; simpl; try lia; try lra).
  destruct (post_init_returns half_reward half_reward _ Hv) as [s Hs].
  pose proof (post_init_invariant _ _ _ _ Hs) as Hinv.
  pose proof (post_init_inv _ _ _ _ Hs) as Hi. cbv zeta in Hi.
  destruct Hi as (_ & Hc & _).
  destruct (obtain_batch_body_returns n s Hinv Hn (fixed_alpha_positive s n))
    as (f & s' & Hf).
  { intros _ f Hf ctx ac rs. rewrite Hc in Hf. simpl in Hf.
    inversion Hf; subst f. apply Hrange. }
  exists s, (bandit_feedback s' f), s'. splits; auto.
  apply obtain_inv. now exists f.
Qed.

Lemma policy_ignores_reward_function_witness :
  exists (s1 s2 : @self_t fixed_generator) b1 b2 s1' s2',
    __post_init__ half_reward half_reward (policy_config half_reward)
    = inr s1 /\
    __post_init__ half_reward half_reward (policy_config quarter_reward)
    = inr s2 /\
    obtain_batch_bandit_feedback (PyInt 1000) s1 = (inr b1, s1') /\
    obtain_batch_bandit_feedback (PyInt 1000) s2 = (inr b2, s2') /\
    Feedback.pi_b b1 = Feedback.pi_b b2 /\
    Feedback.action b1 = Feedback.action b2 /\
    Feedback.pscore b1 = Feedback.pscore b2 /\
    Feedback.action_embed b1 = Feedback.action_embed b2.
Proof.
  destruct (policy_run half_reward 1000 half_reward_range)
    as (s1 & b1 & s1' & Hs1 & Hinv1 & Hb1); [lia |].
  destruct (policy_run quarter_reward 1000 quarter_reward_range)
    as (s2 & b2 & s2' & Hs2 & Hinv2 & Hb2); [lia |].
  assert (Hsame : same_policy s1 s2).
  { apply (same_policy_construction _ _ _ _ _ _ Hs1 Hs2);
      try reflexivity. discriminate. }
  destruct (policy_ignores_reward_function (PyInt 1000) s1 s2 b1 b2 s1' s2'
              Hinv1 Hinv2 Hsame Hb1 Hb2) as (_ & H1 & H2 & H3 & H4).
  exists s1, s2, b1, b2, s1', s2'. splits; auto.
Defined.
